(** * Persistent points-to data structures (MemoryModel/PersistentPointsToDS.h)

    A shallow embedding of the [PersistentPTData] family: every store maps
    keys to points-to IDs handed out by a shared [PersistentPointsToCache]
    and performs its set algebra on IDs through that cache. *)

From stdpp Require Import gmap list sorting.

#[local] Set Warnings "-clear-no-such-hyp".

(** ** Instantiation of the template parameters

    [Data] and [LocID] are node identifiers, a [DataSet] is a set of [Data],
    a [KeySet] over a key type is a set of keys.  The key type itself stays a
    parameter of every store. *)

Abbreviation Data := nat (only parsing).
Abbreviation LocID := nat (only parsing).
Abbreviation PointsToID := nat (only parsing).
Abbreviation DataSet := (gset nat) (only parsing).

(** [map[k]] of the C++ maps: a read of an absent key first inserts the
    value-initialised default.  [subscript] is the map after the access and
    [m !!! k]-style reads are written [default d (m !! k)]. *)
Definition subscript `{Countable K} {V} (d : V) (m : gmap K V) (k : K) : gmap K V :=
  match m !! k with
  | Some _ => m
  | None => <[k := d]> m
  end.

Definition rd `{Countable K} {V} (d : V) (m : gmap K V) (k : K) : V :=
  default d (m !! k).

(** ** The points-to cache *)

Module PersistentPointsToCache.

(** Modelled from the spec: MemoryModel/PersistentPointsToCache.h is not part
    of the sources at hand.  The cache is an append-only table of interned
    sets; an ID is an index into the table.  [emptyPointsToId] is the handle
    of the empty set, and it is the value-initialised [PointsToID], which is
    what a store reads for a key it has never seen. *)
Abbreviation t := (list (gset nat)) (only parsing).

Definition emptyPointsToId : nat := 0.

(** Modelled from the spec: a new cache has interned the empty set only. *)
Definition new : t := [∅].

(** Modelled from the spec: [materialize(id)], the interned set behind an ID. *)
Definition getActualPts (c : t) (id : nat) : gset nat :=
  default ∅ (c !! id).

(** Modelled from the spec: [intern(set)], hash-consing; equal sets give the
    same ID, a set not yet in the table is appended. *)
Definition emplacePts (c : t) (s : gset nat) : nat * t :=
  match list_find (λ x, x = s) c with
  | Some (i, _) => (i, c)
  | None => (length c, c ++ [s])
  end.

(** Modelled from the spec: the algebraic combinators on IDs. *)
Definition unionPts (c : t) (a b : nat) : nat * t :=
  emplacePts c (getActualPts c a ∪ getActualPts c b).

Definition intersectPts (c : t) (a b : nat) : nat * t :=
  emplacePts c (getActualPts c a ∩ getActualPts c b).

Definition complementPts (c : t) (a b : nat) : nat * t :=
  emplacePts c (getActualPts c a ∖ getActualPts c b).

(** Well-formed caches: the empty set sits at [emptyPointsToId] and no set is
    interned twice. *)
Definition wf (c : t) : Prop :=
  c !! emptyPointsToId = Some ∅ ∧ NoDup c.

(** An ID issued by this cache. *)
Definition valid (c : t) (id : nat) : Prop := id < length c.

End PersistentPointsToCache.

Module Cache := PersistentPointsToCache.

(** Modelled from the spec: [insertKey] and [removeKey] of Util/SVFUtil.h,
    insertion into and removal-by-key from a key set. *)
Definition insertKey `{Countable K} (key : K) (keySet : gset K) : gset K :=
  {[key]} ∪ keySet.

Definition removeKey `{Countable K} (key : K) (keySet : gset K) : gset K :=
  keySet ∖ {[key]}.

(** ** Statistics shared by the [topN] methods

    Counters are [u64_t]; increments and sums wrap at [2^64]. *)
Definition u64_add (a b : N) : N := ((a + b) mod 2 ^ 64)%N.

Abbreviation PtCounts := (gmap nat N * N)%type (only parsing).

(** The body of the counting loops: [++ptCounts[id]; ++keys;] for an ID
    other than the empty one. *)
Definition countId (id : nat) (acc : PtCounts) : PtCounts :=
  if bool_decide (id ≠ Cache.emptyPointsToId)
  then (<[id := u64_add (rd 0%N acc.1 id) 1]> acc.1, u64_add acc.2 1)
  else acc.

Definition countMap `{Countable K} (m : gmap K nat) (acc : PtCounts) : PtCounts :=
  map_fold (λ _ id a, countId id a) acc m.

(** [std::sort(counts.begin(), counts.end(), std::greater<>())] followed by
    the sum of the first [n] counts. *)
Definition sortCounts (counts : list N) : list N :=
  merge_sort (flip N.le) counts.

Definition mostCommon (n : nat) (acc : PtCounts) : N * N :=
  let counts := sortCounts (snd <$> map_to_list acc.1) in
  (foldl u64_add 0%N (take n counts), acc.2).

(** What [topN] is to return, in the words of its description, for the IDs
    [ids] of all the entries it is to enumerate: the entries with the empty
    ID are left out, the occurrences of each ID are counted, the counts are
    sorted in descending order, and the result is the sum of the first [n]
    of them with the number of entries kept.  No counter wraps here. *)
Definition idsOf `{Countable K} (m : gmap K nat) : list nat := (map_to_list m).*2.

Definition nonEmptyIds (ids : list nat) : list nat :=
  filter (λ id, id ≠ Cache.emptyPointsToId) ids.

Definition occurrences (ids : list nat) (id : nat) : N :=
  N.of_nat (length (filter (λ x, x = id) ids)).

Definition sumN (l : list N) : N := foldr N.add 0%N l.

Definition topN_spec (n : nat) (ids : list nat) : N * N :=
  let entries := nonEmptyIds ids in
  let counts := occurrences entries <$> remove_dups entries in
  (sumN (take n (sortCounts counts)), N.of_nat (length entries)).

(** ** PersistentPTData: the basic store *)

Module PersistentPTData.
Section store.
Context `{Countable K}.

Record t : Type := mk {
  rev : bool;
  ptsMap : gmap K nat;
  revPtsMap : gmap nat (gset K)
}.

Definition new (reversePT : bool) : t := mk reversePT ∅ ∅.

Definition clear (s : t) : t := mk (rev s) ∅ ∅.

Definition getPts (c : Cache.t) (s : t) (var : K) : gset nat * t :=
  let id := rd 0 (ptsMap s) var in
  (Cache.getActualPts c id, mk (rev s) (subscript 0 (ptsMap s) var) (revPtsMap s)).

(** [None] is the failed assertion of a store built without reverse
    points-to support. *)
Definition getRevPts (s : t) (data : nat) : option (gset K * t) :=
  if rev s
  then Some (rd ∅ (revPtsMap s) data,
             mk (rev s) (ptsMap s) (subscript ∅ (revPtsMap s) data))
  else None.

Definition unionPtsFromId (c : Cache.t) (s : t) (dstKey : K) (srcId : nat)
  : bool * Cache.t * t :=
  let dstId := rd 0 (ptsMap s) dstKey in
  let pm := subscript 0 (ptsMap s) dstKey in
  let '(newDstId, c) := Cache.unionPts c dstId srcId in
  let changed := bool_decide (newDstId ≠ dstId) in
  if changed then
    let pm := <[dstKey := newDstId]> pm in
    if rev s then
      let srcPts := Cache.getActualPts c srcId in
      let rm := set_fold (λ d rm, <[d := insertKey dstKey (rd ∅ rm d)]> rm)
                         (revPtsMap s) srcPts in
      (changed, c, mk (rev s) pm rm)
    else (changed, c, mk (rev s) pm (revPtsMap s))
  else (changed, c, mk (rev s) pm (revPtsMap s)).

Definition addPts (c : Cache.t) (s : t) (dstKey : K) (element : nat)
  : bool * Cache.t * t :=
  let srcPts : gset nat := {[element]} in
  let '(srcId, c) := Cache.emplacePts c srcPts in
  unionPtsFromId c s dstKey srcId.

Definition unionPts (c : Cache.t) (s : t) (dstKey srcKey : K)
  : bool * Cache.t * t :=
  let srcId := rd 0 (ptsMap s) srcKey in
  let s := mk (rev s) (subscript 0 (ptsMap s) srcKey) (revPtsMap s) in
  unionPtsFromId c s dstKey srcId.

Definition unionPtsData (c : Cache.t) (s : t) (dstKey : K) (srcData : gset nat)
  : bool * Cache.t * t :=
  let '(srcId, c) := Cache.emplacePts c srcData in
  unionPtsFromId c s dstKey srcId.

(** [clearSingleRevPts(revPtsMap[d], k)]: the subscript creates the entry of
    [d] whether or not reverse points-to is on. *)
Definition clearSingleRevPts (rv : bool) (rm : gmap nat (gset K)) (d : nat) (k : K)
  : gmap nat (gset K) :=
  if rv then <[d := removeKey k (rd ∅ rm d)]> rm else subscript ∅ rm d.

Definition clearRevPts (rv : bool) (rm : gmap nat (gset K)) (pts : gset nat) (k : K)
  : gmap nat (gset K) :=
  if rv then set_fold (λ d rm, clearSingleRevPts rv rm d k) rm pts else rm.

Definition clearPts (c : Cache.t) (s : t) (var : K) (element : nat) : Cache.t * t :=
  let toRemoveData : gset nat := {[element]} in
  let '(toRemoveId, c) := Cache.emplacePts c toRemoveData in
  let varId := rd 0 (ptsMap s) var in
  let pm := subscript 0 (ptsMap s) var in
  let '(complementId, c) := Cache.complementPts c varId toRemoveId in
  if bool_decide (varId ≠ complementId)
  then (c, mk (rev s) (<[var := complementId]> pm)
              (clearSingleRevPts (rev s) (revPtsMap s) element var))
  else (c, mk (rev s) pm (revPtsMap s)).

Definition clearFullPts (c : Cache.t) (s : t) (var : K) : t :=
  let '(pts, s) := getPts c s var in
  mk (rev s) (<[var := Cache.emptyPointsToId]> (ptsMap s))
     (clearRevPts (rev s) (revPtsMap s) pts var).

Definition topN (s : t) (n : nat) : N * N :=
  mostCommon n (countMap (ptsMap s) (∅, 0%N)).

Definition inUsePointsToSetsOf (maps : list (gmap K nat)) : nat :=
  size (foldl (λ (acc : gset nat) kim, map_fold (λ _ id a, {[id]} ∪ a) acc kim) ∅ maps).

Definition inUsePointsToSets (s : t) : nat := inUsePointsToSetsOf [ptsMap s].

(** The operations that report a change of their destination key. *)
Inductive update : Type :=
| AddPts (dstKey : K) (element : nat)
| UnionPts (dstKey srcKey : K)
| UnionPtsData (dstKey : K) (srcData : gset nat).

Definition dstOf (u : update) : K :=
  match u with
  | AddPts k _ | UnionPts k _ | UnionPtsData k _ => k
  end.

Definition runUpdate (c : Cache.t) (s : t) (u : update) : bool * Cache.t * t :=
  match u with
  | AddPts k d => addPts c s k d
  | UnionPts k k' => unionPts c s k k'
  | UnionPtsData k ds => unionPtsData c s k ds
  end.

Inductive op : Type :=
| Update (u : update)
| ClearPts (var : K) (element : nat)
| ClearFullPts (var : K)
| Clear
| GetPts (var : K)
| GetRevPts (data : nat).

Definition step (cs : Cache.t * t) (o : op) : Cache.t * t :=
  let '(c, s) := cs in
  match o with
  | Update u => let '(_, c, s) := runUpdate c s u in (c, s)
  | ClearPts k d => clearPts c s k d
  | ClearFullPts k => (c, clearFullPts c s k)
  | Clear => (c, clear s)
  | GetPts k => (c, (getPts c s k).2)
  | GetRevPts d => (c, from_option snd s (getRevPts s d))
  end.

(** The ID a key stands for, and its points-to set, without the side effect
    of the subscript. *)
Definition idOf (s : t) (k : K) : nat := rd 0 (ptsMap s) k.
Definition ptsOf (c : Cache.t) (s : t) (k : K) : gset nat :=
  Cache.getActualPts c (idOf s k).
Definition revOf (s : t) (d : nat) : gset K := rd ∅ (revPtsMap s) d.

End store.
Global Arguments t K {_ _}.
Global Arguments update K : clear implicits.
Global Arguments op K : clear implicits.
End PersistentPTData.

(** ** PersistentDiffPTData: the diff store *)

Module PersistentDiffPTData.
Section store.
Context `{Countable K}.

Record t : Type := mk {
  rev : bool;
  persPTData : PersistentPTData.t K;
  diffPtsMap : gmap K nat;
  propaPtsMap : gmap K nat
}.

Definition new (reversePT : bool) : t :=
  mk reversePT (PersistentPTData.new reversePT) ∅ ∅.

Definition withBase (s : t) (b : PersistentPTData.t K) : t :=
  mk (rev s) b (diffPtsMap s) (propaPtsMap s).

Definition clear (s : t) : t :=
  mk (rev s) (PersistentPTData.clear (persPTData s)) ∅ ∅.

Definition getPts (c : Cache.t) (s : t) (var : K) : gset nat * t :=
  let '(pts, b) := PersistentPTData.getPts c (persPTData s) var in
  (pts, withBase s b).

Definition getRevPts (s : t) (data : nat) : option (gset K * t) :=
  if rev s
  then '(ks, b) ← PersistentPTData.getRevPts (persPTData s) data;
       Some (ks, withBase s b)
  else None.

Definition runUpdate (c : Cache.t) (s : t) (u : PersistentPTData.update K)
  : bool * Cache.t * t :=
  let '(r, c, b) := PersistentPTData.runUpdate c (persPTData s) u in
  (r, c, withBase s b).

Definition addPts c s (dstKey : K) (element : nat) :=
  runUpdate c s (PersistentPTData.AddPts dstKey element).
Definition unionPts c s (dstKey srcKey : K) :=
  runUpdate c s (PersistentPTData.UnionPts dstKey srcKey).
Definition unionPtsData c s (dstKey : K) (srcData : gset nat) :=
  runUpdate c s (PersistentPTData.UnionPtsData dstKey srcData).

Definition clearPts (c : Cache.t) (s : t) (var : K) (element : nat) : Cache.t * t :=
  let '(c, b) := PersistentPTData.clearPts c (persPTData s) var element in
  (c, withBase s b).

Definition clearFullPts (c : Cache.t) (s : t) (var : K) : t :=
  withBase s (PersistentPTData.clearFullPts c (persPTData s) var).

Definition getDiffPts (c : Cache.t) (s : t) (var : K) : gset nat * t :=
  let id := rd 0 (diffPtsMap s) var in
  (Cache.getActualPts c id,
   mk (rev s) (persPTData s) (subscript 0 (diffPtsMap s) var) (propaPtsMap s)).

Definition computeDiffPts (c : Cache.t) (s : t) (var : K) (all : gset nat)
  : bool * Cache.t * t :=
  let propaId := rd 0 (propaPtsMap s) var in
  let '(allId, c) := Cache.emplacePts c all in
  let '(diffId, c) := Cache.complementPts c allId propaId in
  (bool_decide (diffId ≠ Cache.emptyPointsToId), c,
   mk (rev s) (persPTData s) (<[var := diffId]> (diffPtsMap s))
      (<[var := allId]> (propaPtsMap s))).

Definition updatePropaPtsMap (c : Cache.t) (s : t) (src dst : K) : Cache.t * t :=
  let dstId := rd 0 (propaPtsMap s) dst in
  let pm := subscript 0 (propaPtsMap s) dst in
  let srcId := rd 0 pm src in
  let pm := subscript 0 pm src in
  let '(id, c) := Cache.intersectPts c dstId srcId in
  (c, mk (rev s) (persPTData s) (diffPtsMap s) (<[dst := id]> pm)).

Definition clearPropaPts (s : t) (var : K) : t :=
  mk (rev s) (persPTData s) (diffPtsMap s)
     (<[var := Cache.emptyPointsToId]> (propaPtsMap s)).

Definition topN (s : t) (n : nat) : N * N :=
  PersistentPTData.topN (persPTData s) n.

Definition inUsePointsToSets (s : t) : nat :=
  PersistentPTData.inUsePointsToSets (persPTData s).

Definition idOf (s : t) (k : K) : nat := PersistentPTData.idOf (persPTData s) k.
Definition diffOf (c : Cache.t) (s : t) (k : K) : gset nat :=
  Cache.getActualPts c (rd 0 (diffPtsMap s) k).
Definition propaOf (c : Cache.t) (s : t) (k : K) : gset nat :=
  Cache.getActualPts c (rd 0 (propaPtsMap s) k).

End store.
Global Arguments t K {_ _}.
End PersistentDiffPTData.

(** ** PersistentDFPTData: the data-flow store *)

Module PersistentDFPTData.
Section store.
Context `{Countable K}.

Record t : Type := mk {
  rev : bool;
  persPTData : PersistentPTData.t K;
  dfInPtsMap : gmap nat (gmap K nat);
  dfOutPtsMap : gmap nat (gmap K nat)
}.

Definition new (reversePT : bool) : t :=
  mk reversePT (PersistentPTData.new reversePT) ∅ ∅.

Definition withBase (s : t) (b : PersistentPTData.t K) : t :=
  mk (rev s) b (dfInPtsMap s) (dfOutPtsMap s).

(** The source leaves [dfInPtsMap] and [dfOutPtsMap] as they are. *)
Definition clear (s : t) : t :=
  withBase s (PersistentPTData.clear (persPTData s)).

Definition getPts (c : Cache.t) (s : t) (var : K) : gset nat * t :=
  let '(pts, b) := PersistentPTData.getPts c (persPTData s) var in
  (pts, withBase s b).

(** [assert(false)]: reverse points-to is not supported. *)
Definition getRevPts (s : t) (datum : nat) : option (gset K * t) := None.

Definition runBase (c : Cache.t) (s : t) (u : PersistentPTData.update K)
  : bool * Cache.t * t :=
  let '(r, c, b) := PersistentPTData.runUpdate c (persPTData s) u in
  (r, c, withBase s b).

Definition addPts c s (dstKey : K) (element : nat) :=
  runBase c s (PersistentPTData.AddPts dstKey element).
Definition unionPts c s (dstKey srcKey : K) :=
  runBase c s (PersistentPTData.UnionPts dstKey srcKey).
Definition unionPtsData c s (dstKey : K) (srcData : gset nat) :=
  runBase c s (PersistentPTData.UnionPtsData dstKey srcData).

Definition clearPts (c : Cache.t) (s : t) (var : K) (element : nat) : Cache.t * t :=
  let '(c, b) := PersistentPTData.clearPts c (persPTData s) var element in
  (c, withBase s b).

Definition clearFullPts (c : Cache.t) (s : t) (var : K) : t :=
  withBase s (PersistentPTData.clearFullPts c (persPTData s) var).

Definition hasDFInSet (s : t) (loc : nat) : bool :=
  bool_decide (is_Some (dfInPtsMap s !! loc)).

Definition hasDFOutSet (s : t) (loc : nat) : bool :=
  bool_decide (is_Some (dfOutPtsMap s !! loc)).

Definition hasDFInSetVar (s : t) (loc : nat) (var : K) : bool :=
  match dfInPtsMap s !! loc with
  | None => false
  | Some inKeyToId => bool_decide (is_Some (inKeyToId !! var))
  end.

Definition hasDFOutSetVar (s : t) (loc : nat) (var : K) : bool :=
  match dfOutPtsMap s !! loc with
  | None => false
  | Some outKeyToId => bool_decide (is_Some (outKeyToId !! var))
  end.

(** A [PointsToID &]: the slot of the store a reference designates. *)
Inductive IdRef : Type :=
| TLRef (var : K)
| InRef (loc : nat) (var : K)
| OutRef (loc : nat) (var : K).

(** [m[loc][var]] on a [DFKeyToIDMap]: the map after the two subscripts. *)
Definition subscript2 (m : gmap nat (gmap K nat)) (loc : nat) (var : K)
  : gmap nat (gmap K nat) :=
  <[loc := subscript 0 (rd ∅ m loc) var]> m.

Definition rd2 (m : gmap nat (gmap K nat)) (loc : nat) (var : K) : nat :=
  rd 0 (rd ∅ m loc) var.

Definition wr2 (m : gmap nat (gmap K nat)) (loc : nat) (var : K) (id : nat)
  : gmap nat (gmap K nat) :=
  <[loc := <[var := id]> (rd ∅ m loc)]> m.

Definition deref (s : t) (r : IdRef) : nat :=
  match r with
  | TLRef var => PersistentPTData.idOf (persPTData s) var
  | InRef loc var => rd2 (dfInPtsMap s) loc var
  | OutRef loc var => rd2 (dfOutPtsMap s) loc var
  end.

Definition assign (s : t) (r : IdRef) (id : nat) : t :=
  match r with
  | TLRef var =>
      let b := persPTData s in
      withBase s (PersistentPTData.mk (PersistentPTData.rev b)
                    (<[var := id]> (PersistentPTData.ptsMap b))
                    (PersistentPTData.revPtsMap b))
  | InRef loc var =>
      mk (rev s) (persPTData s) (wr2 (dfInPtsMap s) loc var id) (dfOutPtsMap s)
  | OutRef loc var =>
      mk (rev s) (persPTData s) (dfInPtsMap s) (wr2 (dfOutPtsMap s) loc var id)
  end.

(** Taking the reference creates the entry it designates. *)
Definition getDFInPtIdRef (s : t) (loc : nat) (var : K) : IdRef * t :=
  (InRef loc var,
   mk (rev s) (persPTData s) (subscript2 (dfInPtsMap s) loc var) (dfOutPtsMap s)).

Definition getDFOutPtIdRef (s : t) (loc : nat) (var : K) : IdRef * t :=
  (OutRef loc var,
   mk (rev s) (persPTData s) (dfInPtsMap s) (subscript2 (dfOutPtsMap s) loc var)).

(** [persPTData.ptsMap[var]] taken as a reference. *)
Definition getTLPtIdRef (s : t) (var : K) : IdRef * t :=
  let b := persPTData s in
  (TLRef var,
   withBase s (PersistentPTData.mk (PersistentPTData.rev b)
                 (subscript 0 (PersistentPTData.ptsMap b) var)
                 (PersistentPTData.revPtsMap b))).

Definition getDFInPtsSet (c : Cache.t) (s : t) (loc : nat) (var : K) : gset nat * t :=
  let '(r, s) := getDFInPtIdRef s loc var in
  (Cache.getActualPts c (deref s r), s).

Definition getDFOutPtsSet (c : Cache.t) (s : t) (loc : nat) (var : K) : gset nat * t :=
  let '(r, s) := getDFOutPtIdRef s loc var in
  (Cache.getActualPts c (deref s r), s).

Definition unionPtsThroughIds (c : Cache.t) (s : t) (dst src : IdRef)
  : bool * Cache.t * t :=
  let oldDst := deref s dst in
  let '(id, c) := Cache.unionPts c (deref s dst) (deref s src) in
  let s := assign s dst id in
  (bool_decide (oldDst ≠ deref s dst), c, s).

Definition updateDFInFromIn c (s : t) (srcLoc : nat) (srcVar : K) (dstLoc : nat) (dstVar : K) :=
  let '(dst, s) := getDFInPtIdRef s dstLoc dstVar in
  let '(src, s) := getDFInPtIdRef s srcLoc srcVar in
  unionPtsThroughIds c s dst src.

Definition updateAllDFInFromIn c (s : t) (srcLoc : nat) (srcVar : K) (dstLoc : nat) (dstVar : K) :=
  updateDFInFromIn c s srcLoc srcVar dstLoc dstVar.

Definition updateDFInFromOut c (s : t) (srcLoc : nat) (srcVar : K) (dstLoc : nat) (dstVar : K) :=
  let '(dst, s) := getDFInPtIdRef s dstLoc dstVar in
  let '(src, s) := getDFOutPtIdRef s srcLoc srcVar in
  unionPtsThroughIds c s dst src.

Definition updateAllDFInFromOut c (s : t) (srcLoc : nat) (srcVar : K) (dstLoc : nat) (dstVar : K) :=
  updateDFInFromOut c s srcLoc srcVar dstLoc dstVar.

Definition updateDFOutFromIn c (s : t) (srcLoc : nat) (srcVar : K) (dstLoc : nat) (dstVar : K) :=
  let '(dst, s) := getDFOutPtIdRef s dstLoc dstVar in
  let '(src, s) := getDFInPtIdRef s srcLoc srcVar in
  unionPtsThroughIds c s dst src.

(** One iteration of the loop of [updateAllDFOutFromIn]. *)
Definition outFromInBody (loc : nat) (singleton : K) (strongUpdates : bool)
    (acc : bool * Cache.t * t) (var : K) : bool * Cache.t * t :=
  let '(changed, c, s) := acc in
  if strongUpdates && bool_decide (var = singleton) then acc
  else
    let '(r, c, s) := updateDFOutFromIn c s loc var loc var in
    (if r then true else changed, c, s).

(** The loop runs over the keys of [dfInPtsMap[loc]]; its body subscripts
    that map at keys it already has only, so the keys are those at entry. *)
Definition updateAllDFOutFromIn (c : Cache.t) (s : t) (loc : nat) (singleton : K)
    (strongUpdates : bool) : bool * Cache.t * t :=
  if hasDFInSet s loc then
    let inKeyToId := rd ∅ (dfInPtsMap s) loc in
    foldl (outFromInBody loc singleton strongUpdates) (false, c, s)
          (map_to_list inKeyToId).*1
  else (false, c, s).

Definition clearAllDFOutUpdatedVar (s : t) (loc : nat) : t := s.

Definition updateTLVPts c (s : t) (srcLoc : nat) (srcVar dstVar : K) :=
  let '(dst, s) := getTLPtIdRef s dstVar in
  let '(src, s) := getDFInPtIdRef s srcLoc srcVar in
  unionPtsThroughIds c s dst src.

Definition updateATVPts c (s : t) (srcVar : K) (dstLoc : nat) (dstVar : K) :=
  let '(dst, s) := getDFOutPtIdRef s dstLoc dstVar in
  let '(src, s) := getTLPtIdRef s srcVar in
  unionPtsThroughIds c s dst src.

(** [keyToIdMaps]: the top-level map, then every IN map, then every OUT map. *)
Definition keyToIdMaps (s : t) : list (gmap K nat) :=
  PersistentPTData.ptsMap (persPTData s)
    :: (map_to_list (dfInPtsMap s)).*2 ++ (map_to_list (dfOutPtsMap s)).*2.

Definition topN (s : t) (n : nat) : N * N :=
  mostCommon n (foldl (λ acc kim, countMap kim acc) (∅, 0%N) (keyToIdMaps s)).

Definition inUsePointsToSets (s : t) : nat :=
  PersistentPTData.inUsePointsToSetsOf (keyToIdMaps s).

(** The operations that report a change of one destination slot. *)
Inductive update : Type :=
| Base (u : PersistentPTData.update K)
| UpdateDFInFromIn (srcLoc : nat) (srcVar : K) (dstLoc : nat) (dstVar : K)
| UpdateAllDFInFromIn (srcLoc : nat) (srcVar : K) (dstLoc : nat) (dstVar : K)
| UpdateDFInFromOut (srcLoc : nat) (srcVar : K) (dstLoc : nat) (dstVar : K)
| UpdateAllDFInFromOut (srcLoc : nat) (srcVar : K) (dstLoc : nat) (dstVar : K)
| UpdateDFOutFromIn (srcLoc : nat) (srcVar : K) (dstLoc : nat) (dstVar : K)
| UpdateTLVPts (srcLoc : nat) (srcVar dstVar : K)
| UpdateATVPts (srcVar : K) (dstLoc : nat) (dstVar : K).

Definition dstOf (u : update) : IdRef :=
  match u with
  | Base u => TLRef (PersistentPTData.dstOf u)
  | UpdateDFInFromIn _ _ l k | UpdateAllDFInFromIn _ _ l k
  | UpdateDFInFromOut _ _ l k | UpdateAllDFInFromOut _ _ l k => InRef l k
  | UpdateDFOutFromIn _ _ l k => OutRef l k
  | UpdateTLVPts _ _ k => TLRef k
  | UpdateATVPts _ l k => OutRef l k
  end.

Definition runUpdate (c : Cache.t) (s : t) (u : update) : bool * Cache.t * t :=
  match u with
  | Base u => runBase c s u
  | UpdateDFInFromIn sl sk dl dk => updateDFInFromIn c s sl sk dl dk
  | UpdateAllDFInFromIn sl sk dl dk => updateAllDFInFromIn c s sl sk dl dk
  | UpdateDFInFromOut sl sk dl dk => updateDFInFromOut c s sl sk dl dk
  | UpdateAllDFInFromOut sl sk dl dk => updateAllDFInFromOut c s sl sk dl dk
  | UpdateDFOutFromIn sl sk dl dk => updateDFOutFromIn c s sl sk dl dk
  | UpdateTLVPts sl sk dk => updateTLVPts c s sl sk dk
  | UpdateATVPts sk dl dk => updateATVPts c s sk dl dk
  end.

Definition inOf (c : Cache.t) (s : t) (loc : nat) (var : K) : gset nat :=
  Cache.getActualPts c (deref s (InRef loc var)).
Definition outOf (c : Cache.t) (s : t) (loc : nat) (var : K) : gset nat :=
  Cache.getActualPts c (deref s (OutRef loc var)).

End store.
Global Arguments t K {_ _}.
Global Arguments IdRef K : clear implicits.
Global Arguments update K : clear implicits.
End PersistentDFPTData.

(** ** PersistentIncDFPTData: the incremental data-flow store *)

Module PersistentIncDFPTData.
Module DF := PersistentDFPTData.
Section store.
Context `{Countable K}.

(** The base-class part, then the two maps of updated variables. *)
Record t : Type := mk {
  base : DF.t K;
  outUpdatedVarMap : gmap nat (gset K);
  inUpdatedVarMap : gmap nat (gset K)
}.

Definition new (reversePT : bool) : t := mk (DF.new reversePT) ∅ ∅.

Definition withDF (s : t) (d : DF.t K) : t :=
  mk d (outUpdatedVarMap s) (inUpdatedVarMap s).

Definition liftDF {A} (s : t) (r : A * Cache.t * DF.t K) : A * Cache.t * t :=
  let '(a, c, d) := r in (a, c, withDF s d).

(** Inherited from the data-flow store. *)
Definition clear (s : t) : t := withDF s (DF.clear (base s)).
Definition hasDFInSet (s : t) (loc : nat) : bool := DF.hasDFInSet (base s) loc.
Definition hasDFOutSet (s : t) (loc : nat) : bool := DF.hasDFOutSet (base s) loc.

Definition setVarDFInSetUpdated (s : t) (loc : nat) (var : K) : t :=
  mk (base s) (outUpdatedVarMap s)
     (<[loc := insertKey var (rd ∅ (inUpdatedVarMap s) loc)]> (inUpdatedVarMap s)).

Definition removeVarFromDFInUpdatedSet (s : t) (loc : nat) (var : K) : t :=
  match inUpdatedVarMap s !! loc with
  | Some vars =>
      mk (base s) (outUpdatedVarMap s) (<[loc := removeKey var vars]> (inUpdatedVarMap s))
  | None => s
  end.

Definition varHasNewDFInPts (s : t) (loc : nat) (var : K) : bool :=
  match inUpdatedVarMap s !! loc with
  | Some vars => bool_decide (var ∈ vars)
  | None => false
  end.

Definition getDFInUpdatedVar (s : t) (loc : nat) : gset K * t :=
  (rd ∅ (inUpdatedVarMap s) loc,
   mk (base s) (outUpdatedVarMap s) (subscript ∅ (inUpdatedVarMap s) loc)).

Definition setVarDFOutSetUpdated (s : t) (loc : nat) (var : K) : t :=
  mk (base s)
     (<[loc := insertKey var (rd ∅ (outUpdatedVarMap s) loc)]> (outUpdatedVarMap s))
     (inUpdatedVarMap s).

Definition removeVarFromDFOutUpdatedSet (s : t) (loc : nat) (var : K) : t :=
  match outUpdatedVarMap s !! loc with
  | Some vars =>
      mk (base s) (<[loc := removeKey var vars]> (outUpdatedVarMap s)) (inUpdatedVarMap s)
  | None => s
  end.

Definition varHasNewDFOutPts (s : t) (loc : nat) (var : K) : bool :=
  match outUpdatedVarMap s !! loc with
  | Some vars => bool_decide (var ∈ vars)
  | None => false
  end.

Definition getDFOutUpdatedVar (s : t) (loc : nat) : gset K * t :=
  (rd ∅ (outUpdatedVarMap s) loc,
   mk (base s) (subscript ∅ (outUpdatedVarMap s) loc) (inUpdatedVarMap s)).

Definition updateDFInFromIn (c : Cache.t) (s : t) (srcLoc : nat) (srcVar : K)
    (dstLoc : nat) (dstVar : K) : bool * Cache.t * t :=
  if varHasNewDFInPts s srcLoc srcVar then
    let '(r, c, s) := liftDF s (DF.updateDFInFromIn c (base s) srcLoc srcVar dstLoc dstVar) in
    if r then (true, c, setVarDFInSetUpdated s dstLoc dstVar) else (false, c, s)
  else (false, c, s).

Definition updateDFInFromOut (c : Cache.t) (s : t) (srcLoc : nat) (srcVar : K)
    (dstLoc : nat) (dstVar : K) : bool * Cache.t * t :=
  if varHasNewDFOutPts s srcLoc srcVar then
    let '(r, c, s) := liftDF s (DF.updateDFInFromOut c (base s) srcLoc srcVar dstLoc dstVar) in
    if r then (true, c, setVarDFInSetUpdated s dstLoc dstVar) else (false, c, s)
  else (false, c, s).

Definition updateDFOutFromIn (c : Cache.t) (s : t) (srcLoc : nat) (srcVar : K)
    (dstLoc : nat) (dstVar : K) : bool * Cache.t * t :=
  if varHasNewDFInPts s srcLoc srcVar then
    let s := removeVarFromDFInUpdatedSet s srcLoc srcVar in
    let '(r, c, s) := liftDF s (DF.updateDFOutFromIn c (base s) srcLoc srcVar dstLoc dstVar) in
    if r then (true, c, setVarDFOutSetUpdated s dstLoc dstVar) else (false, c, s)
  else (false, c, s).

Definition updateAllDFInFromOut (c : Cache.t) (s : t) (srcLoc : nat) (srcVar : K)
    (dstLoc : nat) (dstVar : K) : bool * Cache.t * t :=
  let '(r, c, s) := liftDF s (DF.updateDFInFromOut c (base s) srcLoc srcVar dstLoc dstVar) in
  if r then (true, c, setVarDFInSetUpdated s dstLoc dstVar) else (false, c, s).

Definition updateAllDFInFromIn (c : Cache.t) (s : t) (srcLoc : nat) (srcVar : K)
    (dstLoc : nat) (dstVar : K) : bool * Cache.t * t :=
  let '(r, c, s) := liftDF s (DF.updateDFInFromIn c (base s) srcLoc srcVar dstLoc dstVar) in
  if r then (true, c, setVarDFInSetUpdated s dstLoc dstVar) else (false, c, s).

(** One iteration of the loop of [updateAllDFOutFromIn]. *)
Definition outFromInBody (loc : nat) (singleton : K) (strongUpdates : bool)
    (acc : bool * Cache.t * t) (var : K) : bool * Cache.t * t :=
  let '(changed, c, s) := acc in
  if strongUpdates && bool_decide (var = singleton) then acc
  else
    let '(r, c, s) := updateDFOutFromIn c s loc var loc var in
    (if r then true else changed, c, s).

(** [vars] is a copy of the updated set, made before the loop. *)
Definition updateAllDFOutFromIn (c : Cache.t) (s : t) (loc : nat) (singleton : K)
    (strongUpdates : bool) : bool * Cache.t * t :=
  if hasDFInSet s loc then
    let '(vars, s) := getDFInUpdatedVar s loc in
    foldl (outFromInBody loc singleton strongUpdates) (false, c, s) (elements vars)
  else (false, c, s).

Definition updateTLVPts (c : Cache.t) (s : t) (srcLoc : nat) (srcVar dstVar : K)
  : bool * Cache.t * t :=
  if varHasNewDFInPts s srcLoc srcVar then
    let s := removeVarFromDFInUpdatedSet s srcLoc srcVar in
    liftDF s (DF.updateTLVPts c (base s) srcLoc srcVar dstVar)
  else (false, c, s).

Definition updateATVPts (c : Cache.t) (s : t) (srcVar : K) (dstLoc : nat) (dstVar : K)
  : bool * Cache.t * t :=
  let '(r, c, s) := liftDF s (DF.updateATVPts c (base s) srcVar dstLoc dstVar) in
  if r then (true, c, setVarDFOutSetUpdated s dstLoc dstVar) else (false, c, s).

Definition clearAllDFOutUpdatedVar (s : t) (loc : nat) : t :=
  if hasDFOutSet s loc then
    let '(vars, s) := getDFOutUpdatedVar s loc in
    foldl (λ s var, removeVarFromDFOutUpdatedSet s loc var) s (elements vars)
  else s.

(** Inherited from the data-flow store. *)
Definition topN (s : t) (n : nat) : N * N := DF.topN (base s) n.

Definition runUpdate (c : Cache.t) (s : t) (u : DF.update K) : bool * Cache.t * t :=
  match u with
  | DF.Base u => liftDF s (DF.runBase c (base s) u)
  | DF.UpdateDFInFromIn sl sk dl dk => updateDFInFromIn c s sl sk dl dk
  | DF.UpdateAllDFInFromIn sl sk dl dk => updateAllDFInFromIn c s sl sk dl dk
  | DF.UpdateDFInFromOut sl sk dl dk => updateDFInFromOut c s sl sk dl dk
  | DF.UpdateAllDFInFromOut sl sk dl dk => updateAllDFInFromOut c s sl sk dl dk
  | DF.UpdateDFOutFromIn sl sk dl dk => updateDFOutFromIn c s sl sk dl dk
  | DF.UpdateTLVPts sl sk dk => updateTLVPts c s sl sk dk
  | DF.UpdateATVPts sk dl dk => updateATVPts c s sk dl dk
  end.

Inductive op : Type :=
| Update (u : DF.update K)
| UpdateAllDFOutFromIn (loc : nat) (singleton : K) (strongUpdates : bool)
| ClearAllDFOutUpdatedVar (loc : nat)
| ClearPts (var : K) (element : nat)
| ClearFullPts (var : K)
| Clear
| GetPts (var : K)
| GetDFInPtsSet (loc : nat) (var : K)
| GetDFOutPtsSet (loc : nat) (var : K).

Definition step (cs : Cache.t * t) (o : op) : Cache.t * t :=
  let '(c, s) := cs in
  match o with
  | Update u => let '(_, c, s) := runUpdate c s u in (c, s)
  | UpdateAllDFOutFromIn l k b =>
      let '(_, c, s) := updateAllDFOutFromIn c s l k b in (c, s)
  | ClearAllDFOutUpdatedVar l => (c, clearAllDFOutUpdatedVar s l)
  | ClearPts k d => let '(c, d) := DF.clearPts c (base s) k d in (c, withDF s d)
  | ClearFullPts k => (c, withDF s (DF.clearFullPts c (base s) k))
  | Clear => (c, clear s)
  | GetPts k => (c, withDF s (DF.getPts c (base s) k).2)
  | GetDFInPtsSet l k => (c, withDF s (DF.getDFInPtsSet c (base s) l k).2)
  | GetDFOutPtsSet l k => (c, withDF s (DF.getDFOutPtsSet c (base s) l k).2)
  end.

Definition isInDirty (s : t) (loc : nat) (var : K) : Prop :=
  var ∈ rd ∅ (inUpdatedVarMap s) loc.
Definition isOutDirty (s : t) (loc : nat) (var : K) : Prop :=
  var ∈ rd ∅ (outUpdatedVarMap s) loc.

End store.
Global Arguments t K {_ _}.
Global Arguments op K : clear implicits.
End PersistentIncDFPTData.

(** ** PersistentVersionedPTData: the versioned store *)

Module PersistentVersionedPTData.
Module B := PersistentPTData.
Section store.
Context `{Countable K, Countable VK}.

Record t : Type := mk {
  rev : bool;
  tlPTData : B.t K;
  atPTData : B.t VK
}.

Definition new (reversePT : bool) : t :=
  mk reversePT (B.new reversePT) (B.new reversePT).

Definition clear (s : t) : t :=
  mk (rev s) (B.clear (tlPTData s)) (B.clear (atPTData s)).

Definition withTL {A} (s : t) (r : A * Cache.t * B.t K) : A * Cache.t * t :=
  let '(a, c, b) := r in (a, c, mk (rev s) b (atPTData s)).

Definition withAT {A} (s : t) (r : A * Cache.t * B.t VK) : A * Cache.t * t :=
  let '(a, c, b) := r in (a, c, mk (rev s) (tlPTData s) b).

Definition getPts (c : Cache.t) (s : t) (k : K) : gset nat * t :=
  let '(pts, b) := B.getPts c (tlPTData s) k in (pts, mk (rev s) b (atPTData s)).

Definition getPtsV (c : Cache.t) (s : t) (vk : VK) : gset nat * t :=
  let '(pts, b) := B.getPts c (atPTData s) vk in (pts, mk (rev s) (tlPTData s) b).

Definition getRevPts (s : t) (data : nat) : option (gset K * t) :=
  if rev s
  then '(ks, b) ← B.getRevPts (tlPTData s) data; Some (ks, mk (rev s) b (atPTData s))
  else None.

Definition getVersionedKeyRevPts (s : t) (data : nat) : option (gset VK * t) :=
  if rev s
  then '(ks, b) ← B.getRevPts (atPTData s) data; Some (ks, mk (rev s) (tlPTData s) b)
  else None.

Definition addPts c (s : t) (k : K) (element : nat) :=
  withTL s (B.addPts c (tlPTData s) k element).
Definition addPtsV c (s : t) (vk : VK) (element : nat) :=
  withAT s (B.addPts c (atPTData s) vk element).

Definition unionPts c (s : t) (dstVar srcVar : K) :=
  withTL s (B.unionPts c (tlPTData s) dstVar srcVar).
Definition unionPtsVV c (s : t) (dstVar srcVar : VK) :=
  withAT s (B.unionPts c (atPTData s) dstVar srcVar).

(** The two cross-space unions; the subscript of the source creates its entry
    in the other store. *)
Definition unionPtsVK c (s : t) (dstVar : VK) (srcVar : K) : bool * Cache.t * t :=
  let tl := tlPTData s in
  let srcId := rd 0 (B.ptsMap tl) srcVar in
  let s := mk (rev s)
              (B.mk (B.rev tl) (subscript 0 (B.ptsMap tl) srcVar) (B.revPtsMap tl))
              (atPTData s) in
  withAT s (B.unionPtsFromId c (atPTData s) dstVar srcId).

Definition unionPtsKV c (s : t) (dstVar : K) (srcVar : VK) : bool * Cache.t * t :=
  let at_ := atPTData s in
  let srcId := rd 0 (B.ptsMap at_) srcVar in
  let s := mk (rev s) (tlPTData s)
              (B.mk (B.rev at_) (subscript 0 (B.ptsMap at_) srcVar) (B.revPtsMap at_)) in
  withTL s (B.unionPtsFromId c (tlPTData s) dstVar srcId).

Definition unionPtsData c (s : t) (dstVar : K) (srcData : gset nat) :=
  withTL s (B.unionPtsData c (tlPTData s) dstVar srcData).
Definition unionPtsDataV c (s : t) (dstVar : VK) (srcData : gset nat) :=
  withAT s (B.unionPtsData c (atPTData s) dstVar srcData).

Definition clearPts (c : Cache.t) (s : t) (k : K) (element : nat) : Cache.t * t :=
  let '(c, b) := B.clearPts c (tlPTData s) k element in (c, mk (rev s) b (atPTData s)).
Definition clearPtsV (c : Cache.t) (s : t) (vk : VK) (element : nat) : Cache.t * t :=
  let '(c, b) := B.clearPts c (atPTData s) vk element in (c, mk (rev s) (tlPTData s) b).

Definition clearFullPts (c : Cache.t) (s : t) (k : K) : t :=
  mk (rev s) (B.clearFullPts c (tlPTData s) k) (atPTData s).
Definition clearFullPtsV (c : Cache.t) (s : t) (vk : VK) : t :=
  mk (rev s) (tlPTData s) (B.clearFullPts c (atPTData s) vk).

Definition topN (s : t) (n : nat) : N * N :=
  mostCommon n (countMap (B.ptsMap (atPTData s))
                  (countMap (B.ptsMap (tlPTData s)) (∅, 0%N))).

Inductive update : Type :=
| AddPts (k : K) (element : nat)
| AddPtsV (vk : VK) (element : nat)
| UnionPts (dstVar srcVar : K)
| UnionPtsVV (dstVar srcVar : VK)
| UnionPtsVK (dstVar : VK) (srcVar : K)
| UnionPtsKV (dstVar : K) (srcVar : VK)
| UnionPtsData (dstVar : K) (srcData : gset nat)
| UnionPtsDataV (dstVar : VK) (srcData : gset nat).

Definition dstOf (u : update) : K + VK :=
  match u with
  | AddPts k _ | UnionPts k _ | UnionPtsKV k _ | UnionPtsData k _ => inl k
  | AddPtsV vk _ | UnionPtsVV vk _ | UnionPtsVK vk _ | UnionPtsDataV vk _ => inr vk
  end.

Definition runUpdate (c : Cache.t) (s : t) (u : update) : bool * Cache.t * t :=
  match u with
  | AddPts k d => addPts c s k d
  | AddPtsV vk d => addPtsV c s vk d
  | UnionPts d k => unionPts c s d k
  | UnionPtsVV d k => unionPtsVV c s d k
  | UnionPtsVK d k => unionPtsVK c s d k
  | UnionPtsKV d k => unionPtsKV c s d k
  | UnionPtsData d ds => unionPtsData c s d ds
  | UnionPtsDataV d ds => unionPtsDataV c s d ds
  end.

Definition idOf (s : t) (k : K + VK) : nat :=
  match k with
  | inl k => B.idOf (tlPTData s) k
  | inr vk => B.idOf (atPTData s) vk
  end.

Definition inUsePointsToSets (s : t) : nat :=
  let pointsToSets : gset nat :=
    map_fold (λ _ id a, {[id]} ∪ a) ∅ (B.ptsMap (tlPTData s)) in
  size (map_fold (λ _ id a, {[id]} ∪ a) pointsToSets (B.ptsMap (atPTData s))).

Inductive op : Type :=
| Update (u : update)
| ClearPts (k : K) (element : nat)
| ClearPtsV (vk : VK) (element : nat)
| ClearFullPts (k : K)
| ClearFullPtsV (vk : VK)
| Clear
| GetPts (k : K)
| GetPtsV (vk : VK)
| GetRevPts (data : nat)
| GetVersionedKeyRevPts (data : nat).

Definition step (cs : Cache.t * t) (o : op) : Cache.t * t :=
  let '(c, s) := cs in
  match o with
  | Update u => let '(_, c, s) := runUpdate c s u in (c, s)
  | ClearPts k d => clearPts c s k d
  | ClearPtsV vk d => clearPtsV c s vk d
  | ClearFullPts k => (c, clearFullPts c s k)
  | ClearFullPtsV vk => (c, clearFullPtsV c s vk)
  | Clear => (c, clear s)
  | GetPts k => (c, (getPts c s k).2)
  | GetPtsV vk => (c, (getPtsV c s vk).2)
  | GetRevPts d => (c, from_option snd s (getRevPts s d))
  | GetVersionedKeyRevPts d => (c, from_option snd s (getVersionedKeyRevPts s d))
  end.

End store.
Global Arguments t K {_ _} VK {_ _}.
Global Arguments update K VK : clear implicits.
Global Arguments op K VK : clear implicits.
End PersistentVersionedPTData.

(** The return contract of an operation [run] that joins something into the
    slot [dst u]: the flag it returns tells whether the ID in that slot, and
    whether the set behind it, differs from before the call. *)
Definition change_flag_exact {St U Slot : Type}
    (run : Cache.t → St → U → bool * Cache.t * St) (dst : U → Slot)
    (idAt : St → Slot → nat) (c : Cache.t) (s : St) (u : U) : Prop :=
  let '(b, c', s') := run c s u in
  (b = true ↔ idAt s' (dst u) ≠ idAt s (dst u)) ∧
  (b = true ↔ Cache.getActualPts c' (idAt s' (dst u))
              ≠ Cache.getActualPts c (idAt s (dst u))).

(** The same contract for [updateAllDFOutFromIn], whose destinations are the
    OUT slots of one location: the flag tells whether one of them changed. *)
Definition out_flag_exact `{Countable K} {St : Type}
    (idAt : St → PersistentDFPTData.IdRef K → nat) (c : Cache.t) (s : St)
    (loc : nat) (res : bool * Cache.t * St) : Prop :=
  let '(b, c', s') := res in
  (b = true ↔ ∃ k, idAt s' (PersistentDFPTData.OutRef loc k)
                   ≠ idAt s (PersistentDFPTData.OutRef loc k)) ∧
  (b = true ↔ ∃ k, Cache.getActualPts c' (idAt s' (PersistentDFPTData.OutRef loc k))
                   ≠ Cache.getActualPts c (idAt s (PersistentDFPTData.OutRef loc k))).

Module B := PersistentPTData.
Module Diff := PersistentDiffPTData.
Module DF := PersistentDFPTData.
Module Inc := PersistentIncDFPTData.
Module Ver := PersistentVersionedPTData.

(** * Invariants and vocabulary of the properties *)

Section vocabulary.
Context `{Countable K}.

#[global] Instance IdRef_eq_dec : EqDecision (DF.IdRef K).
Proof. solve_decision. Defined.

(** Every ID the basic store holds was issued by the cache. *)
Definition basic_valid (c : Cache.t) (s : B.t K) : Prop :=
  ∀ k, Cache.valid c (B.idOf s k).

(** The set an update joins into its destination. *)
Definition basic_srcOf (c : Cache.t) (s : B.t K) (u : B.update K) : gset nat :=
  match u with
  | B.AddPts _ element => {[element]}
  | B.UnionPts _ srcKey => B.ptsOf c s srcKey
  | B.UnionPtsData _ srcData => srcData
  end.

(** Reverse consistency, and the invariant it is part of. *)
Definition rev_consistent (c : Cache.t) (s : B.t K) : Prop :=
  ∀ k d, d ∈ B.ptsOf c s k ↔ k ∈ B.revOf s d.

Definition basic_inv (cs : Cache.t * B.t K) : Prop :=
  Cache.wf cs.1 ∧ basic_valid cs.1 cs.2 ∧ B.rev cs.2 = true ∧
  rev_consistent cs.1 cs.2.

(** The propagated IDs of the diff store were issued by the cache. *)
Definition propa_valid (c : Cache.t) (s : Diff.t K) : Prop :=
  ∀ k, Cache.valid c (rd 0 (Diff.propaPtsMap s) k).

(** The raw entry behind [m[loc][var]], if there is one. *)
Definition lookup2 (m : gmap nat (gmap K nat)) (l : nat) (k : K) : option nat :=
  m !! l ≫= (.!! k).

(** Every ID the data-flow store holds, in any of its maps, was issued by the
    cache. *)
Definition df_valid (c : Cache.t) (s : DF.t K) : Prop :=
  ∀ r, Cache.valid c (DF.deref s r).

(** The set a data-flow update joins into its destination. *)
Definition df_srcOf (c : Cache.t) (s : DF.t K) (u : DF.update K) : gset nat :=
  match u with
  | DF.Base u => basic_srcOf c (DF.persPTData s) u
  | DF.UpdateDFInFromIn sl sk _ _ | DF.UpdateAllDFInFromIn sl sk _ _
  | DF.UpdateDFOutFromIn sl sk _ _ | DF.UpdateTLVPts sl sk _ => DF.inOf c s sl sk
  | DF.UpdateDFInFromOut sl sk _ _ | DF.UpdateAllDFInFromOut sl sk _ _ =>
      DF.outOf c s sl sk
  | DF.UpdateATVPts sk _ _ => B.ptsOf c (DF.persPTData s) sk
  end.

(** A variable the loop of [updateAllDFOutFromIn] passes over. *)
Definition skipped (strongUpdates : bool) (singleton var : K) : bool :=
  strongUpdates && bool_decide (var = singleton).

(** The loop of [updateAllDFOutFromIn] over any per-variable transfer. *)
Definition loopBody {St : Type} (stepOut : Cache.t → St → K → bool * Cache.t * St)
    (v : K) (su : bool) (acc : bool * Cache.t * St) (var : K)
  : bool * Cache.t * St :=
  let '(changed, c, s) := acc in
  if su && bool_decide (var = v) then acc
  else let '(r, c, s) := stepOut c s var in (if r then true else changed, c, s).

(** The three stages an overriding transfer of the incremental store adds
    around the base-class union: a guard on the source's flag, the
    consumption of that flag, and the mark on the destination. *)
Definition inc_guard (s : Inc.t K) (u : DF.update K) : bool :=
  match u with
  | DF.UpdateDFInFromIn sl sk _ _ | DF.UpdateDFOutFromIn sl sk _ _
  | DF.UpdateTLVPts sl sk _ => Inc.varHasNewDFInPts s sl sk
  | DF.UpdateDFInFromOut sl sk _ _ => Inc.varHasNewDFOutPts s sl sk
  | _ => true
  end.

Definition inc_consume (s : Inc.t K) (u : DF.update K) : Inc.t K :=
  match u with
  | DF.UpdateDFOutFromIn sl sk _ _ | DF.UpdateTLVPts sl sk _ =>
      Inc.removeVarFromDFInUpdatedSet s sl sk
  | _ => s
  end.

Definition inc_mark (s : Inc.t K) (u : DF.update K) : Inc.t K :=
  match u with
  | DF.UpdateDFInFromIn _ _ dl dk | DF.UpdateAllDFInFromIn _ _ dl dk
  | DF.UpdateDFInFromOut _ _ dl dk | DF.UpdateAllDFInFromOut _ _ dl dk =>
      Inc.setVarDFInSetUpdated s dl dk
  | DF.UpdateDFOutFromIn _ _ dl dk | DF.UpdateATVPts _ dl dk =>
      Inc.setVarDFOutSetUpdated s dl dk
  | _ => s
  end.

Definition inc_valid (c : Cache.t) (s : Inc.t K) : Prop :=
  df_valid c (Inc.base s).

Definition inc_wf_inv (cs : Cache.t * Inc.t K) : Prop :=
  Cache.wf cs.1 ∧ inc_valid cs.1 cs.2.

(** A location has an IN map; the IN maps of a store only gain locations;
    a flagged variable has an IN map at its location. *)
Definition hasIn (d : DF.t K) (l : nat) : Prop :=
  is_Some (DF.dfInPtsMap d !! l).

Definition dfIn_grows (d d' : DF.t K) : Prop := ∀ l, hasIn d l → hasIn d' l.

Definition inc_dirty_inv (cs : Cache.t * Inc.t K) : Prop :=
  ∀ l k, Inc.isInDirty cs.2 l k → hasIn (Inc.base cs.2) l.

(** The states an incremental store can be in. *)
Definition inc_reachable (cs : Cache.t * Inc.t K) : Prop :=
  ∃ c0 reversePT ops, cs = foldl Inc.step (c0, Inc.new reversePT) ops.

End vocabulary.

Definition ver_valid `{Countable K, Countable VK} (c : Cache.t) (s : Ver.t K VK)
  : Prop :=
  basic_valid c (Ver.tlPTData s) ∧ basic_valid c (Ver.atPTData s).

(** The counters of [topN] have not wrapped while all the entries fit in a
    [u64_t]. *)
Definition fits (ids : list nat) : Prop :=
  (N.of_nat (length (nonEmptyIds ids)) < 2 ^ 64)%N.

(** [acc] is the exact count of [ids]. *)
Definition counted (ids : list nat) (acc : gmap nat N * N) : Prop :=
  acc.2 = N.of_nat (length (nonEmptyIds ids)) ∧
  ∀ id, acc.1 !! id = if decide (id ∈ nonEmptyIds ids)
                      then Some (occurrences (nonEmptyIds ids) id) else None.

(** The IDs a list of entries holds, as a set. *)
Definition idSet (ids : list nat) : gset nat := list_to_set ids.

Section more_vocabulary.
Context `{Countable K}.

(** A store without reverse points-to keeps every reverse set empty. *)
Definition rev_off_inv (cs : Cache.t * B.t K) : Prop :=
  B.rev cs.2 = false ∧ ∀ d, B.revOf cs.2 d = ∅.

(** A location has an OUT map; a variable flagged in OUT has one at its
    location. *)
Definition hasOut (d : DF.t K) (l : nat) : Prop :=
  is_Some (DF.dfOutPtsMap d !! l).

Definition dfOut_grows (d d' : DF.t K) : Prop := ∀ l, hasOut d l → hasOut d' l.

Definition inc_out_dirty_inv (cs : Cache.t * Inc.t K) : Prop :=
  ∀ l k, Inc.isOutDirty cs.2 l k → hasOut (Inc.base cs.2) l.

End more_vocabulary.

(** Both sides of a versioned store are reverse consistent over a
    well-formed cache. *)
Definition ver_inv `{Countable K, Countable VK} (cs : Cache.t * Ver.t K VK) : Prop :=
  Ver.rev cs.2 = true ∧
  basic_inv (cs.1, Ver.tlPTData cs.2) ∧ basic_inv (cs.1, Ver.atPTData cs.2).

(** States used to instantiate the properties: a basic store after a few
    unions and removals, and an incremental store after a few transfers. *)
Definition sample_basic : Cache.t * B.t nat :=
  foldl B.step (Cache.new, B.new true)
    [B.Update (B.AddPts 0 1); B.Update (B.AddPts 0 2);
     B.Update (B.AddPts 1 2); B.Update (B.UnionPts 2 0);
     B.ClearPts 0 1; B.Update (B.UnionPtsData 3 {[1; 3]})].

Definition sample_inc : Cache.t * Inc.t nat :=
  foldl Inc.step (Cache.new, Inc.new true)
    [Inc.Update (DF.Base (B.AddPts 0 1));
     Inc.Update (DF.Base (B.AddPts 1 2));
     Inc.Update (DF.UpdateATVPts 0 8 10);
     Inc.Update (DF.UpdateATVPts 1 8 11);
     Inc.Update (DF.UpdateDFInFromOut 8 10 9 10);
     Inc.Update (DF.UpdateDFInFromOut 8 11 9 11)].

Definition sample_ver : Cache.t * Ver.t nat (nat * nat) :=
  foldl Ver.step (Cache.new, Ver.new true)
    [Ver.Update (Ver.AddPts 0 1); Ver.Update (Ver.AddPtsV (5, 1) 2);
     Ver.Update (Ver.UnionPtsVK (5, 1) 0); Ver.Update (Ver.UnionPtsKV 1 (5, 1));
     Ver.ClearPtsV (5, 1) 2].

(** * Properties *)

(** ** Map subscripts *)

Section subscripts.
Context `{Countable K} {V : Type}.
Implicit Types (m : gmap K V) (d v : V) (k : K).

Lemma rd_insert d m k k' v :
  rd d (<[k := v]> m) k' = if decide (k = k') then v else rd d m k'.
Proof.
  unfold rd. rewrite lookup_insert. by destruct (decide (k = k')).
Qed.

Lemma rd_insert_eq d m k v : rd d (<[k := v]> m) k = v.
Proof. rewrite rd_insert. by rewrite decide_True. Qed.

Lemma rd_insert_ne d m k k' v : k ≠ k' → rd d (<[k := v]> m) k' = rd d m k'.
Proof. intros. rewrite rd_insert. by rewrite decide_False. Qed.

Lemma rd_subscript d m k k' : rd d (subscript d m k) k' = rd d m k'.
Proof.
  unfold subscript. destruct (m !! k) eqn:E; [done|].
  rewrite rd_insert. destruct (decide (k = k')) as [<-|]; [|done].
  unfold rd. by rewrite E.
Qed.

Lemma rd_empty d k : rd d (∅ : gmap K V) k = d.
Proof. unfold rd. by rewrite lookup_empty. Qed.

Lemma subscript_is_Some d m k k' :
  is_Some (subscript d m k !! k') ↔ k = k' ∨ is_Some (m !! k').
Proof.
  unfold subscript. destruct (m !! k) eqn:E.
  - split; [by right|]. intros [<-|?]; [by rewrite E|done].
  - rewrite lookup_insert. destruct (decide (k = k')) as [->|Hne].
    + split; [by left|by eauto].
    + split; [by right|]. by intros [?|?].
Qed.

Lemma subscript_id d m k : is_Some (m !! k) → subscript d m k = m.
Proof. intros [v Hv]. unfold subscript. by rewrite Hv. Qed.

End subscripts.

(** ** The cache *)

Section cache_facts.
Implicit Types (c : Cache.t) (s : gset nat) (i : nat).

Lemma valid_is_Some c i : Cache.valid c i ↔ is_Some (c !! i).
Proof. unfold Cache.valid. by rewrite lookup_lt_is_Some. Qed.

Lemma wf_new : Cache.wf Cache.new.
Proof. split; [done|]. apply NoDup_singleton. Qed.

Lemma wf_empty_valid c : Cache.wf c → Cache.valid c Cache.emptyPointsToId.
Proof. intros [H0 _]. apply valid_is_Some. eauto. Qed.

Lemma getActualPts_empty c : Cache.wf c → Cache.getActualPts c Cache.emptyPointsToId = ∅.
Proof. intros [H0 _]. unfold Cache.getActualPts. by rewrite H0. Qed.

Lemma getActualPts_lookup c i s : c !! i = Some s → Cache.getActualPts c i = s.
Proof. unfold Cache.getActualPts. by intros ->. Qed.

Lemma valid_lookup c i : Cache.valid c i → c !! i = Some (Cache.getActualPts c i).
Proof.
  intros [s Hs]%valid_is_Some. by rewrite (getActualPts_lookup _ _ _ Hs).
Qed.

(** A cache only grows: IDs issued earlier keep their set. *)
Lemma getActualPts_prefix c c' i :
  c `prefix_of` c' → Cache.valid c i →
  Cache.getActualPts c' i = Cache.getActualPts c i.
Proof.
  intros Hp Hv. apply valid_lookup in Hv.
  by rewrite (getActualPts_lookup c' i _ (prefix_lookup_Some _ _ _ _ Hv Hp)).
Qed.

Lemma valid_prefix c c' i : c `prefix_of` c' → Cache.valid c i → Cache.valid c' i.
Proof.
  unfold Cache.valid. intros Hp Hv. apply prefix_length in Hp. lia.
Qed.

(** Interning is injective on the IDs a well-formed cache has issued. *)
Lemma getActualPts_inj c i j :
  Cache.wf c → Cache.valid c i → Cache.valid c j →
  Cache.getActualPts c i = Cache.getActualPts c j → i = j.
Proof.
  intros [_ Hnd] Hi%valid_lookup Hj%valid_lookup Heq.
  rewrite Heq in Hi. by eapply NoDup_lookup.
Qed.

Lemma empty_id_unique c i :
  Cache.wf c → Cache.valid c i →
  Cache.getActualPts c i = ∅ ↔ i = Cache.emptyPointsToId.
Proof.
  intros Hwf Hi. split.
  - intros Hs. apply (getActualPts_inj c); auto using wf_empty_valid.
    by rewrite getActualPts_empty.
  - intros ->. by apply getActualPts_empty.
Qed.

Lemma emplacePts_ok c s i c' :
  Cache.emplacePts c s = (i, c') →
  c `prefix_of` c' ∧ c' !! i = Some s ∧ (Cache.wf c → Cache.wf c').
Proof.
  unfold Cache.emplacePts.
  destruct (list_find _ c) as [[j x]|] eqn:E; intros [= <- <-].
  - apply list_find_Some in E as (Hj & -> & _). done.
  - apply list_find_None in E. split; [by apply prefix_app_r|]. split.
    + rewrite lookup_app_r; [|done]. by rewrite Nat.sub_diag.
    + intros [H0 Hnd]. split.
      * by apply lookup_app_l_Some.
      * apply NoDup_app. split; [done|]. split; [|apply NoDup_singleton].
        intros x Hx ->%list_elem_of_singleton.
        rewrite Forall_forall in E. by apply (E s).
Qed.

(** Interning a set the cache already holds returns its ID and leaves the
    cache as it is. *)
Lemma emplacePts_known c i :
  Cache.wf c → Cache.valid c i →
  Cache.emplacePts c (Cache.getActualPts c i) = (i, c).
Proof.
  intros Hwf Hi. destruct (Cache.emplacePts c _) as [j c'] eqn:E.
  pose proof E as (_ & Hj & _)%emplacePts_ok.
  unfold Cache.emplacePts in E.
  destruct (list_find _ c) as [[j' x]|] eqn:F.
  - injection E as <- <-. apply list_find_Some in F as (Hj' & -> & _).
    f_equal. eapply NoDup_lookup; [apply Hwf|done|by apply valid_lookup].
  - apply list_find_None in F. rewrite Forall_forall in F.
    exfalso. apply (F (Cache.getActualPts c i)); [|done].
    eapply list_elem_of_lookup_2. by apply valid_lookup.
Qed.

Lemma emplacePts_valid c s i c' :
  Cache.emplacePts c s = (i, c') → Cache.valid c' i.
Proof. intros (_ & Hi & _)%emplacePts_ok. apply valid_is_Some. eauto. Qed.

Lemma unionPts_ok c a b i c' :
  Cache.unionPts c a b = (i, c') →
  c `prefix_of` c' ∧
  c' !! i = Some (Cache.getActualPts c a ∪ Cache.getActualPts c b) ∧
  (Cache.wf c → Cache.wf c').
Proof. apply emplacePts_ok. Qed.

Lemma complementPts_ok c a b i c' :
  Cache.complementPts c a b = (i, c') →
  c `prefix_of` c' ∧
  c' !! i = Some (Cache.getActualPts c a ∖ Cache.getActualPts c b) ∧
  (Cache.wf c → Cache.wf c').
Proof. apply emplacePts_ok. Qed.

Lemma intersectPts_ok c a b i c' :
  Cache.intersectPts c a b = (i, c') →
  c `prefix_of` c' ∧
  c' !! i = Some (Cache.getActualPts c a ∩ Cache.getActualPts c b) ∧
  (Cache.wf c → Cache.wf c').
Proof. apply emplacePts_ok. Qed.

(** The union of an ID with something it already covers is that ID. *)
Lemma unionPts_absorb c a b :
  Cache.wf c → Cache.valid c a →
  Cache.getActualPts c b ⊆ Cache.getActualPts c a →
  Cache.unionPts c a b = (a, c).
Proof.
  intros Hwf Ha Hsub. unfold Cache.unionPts.
  rewrite (union_comm_L (Cache.getActualPts c a)), (subseteq_union_1_L _ _ Hsub).
  by apply emplacePts_known.
Qed.

Lemma flag_exact c c' (b : bool) i j :
  Cache.wf c' → c `prefix_of` c' → Cache.valid c i → Cache.valid c' j →
  b = bool_decide (j ≠ i) →
  (b = true ↔ j ≠ i) ∧
  (b = true ↔ Cache.getActualPts c' j ≠ Cache.getActualPts c i).
Proof.
  intros Hwf Hp Hi Hj ->. rewrite bool_decide_eq_true. split; [done|].
  rewrite <-(getActualPts_prefix c c' i Hp Hi). split.
  - intros Hne Heq. apply Hne.
    eapply getActualPts_inj; eauto using valid_prefix.
  - by intros Hne ->.
Qed.

End cache_facts.

(** ** The basic store *)

Section basic_facts.
Context `{Countable K}.
Implicit Types (c : Cache.t) (s : B.t K) (k : K) (d : nat).

Lemma basic_valid_new c rv : Cache.wf c → basic_valid c (B.new (K:=K) rv).
Proof.
  intros Hwf k. unfold B.idOf, B.new; simpl. rewrite rd_empty.
  by apply wf_empty_valid.
Qed.

Lemma rev_fold_insert k (rm : gmap nat (gset K)) (X : gset nat) d :
  rd ∅ (set_fold (λ d rm, <[d := insertKey k (rd ∅ rm d)]> rm) rm X) d
  = if decide (d ∈ X) then {[k]} ∪ rd ∅ rm d else rd ∅ rm d.
Proof.
  revert X d.
  apply (set_fold_ind_L (λ r (X : gset nat), ∀ d, rd ∅ r d =
           if decide (d ∈ X) then {[k]} ∪ rd ∅ rm d else rd ∅ rm d)).
  - intros d. by rewrite decide_False by set_solver.
  - intros x Y r Hx IH d. rewrite rd_insert.
    destruct (decide (x = d)) as [<-|Hne].
    + rewrite decide_True by set_solver. rewrite IH.
      by rewrite decide_False.
    + rewrite IH. destruct (decide (d ∈ Y)).
      * by rewrite decide_True by set_solver.
      * by rewrite decide_False by set_solver.
Qed.

Lemma rev_fold_remove k (rm : gmap nat (gset K)) (X : gset nat) d :
  rd ∅ (set_fold (λ d rm, <[d := removeKey k (rd ∅ rm d)]> rm) rm X) d
  = if decide (d ∈ X) then rd ∅ rm d ∖ {[k]} else rd ∅ rm d.
Proof.
  revert X d.
  apply (set_fold_ind_L (λ r (X : gset nat), ∀ d, rd ∅ r d =
           if decide (d ∈ X) then rd ∅ rm d ∖ {[k]} else rd ∅ rm d)).
  - intros d. by rewrite decide_False by set_solver.
  - intros x Y r Hx IH d. simpl. rewrite rd_insert.
    destruct (decide (x = d)) as [<-|Hne].
    + rewrite decide_True by set_solver. rewrite IH.
      by rewrite decide_False.
    + rewrite IH. destruct (decide (d ∈ Y)).
      * by rewrite decide_True by set_solver.
      * by rewrite decide_False by set_solver.
Qed.

(** What [unionPtsFromId] does to the destination, to the other keys and to
    the reverse map. *)
Lemma unionPtsFromId_spec c s k srcId b c' s' :
  B.unionPtsFromId c s k srcId = (b, c', s') →
  c `prefix_of` c' ∧ (Cache.wf c → Cache.wf c') ∧
  c' !! B.idOf s' k
    = Some (Cache.getActualPts c (B.idOf s k) ∪ Cache.getActualPts c srcId) ∧
  (∀ k', k' ≠ k → B.idOf s' k' = B.idOf s k') ∧
  b = bool_decide (B.idOf s' k ≠ B.idOf s k) ∧
  B.rev s' = B.rev s ∧
  (∀ d, B.revOf s' d =
        if b && B.rev s && bool_decide (d ∈ Cache.getActualPts c' srcId)
        then {[k]} ∪ B.revOf s d else B.revOf s d).
Proof.
  unfold B.unionPtsFromId, B.idOf, B.revOf.
  destruct (Cache.unionPts _ _ _) as [nid c1] eqn:E.
  apply unionPts_ok in E as (Hp & Hn & Hwf).
  destruct (bool_decide (nid ≠ _)) eqn:Hb.
  - destruct (B.rev s) eqn:Hr; intros [= <- <- <-]; simpl;
      rewrite rd_insert_eq, Hb; (split_and!; try done).
    + intros k' Hk. by rewrite rd_insert_ne, rd_subscript.
    + intros d. rewrite rev_fold_insert. simpl.
      destruct (decide (d ∈ _)); [by rewrite bool_decide_true|
                                  by rewrite bool_decide_false].
    + intros k' Hk. by rewrite rd_insert_ne, rd_subscript.
  - intros [= <- <- <-]; simpl. rewrite rd_subscript.
    apply bool_decide_eq_false in Hb. apply dec_stable in Hb. subst nid.
    split_and!; try done.
    + intros k' Hk. by rewrite rd_subscript.
    + symmetry. apply bool_decide_eq_false. by intros [].
Qed.

(** The flag of an update is the change of the destination's ID, and no
    other key moves; this needs nothing of the cache. *)
Lemma basic_runUpdate_flag c s u b c' s' :
  B.runUpdate c s u = (b, c', s') →
  b = bool_decide (B.idOf s' (B.dstOf u) ≠ B.idOf s (B.dstOf u)) ∧
  (∀ k', k' ≠ B.dstOf u → B.idOf s' k' = B.idOf s k').
Proof.
  destruct u as [k e|k k'|k ds]; simpl.
  - unfold B.addPts. destruct (Cache.emplacePts c _) as [srcId c1].
    by intros (_ & _ & _ & ? & ? & _)%unionPtsFromId_spec.
  - unfold B.unionPts.
    intros (_ & _ & _ & Hoth & Hb & _)%unionPtsFromId_spec.
    unfold B.idOf in *; simpl in *.
    setoid_rewrite rd_subscript in Hoth. by rewrite rd_subscript in Hb.
  - unfold B.unionPtsData. destruct (Cache.emplacePts c _) as [srcId c1].
    by intros (_ & _ & _ & ? & ? & _)%unionPtsFromId_spec.
Qed.

(** On issued IDs, a different ID is a different set, also across a growth
    of the cache. *)
Lemma id_change_iff_set_change (c c' : Cache.t) (i j : nat) :
  Cache.wf c' → c `prefix_of` c' → Cache.valid c i → Cache.valid c' j →
  j ≠ i ↔ Cache.getActualPts c' j ≠ Cache.getActualPts c i.
Proof.
  intros Hwf Hp Hi Hj. rewrite <-(getActualPts_prefix c c' i Hp Hi). split.
  - intros Hne Heq. apply Hne.
    eapply getActualPts_inj; eauto using valid_prefix.
  - by intros Hne ->.
Qed.

Lemma ptsOf_prefix c c' s k :
  c `prefix_of` c' → basic_valid c s → B.ptsOf c' s k = B.ptsOf c s k.
Proof. intros Hp Hv. by apply getActualPts_prefix. Qed.

Lemma unionPtsFromId_valid c s k srcId b c' s' :
  Cache.wf c → basic_valid c s → Cache.valid c srcId →
  B.unionPtsFromId c s k srcId = (b, c', s') →
  c `prefix_of` c' ∧ Cache.wf c' ∧ basic_valid c' s' ∧
  B.ptsOf c' s' k = B.ptsOf c s k ∪ Cache.getActualPts c srcId ∧
  (∀ k', k' ≠ k → B.idOf s' k' = B.idOf s k') ∧
  b = bool_decide (B.idOf s' k ≠ B.idOf s k) ∧
  B.rev s' = B.rev s ∧
  (∀ d, B.revOf s' d =
        if b && B.rev s && bool_decide (d ∈ Cache.getActualPts c srcId)
        then {[k]} ∪ B.revOf s d else B.revOf s d).
Proof.
  intros Hwf Hv Hsrc (Hp & Hwf' & Hid & Hoth & Hb & Hr & Hrev)%unionPtsFromId_spec.
  split_and!; try done.
  - by apply Hwf'.
  - intros k'. destruct (decide (k' = k)) as [->|Hne].
    + apply valid_is_Some. eauto.
    + rewrite Hoth by done. by eapply valid_prefix.
  - by apply getActualPts_lookup.
  - intros d. rewrite Hrev. by rewrite (getActualPts_prefix c c' srcId).
Qed.

Lemma basic_runUpdate_spec c s u b c' s' :
  Cache.wf c → basic_valid c s →
  B.runUpdate c s u = (b, c', s') →
  c `prefix_of` c' ∧ Cache.wf c' ∧ basic_valid c' s' ∧
  B.ptsOf c' s' (B.dstOf u) = B.ptsOf c s (B.dstOf u) ∪ basic_srcOf c s u ∧
  (∀ k', k' ≠ B.dstOf u → B.idOf s' k' = B.idOf s k') ∧
  b = bool_decide (B.idOf s' (B.dstOf u) ≠ B.idOf s (B.dstOf u)) ∧
  B.rev s' = B.rev s ∧
  (∀ d, B.revOf s' d =
        if b && B.rev s && bool_decide (d ∈ basic_srcOf c s u)
        then {[B.dstOf u]} ∪ B.revOf s d else B.revOf s d).
Proof.
  intros Hwf Hv. destruct u as [k e|k k'|k ds]; simpl.
  - unfold B.addPts. destruct (Cache.emplacePts c _) as [srcId c1] eqn:E.
    pose proof (emplacePts_valid _ _ _ _ E) as Hsrc.
    apply emplacePts_ok in E as (Hp1 & Hs & Hwf1).
    intros Hu. apply unionPtsFromId_valid in Hu
      as (Hp & Hwf' & Hv' & Hpts & Hoth & Hb & Hr & Hrev);
      [|by auto|by intros ?; eapply valid_prefix|done].
    rewrite (getActualPts_lookup _ _ _ Hs) in Hpts, Hrev.
    rewrite (ptsOf_prefix c c1) in Hpts by done.
    split_and!; try done. by etrans.
  - unfold B.unionPts. intros Hu. apply unionPtsFromId_valid in Hu
      as (Hp & Hwf' & Hv' & Hpts & Hoth & Hb & Hr & Hrev); try done.
    + unfold B.ptsOf, B.idOf, B.revOf in *; simpl in *.
      setoid_rewrite rd_subscript in Hoth. rewrite rd_subscript in Hpts, Hb.
      done.
    + intros k0. unfold B.idOf; simpl. rewrite rd_subscript. apply Hv.
    + apply Hv.
  - unfold B.unionPtsData. destruct (Cache.emplacePts c _) as [srcId c1] eqn:E.
    pose proof (emplacePts_valid _ _ _ _ E) as Hsrc.
    apply emplacePts_ok in E as (Hp1 & Hs & Hwf1).
    intros Hu. apply unionPtsFromId_valid in Hu
      as (Hp & Hwf' & Hv' & Hpts & Hoth & Hb & Hr & Hrev);
      [|by auto|by intros ?; eapply valid_prefix|done].
    rewrite (getActualPts_lookup _ _ _ Hs) in Hpts, Hrev.
    rewrite (ptsOf_prefix c c1) in Hpts by done.
    split_and!; try done. by etrans.
Qed.

Lemma clearPts_spec c s k e c' s' :
  Cache.wf c → basic_valid c s →
  B.clearPts c s k e = (c', s') →
  c `prefix_of` c' ∧ Cache.wf c' ∧ basic_valid c' s' ∧
  B.ptsOf c' s' k = B.ptsOf c s k ∖ {[e]} ∧
  (∀ k', k' ≠ k → B.idOf s' k' = B.idOf s k') ∧
  B.rev s' = B.rev s ∧
  (∀ d, B.revOf s' d =
        if B.rev s && bool_decide (B.idOf s' k ≠ B.idOf s k) && bool_decide (d = e)
        then B.revOf s d ∖ {[k]} else B.revOf s d).
Proof.
  intros Hwf Hv. unfold B.clearPts.
  destruct (Cache.emplacePts c _) as [rid c1] eqn:E.
  pose proof (emplacePts_valid _ _ _ _ E) as Hrid.
  apply emplacePts_ok in E as (Hp1 & Hs & Hwf1).
  destruct (Cache.complementPts c1 _ _) as [cid c2] eqn:E2.
  apply complementPts_ok in E2 as (Hp2 & Hc & Hwf2).
  rewrite (getActualPts_lookup _ _ _ Hs) in Hc.
  rewrite (getActualPts_prefix c c1) in Hc by (done || apply Hv).
  assert (Hp : c `prefix_of` c2) by by etrans.
  assert (Hoth : ∀ pm k', k' ≠ k →
            rd 0 (<[k := cid]> (subscript 0 pm k)) k' = rd 0 pm k').
  { intros pm k' Hk. by rewrite rd_insert_ne, rd_subscript. }
  destruct (bool_decide (_ ≠ cid)) eqn:Hb; intros [= <- <-];
    unfold B.ptsOf, B.idOf, B.revOf, B.clearSingleRevPts in *; simpl.
  - rewrite rd_insert_eq. split_and!; try done; try (by auto).
    + intros k'. unfold B.idOf; simpl. destruct (decide (k' = k)) as [->|Hne].
      * rewrite rd_insert_eq. apply valid_is_Some. eauto.
      * rewrite Hoth by done. eapply valid_prefix; [done|apply Hv].
    + by apply getActualPts_lookup.
    + intros d. apply bool_decide_eq_true in Hb.
      rewrite (bool_decide_true (cid ≠ _)) by done.
      destruct (B.rev s); simpl.
      * rewrite rd_insert. destruct (decide (e = d)) as [->|Hne].
        -- by rewrite bool_decide_true.
        -- by rewrite bool_decide_false.
      * by rewrite rd_subscript.
  - apply bool_decide_eq_false in Hb. apply dec_stable in Hb.
    rewrite rd_subscript. split_and!; try done; try (by auto).
    + intros k'. unfold B.idOf; simpl. rewrite rd_subscript.
      eapply valid_prefix; [done|apply Hv].
    + rewrite Hb at 1. by apply getActualPts_lookup.
    + intros k' _. by rewrite rd_subscript.
    + intros d. rewrite (bool_decide_false (_ ≠ _)) by (by intros []).
      by rewrite andb_false_r.
Qed.

Lemma clearFullPts_spec c s k :
  let s' := B.clearFullPts c s k in
  B.idOf s' k = Cache.emptyPointsToId ∧
  (∀ k', k' ≠ k → B.idOf s' k' = B.idOf s k') ∧
  B.rev s' = B.rev s ∧
  (∀ d, B.revOf s' d =
        if B.rev s && bool_decide (d ∈ B.ptsOf c s k)
        then B.revOf s d ∖ {[k]} else B.revOf s d).
Proof.
  unfold B.clearFullPts, B.getPts, B.idOf, B.revOf, B.ptsOf, B.clearRevPts; simpl.
  rewrite rd_insert_eq. split_and!; try done.
  - intros k' Hk. by rewrite rd_insert_ne, rd_subscript.
  - intros d. destruct (B.rev s); [|done]. simpl.
    rewrite rev_fold_remove. fold (B.idOf s k).
    destruct (decide (d ∈ _)); [by rewrite bool_decide_true|
                                by rewrite bool_decide_false].
Qed.

Lemma getPts_spec c s k :
  (B.getPts c s k).1 = B.ptsOf c s k ∧
  (∀ k', B.idOf (B.getPts c s k).2 k' = B.idOf s k') ∧
  B.rev (B.getPts c s k).2 = B.rev s ∧
  (∀ d, B.revOf (B.getPts c s k).2 d = B.revOf s d).
Proof.
  unfold B.getPts, B.idOf; simpl. split_and!; try done.
  intros k'. by rewrite rd_subscript.
Qed.

Lemma getRevPts_spec s d :
  B.getRevPts s d =
    if B.rev s
    then Some (B.revOf s d,
               B.mk (B.rev s) (B.ptsMap s) (subscript ∅ (B.revPtsMap s) d))
    else None.
Proof. done. Qed.

(** *** Reverse consistency as an invariant of the store *)

Lemma basic_inv_new c : Cache.wf c → basic_inv (c, B.new (K:=K) true).
Proof.
  intros Hwf. split_and!; simpl; try done.
  - by apply basic_valid_new.
  - intros k d. unfold B.ptsOf, B.revOf, B.idOf, B.new; simpl.
    rewrite !rd_empty, getActualPts_empty by done. set_solver.
Qed.

Lemma basic_inv_step (cs : Cache.t * B.t K) (o : B.op K) :
  basic_inv cs → basic_inv (B.step cs o).
Proof.
  destruct cs as [c s]. intros (Hwf & Hv & Hr & Hc). simpl in *.
  destruct o as [u|k e|k| |k|d]; simpl.
  - destruct (B.runUpdate c s u) as [[b c'] s'] eqn:E.
    apply basic_runUpdate_spec in E
      as (Hp & Hwf' & Hv' & Hpts & Hoth & Hb & Hr' & Hrev); try done.
    split_and!; simpl; try done; [congruence|].
    intros k d. rewrite Hrev, Hr, andb_true_r.
    destruct (decide (k = B.dstOf u)) as [->|Hne].
    + rewrite Hpts, elem_of_union, (Hc (B.dstOf u) d).
      destruct b eqn:Eb; simpl.
      * destruct (bool_decide (d ∈ _)) eqn:Ed.
        -- apply bool_decide_eq_true in Ed. set_solver.
        -- apply bool_decide_eq_false in Ed. set_solver.
      * symmetry in Hb. apply bool_decide_eq_false in Hb.
        apply dec_stable in Hb.
        assert (B.ptsOf c' s' (B.dstOf u) = B.ptsOf c s (B.dstOf u)) as Heq.
        { unfold B.ptsOf. rewrite Hb. apply getActualPts_prefix; auto. }
        rewrite Heq in Hpts. rewrite <-(Hc (B.dstOf u) d). set_solver.
    + unfold B.ptsOf. rewrite (Hoth k) by done.
      rewrite (getActualPts_prefix c c') by auto. fold (B.ptsOf c s k).
      rewrite (Hc k d). case_match; set_solver.
  - destruct (B.clearPts c s k e) as [c' s'] eqn:E.
    apply clearPts_spec in E
      as (Hp & Hwf' & Hv' & Hpts & Hoth & Hr' & Hrev); try done.
    split_and!; simpl; try done; [congruence|].
    intros k0 d. rewrite Hrev, Hr. simpl.
    destruct (decide (k0 = k)) as [->|Hne].
    + rewrite Hpts, elem_of_difference, (Hc k d).
      destruct (bool_decide (B.idOf s' k ≠ _)) eqn:Eb; simpl.
      * destruct (bool_decide (d = e)) eqn:Ed.
        -- apply bool_decide_eq_true in Ed. set_solver.
        -- apply bool_decide_eq_false in Ed. set_solver.
      * apply bool_decide_eq_false in Eb. apply dec_stable in Eb.
        assert (B.ptsOf c' s' k = B.ptsOf c s k) as Heq.
        { unfold B.ptsOf. rewrite Eb. apply getActualPts_prefix; auto. }
        rewrite Heq in Hpts. rewrite <-(Hc k d). set_solver.
    + unfold B.ptsOf. rewrite (Hoth k0) by done.
      rewrite (getActualPts_prefix c c') by auto. fold (B.ptsOf c s k0).
      rewrite (Hc k0 d). case_match; set_solver.
  - pose proof (clearFullPts_spec c s k) as (Hid & Hoth & Hr' & Hrev).
    cbv zeta in *. generalize dependent (B.clearFullPts c s k). intros s' **.
    split_and!; cbn [fst snd]; try done.
    + intros k'. destruct (decide (k' = k)) as [->|Hne].
      * rewrite Hid. by apply wf_empty_valid.
      * rewrite Hoth by done. apply Hv.
    + congruence.
    + intros k0 d. rewrite Hrev, Hr. simpl.
      destruct (decide (k0 = k)) as [->|Hne].
      * unfold B.ptsOf at 1. rewrite Hid, getActualPts_empty by done.
        destruct (bool_decide (d ∈ _)) eqn:Ed.
        -- set_solver.
        -- apply bool_decide_eq_false in Ed. rewrite <-(Hc k d). set_solver.
      * unfold B.ptsOf at 1. rewrite (Hoth k0) by done.
        fold (B.ptsOf c s k0). rewrite (Hc k0 d).
        case_match; set_solver.
  - split_and!; simpl; try done.
    + by apply basic_valid_new.
    + intros k d. unfold B.ptsOf, B.revOf, B.idOf, B.clear; simpl.
      rewrite !rd_empty, getActualPts_empty by done. set_solver.
  - pose proof (getPts_spec c s k) as (_ & Hid & Hr' & Hrev).
    simpl in Hid, Hr', Hrev. split_and!; cbn [fst snd]; try done.
    + intros k'. rewrite Hid. apply Hv.
    + intros k0 d. unfold B.ptsOf. rewrite Hid, Hrev. apply Hc.
  - rewrite getRevPts_spec, Hr. simpl.
    split_and!; simpl; try done.
    intros k0 d0. unfold B.revOf; simpl. rewrite rd_subscript. apply Hc.
Qed.

Lemma basic_inv_run cs (ops : list (B.op K)) :
  basic_inv cs → basic_inv (foldl B.step cs ops).
Proof.
  revert cs. induction ops as [|o ops IH]; intros cs Hinv; [done|].
  simpl. by apply IH, basic_inv_step.
Qed.

End basic_facts.

(** ** The data-flow store *)

Section df_facts.
Context `{Countable K}.
Implicit Types (c : Cache.t) (s : DF.t K) (k : K) (l : nat) (r : DF.IdRef K).

Lemma rd2_wr2 (m : gmap nat (gmap K nat)) l k v l' k' :
  DF.rd2 (DF.wr2 m l k v) l' k'
  = if decide (l = l' ∧ k = k') then v else DF.rd2 m l' k'.
Proof.
  unfold DF.rd2, DF.wr2. rewrite rd_insert.
  destruct (decide (l = l')) as [<-|Hl].
  - rewrite rd_insert. destruct (decide (k = k')) as [<-|Hk].
    + by rewrite decide_True.
    + by rewrite decide_False by (by intros [_ ?]).
  - by rewrite decide_False by (by intros [? _]).
Qed.

Lemma rd2_subscript2 (m : gmap nat (gmap K nat)) l k l' k' :
  DF.rd2 (DF.subscript2 m l k) l' k' = DF.rd2 m l' k'.
Proof.
  unfold DF.rd2, DF.subscript2. rewrite rd_insert.
  destruct (decide (l = l')) as [<-|Hl]; [|done]. by rewrite rd_subscript.
Qed.

Lemma lookup2_rd2 (m : gmap nat (gmap K nat)) l k :
  DF.rd2 m l k = default 0 (lookup2 m l k).
Proof.
  unfold DF.rd2, lookup2, rd. destruct (m !! l) as [i|]; simpl; [done|].
  by rewrite lookup_empty.
Qed.

Lemma lookup2_subscript2 (m : gmap nat (gmap K nat)) l k l' k' :
  (l, k) ≠ (l', k') →
  lookup2 (DF.subscript2 m l k) l' k' = lookup2 m l' k'.
Proof.
  intros Hne. unfold lookup2, DF.subscript2. rewrite lookup_insert.
  destruct (decide (l = l')) as [<-|Hl]; [|done]. simpl.
  assert (k ≠ k') by congruence.
  unfold subscript, rd. destruct (m !! l) as [i|] eqn:E; simpl.
  - destruct (i !! k); [done|]. by rewrite lookup_insert_ne.
  - rewrite lookup_empty, lookup_insert_ne by done. by rewrite lookup_empty.
Qed.

Lemma lookup2_wr2 (m : gmap nat (gmap K nat)) l k v l' k' :
  (l, k) ≠ (l', k') →
  lookup2 (DF.wr2 m l k v) l' k' = lookup2 m l' k'.
Proof.
  intros Hne. unfold lookup2, DF.wr2. rewrite lookup_insert.
  destruct (decide (l = l')) as [<-|Hl]; [|done]. simpl.
  assert (k ≠ k') by congruence.
  rewrite lookup_insert_ne by done.
  unfold rd. destruct (m !! l) as [i|] eqn:E; simpl; [done|].
  by rewrite lookup_empty.
Qed.

Lemma deref_assign s r v r' :
  DF.deref (DF.assign s r v) r' = if decide (r = r') then v else DF.deref s r'.
Proof.
  destruct r as [k|l k|l k], r' as [k'|l' k'|l' k']; simpl;
    unfold B.idOf; simpl; rewrite ?rd_insert, ?rd2_wr2; try done.
  - destruct (decide (k = k')) as [<-|]; [by rewrite decide_True|].
    by rewrite decide_False by congruence.
  - destruct (decide (l = l' ∧ k = k')) as [[<- <-]|Hn]; [by rewrite decide_True|].
    rewrite decide_False; [done|]. intros [= <- <-]. by apply Hn.
  - destruct (decide (l = l' ∧ k = k')) as [[<- <-]|Hn]; [by rewrite decide_True|].
    rewrite decide_False; [done|]. intros [= <- <-]. by apply Hn.
Qed.

Lemma deref_getDFInPtIdRef s l k r :
  DF.deref (DF.getDFInPtIdRef s l k).2 r = DF.deref s r.
Proof. destruct r; simpl; [done| |done]. apply rd2_subscript2. Qed.

Lemma deref_getDFOutPtIdRef s l k r :
  DF.deref (DF.getDFOutPtIdRef s l k).2 r = DF.deref s r.
Proof. destruct r; simpl; [done|done|]. apply rd2_subscript2. Qed.

Lemma deref_getTLPtIdRef s k r :
  DF.deref (DF.getTLPtIdRef s k).2 r = DF.deref s r.
Proof.
  destruct r; simpl; [|done|done]. unfold B.idOf; simpl. apply rd_subscript.
Qed.

Lemma unionPtsThroughIds_spec c s dst src b c' s' :
  DF.unionPtsThroughIds c s dst src = (b, c', s') →
  c `prefix_of` c' ∧ (Cache.wf c → Cache.wf c') ∧
  c' !! DF.deref s' dst
    = Some (Cache.getActualPts c (DF.deref s dst)
            ∪ Cache.getActualPts c (DF.deref s src)) ∧
  (∀ r, r ≠ dst → DF.deref s' r = DF.deref s r) ∧
  b = bool_decide (DF.deref s' dst ≠ DF.deref s dst) ∧
  s' = DF.assign s dst (DF.deref s' dst).
Proof.
  unfold DF.unionPtsThroughIds.
  destruct (Cache.unionPts _ _ _) as [nid c1] eqn:E.
  apply unionPts_ok in E as (Hp & Hn & Hwf).
  intros [= <- <- <-]. rewrite deref_assign, decide_True by done.
  split_and!; try done.
  - intros r Hr. by rewrite deref_assign, decide_False.
  - apply bool_decide_ext. split; intros Hne Heq; by apply Hne.
Qed.

Lemma df_valid_new c rv : Cache.wf c → df_valid c (DF.new (K:=K) rv).
Proof.
  intros Hwf r. replace (DF.deref (DF.new rv) r) with Cache.emptyPointsToId.
  { by apply wf_empty_valid. }
  destruct r; simpl; unfold B.idOf, DF.rd2; simpl; by rewrite !rd_empty.
Qed.

Lemma df_valid_basic c s : df_valid c s → basic_valid c (DF.persPTData s).
Proof. intros Hv k. apply (Hv (DF.TLRef k)). Qed.

Lemma unionPtsThroughIds_valid c s dst src b c' s' :
  Cache.wf c → df_valid c s →
  DF.unionPtsThroughIds c s dst src = (b, c', s') →
  c `prefix_of` c' ∧ Cache.wf c' ∧ df_valid c' s' ∧
  Cache.getActualPts c' (DF.deref s' dst)
    = Cache.getActualPts c (DF.deref s dst)
      ∪ Cache.getActualPts c (DF.deref s src) ∧
  (∀ r, r ≠ dst → DF.deref s' r = DF.deref s r) ∧
  b = bool_decide (DF.deref s' dst ≠ DF.deref s dst) ∧
  s' = DF.assign s dst (DF.deref s' dst).
Proof.
  intros Hwf Hv (Hp & Hwf' & Hid & Hoth & Hb & Hs)%unionPtsThroughIds_spec.
  split_and!; try done.
  - by apply Hwf'.
  - intros r. destruct (decide (r = dst)) as [->|Hne].
    + apply valid_is_Some. eauto.
    + rewrite Hoth by done. by eapply valid_prefix.
  - by apply getActualPts_lookup.
Qed.

(** A transfer: two references are taken, then [unionPtsThroughIds]. *)
Lemma df_transfer_spec c s (s1 : DF.t K) dst src b c' s' :
  Cache.wf c → df_valid c s →
  (∀ r, DF.deref s1 r = DF.deref s r) →
  DF.unionPtsThroughIds c s1 dst src = (b, c', s') →
  c `prefix_of` c' ∧ Cache.wf c' ∧ df_valid c' s' ∧
  Cache.getActualPts c' (DF.deref s' dst)
    = Cache.getActualPts c (DF.deref s dst)
      ∪ Cache.getActualPts c (DF.deref s src) ∧
  (∀ r, r ≠ dst → DF.deref s' r = DF.deref s r) ∧
  b = bool_decide (DF.deref s' dst ≠ DF.deref s dst).
Proof.
  intros Hwf Hv Hs1 Hu.
  apply unionPtsThroughIds_valid in Hu
    as (Hp & Hwf' & Hv' & Hpts & Hoth & Hb & _); [|done|].
  - rewrite !Hs1 in Hpts. rewrite !Hs1 in Hb. split_and!; try done.
    intros r Hr. by rewrite Hoth, Hs1.
  - intros r. rewrite Hs1. apply Hv.
Qed.

Lemma df_runUpdate_spec c s u b c' s' :
  Cache.wf c → df_valid c s →
  DF.runUpdate c s u = (b, c', s') →
  c `prefix_of` c' ∧ Cache.wf c' ∧ df_valid c' s' ∧
  Cache.getActualPts c' (DF.deref s' (DF.dstOf u))
    = Cache.getActualPts c (DF.deref s (DF.dstOf u)) ∪ df_srcOf c s u ∧
  (∀ r, r ≠ DF.dstOf u → DF.deref s' r = DF.deref s r) ∧
  b = bool_decide (DF.deref s' (DF.dstOf u) ≠ DF.deref s (DF.dstOf u)).
Proof.
  intros Hwf Hv.
  destruct u as [u|sl sk dl dk|sl sk dl dk|sl sk dl dk|sl sk dl dk
                |sl sk dl dk|sl sk dk|sk dl dk]; simpl;
    [|(unfold DF.updateAllDFInFromIn, DF.updateAllDFInFromOut,
         DF.updateDFInFromIn, DF.updateDFInFromOut, DF.updateDFOutFromIn,
         DF.updateTLVPts, DF.updateATVPts;
       intros Hu; simpl in Hu;
       refine (df_transfer_spec _ s _ _ _ _ _ _ Hwf Hv _ Hu);
       intros [k|l k|l k]; simpl; unfold B.idOf; simpl;
       rewrite ?rd2_subscript2, ?rd_subscript; done)..].
  unfold DF.runBase.
  destruct (B.runUpdate c _ u) as [[b0 c0] b1] eqn:E. intros [= <- <- <-].
  apply basic_runUpdate_spec in E
    as (Hp & Hwf' & Hv' & Hpts & Hoth & Hb & _); [|done|by apply df_valid_basic].
  split_and!; try done.
  - intros [k|l k|l k]; simpl; [apply Hv'|..].
    + eapply valid_prefix; [done|]. apply (Hv (DF.InRef l k)).
    + eapply valid_prefix; [done|]. apply (Hv (DF.OutRef l k)).
  - intros [k|l k|l k] Hr; simpl; try done. apply Hoth. congruence.
Qed.

Lemma df_runUpdate_flag c s u b c' s' :
  DF.runUpdate c s u = (b, c', s') →
  b = bool_decide (DF.deref s' (DF.dstOf u) ≠ DF.deref s (DF.dstOf u)) ∧
  (∀ r, r ≠ DF.dstOf u → DF.deref s' r = DF.deref s r).
Proof.
  destruct u as [u|sl sk dl dk|sl sk dl dk|sl sk dl dk|sl sk dl dk
                |sl sk dl dk|sl sk dk|sk dl dk]; simpl.
  { unfold DF.runBase. destruct (B.runUpdate c _ u) as [[b0 c0] b1] eqn:E.
    intros [= <- <- <-]. apply basic_runUpdate_flag in E as [Hb Hoth].
    split; [done|]. intros [k|l k|l k] Hr; simpl; try done.
    apply Hoth. congruence. }
  all: unfold DF.updateAllDFInFromIn, DF.updateAllDFInFromOut,
         DF.updateDFInFromIn, DF.updateDFInFromOut, DF.updateDFOutFromIn,
         DF.updateTLVPts, DF.updateATVPts;
       intros Hu; simpl in Hu;
       apply unionPtsThroughIds_spec in Hu as (_ & _ & _ & Hoth & Hb & _);
       revert Hoth Hb; simpl; unfold B.idOf; simpl;
       rewrite ?rd2_subscript2, ?rd_subscript; intros Hoth Hb;
       (split; [done|]); intros r Hr; rewrite (Hoth r Hr);
       destruct r; simpl; unfold B.idOf; simpl;
       by rewrite ?rd2_subscript2, ?rd_subscript.
Qed.

Lemma updateDFOutFromIn_spec c s l k b c' s' :
  Cache.wf c → df_valid c s →
  DF.updateDFOutFromIn c s l k l k = (b, c', s') →
  c `prefix_of` c' ∧ Cache.wf c' ∧ df_valid c' s' ∧
  DF.outOf c' s' l k = DF.outOf c s l k ∪ DF.inOf c s l k ∧
  (∀ r, r ≠ DF.OutRef l k → DF.deref s' r = DF.deref s r) ∧
  b = bool_decide (DF.deref s' (DF.OutRef l k) ≠ DF.deref s (DF.OutRef l k)) ∧
  (∀ l' k', (l, k) ≠ (l', k') →
     lookup2 (DF.dfOutPtsMap s') l' k' = lookup2 (DF.dfOutPtsMap s) l' k').
Proof.
  intros Hwf Hv Hu.
  pose proof (df_runUpdate_spec c s (DF.UpdateDFOutFromIn l k l k) b c' s' Hwf Hv Hu)
    as (Hp & Hwf' & Hv' & Hpts & Hoth & Hb).
  split_and!; try done.
  intros l' k' Hne. unfold DF.updateDFOutFromIn in Hu. simpl in Hu.
  apply unionPtsThroughIds_spec in Hu as (_ & _ & _ & _ & _ & ->). simpl.
  by rewrite lookup2_wr2, lookup2_subscript2.
Qed.

Lemma df_outFromIn_loop l v su (ks : list K) :
  NoDup ks → ∀ ch c s b c' s',
  Cache.wf c → df_valid c s →
  foldl (DF.outFromInBody l v su) (ch, c, s) ks = (b, c', s') →
  c `prefix_of` c' ∧ Cache.wf c' ∧ df_valid c' s' ∧
  (∀ r, (∀ k, k ∈ ks → skipped su v k = false → r ≠ DF.OutRef l k) →
        DF.deref s' r = DF.deref s r) ∧
  (∀ k, k ∈ ks → skipped su v k = false →
        DF.outOf c' s' l k = DF.outOf c s l k ∪ DF.inOf c s l k) ∧
  (b = true ↔ ch = true ∨
     ∃ k, k ∈ ks ∧ skipped su v k = false ∧
          DF.deref s' (DF.OutRef l k) ≠ DF.deref s (DF.OutRef l k)) ∧
  (∀ l' k', (∀ k, k ∈ ks → skipped su v k = false → (l, k) ≠ (l', k')) →
     lookup2 (DF.dfOutPtsMap s') l' k' = lookup2 (DF.dfOutPtsMap s) l' k').
Proof.
  induction 1 as [|k ks Hk Hnd IH]; intros ch c s b c' s' Hwf Hv; simpl.
  { intros [= <- <- <-]. split_and!; try done.
    - by intros k ?%elem_of_nil.
    - split; [by left|]. intros [?|(k & Hk%elem_of_nil & _)]; done. }
  fold (skipped su v k).
  destruct (skipped su v k) eqn:Hsk.
  - intros Hu. apply IH in Hu as (Hp & Hwf' & Hv' & Hoth & Hpts & Hb & Hraw);
      try done.
    split_and!; try done.
    + intros r Hr. apply Hoth. intros k' Hk'. apply Hr. by right.
    + intros k' [->|Hk']%elem_of_cons Hs'; [congruence|]. by apply Hpts.
    + rewrite Hb. apply or_iff_compat_l. split.
      * intros (k' & Hk' & ?). exists k'. split; [by right|done].
      * intros (k' & [->|Hk']%elem_of_cons & Hs' & ?); [congruence|]. by exists k'.
    + intros l' k' Hr. apply Hraw. intros k0 Hk0. apply Hr. by right.
  - destruct (DF.updateDFOutFromIn c s l k l k) as [[r1 c1] s1] eqn:E.
    apply updateDFOutFromIn_spec in E
      as (Hp1 & Hwf1 & Hv1 & Hpts1 & Hoth1 & Hb1 & Hraw1); try done.
    intros Hu. apply IH in Hu as (Hp & Hwf' & Hv' & Hoth & Hpts & Hb & Hraw);
      try done.
    assert (Hkeep : DF.deref s' (DF.OutRef l k) = DF.deref s1 (DF.OutRef l k)).
    { apply Hoth. intros k' Hk' _ [= ->]. done. }
    split_and!; try done.
    + by etrans.
    + intros r Hr. rewrite Hoth.
      * apply Hoth1. apply Hr; [by left|done].
      * intros k' Hk'. apply Hr. by right.
    + intros k' [->|Hk']%elem_of_cons Hs'.
      * rewrite <-Hpts1. unfold DF.outOf. rewrite Hkeep.
        apply getActualPts_prefix; [done|apply Hv1].
      * rewrite Hpts by done. assert (k' ≠ k) by (by intros ->).
        unfold DF.outOf, DF.inOf.
        rewrite !Hoth1 by congruence.
        rewrite !(getActualPts_prefix c c1) by (done || apply Hv). done.
    + rewrite Hb. split.
      * intros [Hr|(k' & Hk' & Hs' & Hne)].
        -- destruct r1; [|by left]. right.
           symmetry in Hb1. apply bool_decide_eq_true in Hb1.
           rewrite <-Hkeep in Hb1. eauto using list_elem_of_here.
        -- right. assert (k' ≠ k) by (by intros ->).
           rewrite (Hoth1 (DF.OutRef l k')) in Hne by congruence.
           eauto using list_elem_of_further.
      * intros [->|(k' & [->|Hk']%elem_of_cons & Hs' & Hne)].
        -- left. by destruct r1.
        -- left.
           change (DF.deref s' (DF.OutRef l k) ≠ DF.deref s (DF.OutRef l k)) in Hne.
           rewrite Hkeep in Hne. rewrite Hb1.
           by rewrite bool_decide_true.
        -- right. assert (k' ≠ k) by (by intros ->).
           change (DF.deref s' (DF.OutRef l k') ≠ DF.deref s (DF.OutRef l k')) in Hne.
           rewrite <-(Hoth1 (DF.OutRef l k')) in Hne by congruence. eauto.
    + intros l' k' Hr. rewrite Hraw.
      * apply Hraw1. apply Hr; [by left|done].
      * intros k0 Hk0. apply Hr. by right.
Qed.

Lemma hasDFInSetVar_keys s l k :
  DF.hasDFInSetVar s l k = true
  ↔ k ∈ (map_to_list (rd ∅ (DF.dfInPtsMap s) l)).*1.
Proof.
  unfold DF.hasDFInSetVar, rd.
  rewrite list_elem_of_fmap. destruct (DF.dfInPtsMap s !! l) as [i|]; simpl.
  - rewrite bool_decide_eq_true. split.
    + intros [id Hid]. exists (k, id). split; [done|]. by apply elem_of_map_to_list.
    + intros ([k' id] & -> & Hin%elem_of_map_to_list). by exists id.
  - rewrite map_to_list_empty. split; [done|].
    by intros (? & _ & ?%elem_of_nil).
Qed.

Lemma hasDFInSetVar_hasDFInSet s l k :
  DF.hasDFInSetVar s l k = true → DF.hasDFInSet s l = true.
Proof.
  unfold DF.hasDFInSetVar, DF.hasDFInSet.
  destruct (DF.dfInPtsMap s !! l); [|done]. intros _. by apply bool_decide_eq_true.
Qed.

End df_facts.

(** ** The incremental data-flow store *)

Section inc_facts.
Context `{Countable K}.
Implicit Types (c : Cache.t) (s : Inc.t K) (k : K) (l : nat) (u : DF.update K).

Lemma inc_runUpdate_eq c s u :
  Inc.runUpdate c s u =
    if inc_guard s u then
      let s0 := inc_consume s u in
      let '(r, c', d) := DF.runUpdate c (Inc.base s0) u in
      (r, c', if r then inc_mark (Inc.withDF s0 d) u else Inc.withDF s0 d)
    else (false, c, s).
Proof.
  destruct u; simpl;
    unfold Inc.updateDFInFromIn, Inc.updateAllDFInFromIn, Inc.updateDFInFromOut,
      Inc.updateAllDFInFromOut, Inc.updateDFOutFromIn, Inc.updateTLVPts,
      Inc.updateATVPts, Inc.liftDF, DF.updateAllDFInFromIn,
      DF.updateAllDFInFromOut;
    repeat case_match; simplify_eq; done.
Qed.

Lemma base_consume s u : Inc.base (inc_consume s u) = Inc.base s.
Proof.
  destruct u; try done; simpl; unfold Inc.removeVarFromDFInUpdatedSet;
    by case_match.
Qed.

Lemma base_mark s u : Inc.base (inc_mark s u) = Inc.base s.
Proof. by destruct u. Qed.

Lemma inc_runUpdate_flag c s u b c' s' :
  Inc.runUpdate c s u = (b, c', s') →
  b = bool_decide (DF.deref (Inc.base s') (DF.dstOf u)
                   ≠ DF.deref (Inc.base s) (DF.dstOf u)) ∧
  (∀ r, r ≠ DF.dstOf u →
        DF.deref (Inc.base s') r = DF.deref (Inc.base s) r).
Proof.
  rewrite inc_runUpdate_eq. destruct (inc_guard s u).
  - cbv zeta. rewrite base_consume.
    destruct (DF.runUpdate c (Inc.base s) u) as [[r c1] d] eqn:E.
    intros [= <- <- <-]. apply df_runUpdate_flag in E as [Hb Hoth].
    assert (Inc.base (if r then inc_mark (Inc.withDF (inc_consume s u) d) u
                      else Inc.withDF (inc_consume s u) d) = d) as ->.
    { destruct r; [by rewrite base_mark|done]. }
    done.
  - intros [= <- <- <-]. split; [|done].
    symmetry. apply bool_decide_eq_false. by intros [].
Qed.

Lemma inc_runUpdate_spec c s u b c' s' :
  Cache.wf c → inc_valid c s →
  Inc.runUpdate c s u = (b, c', s') →
  c `prefix_of` c' ∧ Cache.wf c' ∧ inc_valid c' s' ∧
  (∀ r, r ≠ DF.dstOf u →
        DF.deref (Inc.base s') r = DF.deref (Inc.base s) r) ∧
  b = bool_decide (DF.deref (Inc.base s') (DF.dstOf u)
                   ≠ DF.deref (Inc.base s) (DF.dstOf u)).
Proof.
  intros Hwf Hv. rewrite inc_runUpdate_eq.
  destruct (inc_guard s u).
  - cbv zeta. rewrite base_consume.
    destruct (DF.runUpdate c (Inc.base s) u) as [[r c1] d] eqn:E.
    intros [= <- <- <-].
    apply df_runUpdate_spec in E as (Hp & Hwf' & Hv' & _ & Hoth & Hb); try done.
    assert (Inc.base (if r then inc_mark (Inc.withDF (inc_consume s u) d) u
                      else Inc.withDF (inc_consume s u) d) = d) as Hbase.
    { destruct r; [by rewrite base_mark|done]. }
    unfold inc_valid. rewrite Hbase. done.
  - intros [= <- <- <-]. split_and!; try done.
    symmetry. apply bool_decide_eq_false. by intros [].
Qed.

(** *** The updated-variable sets *)

Lemma varHasNewDFInPts_true s l k :
  Inc.varHasNewDFInPts s l k = true ↔ Inc.isInDirty s l k.
Proof.
  unfold Inc.varHasNewDFInPts, Inc.isInDirty, rd.
  destruct (Inc.inUpdatedVarMap s !! l); simpl.
  - apply bool_decide_eq_true.
  - split; [done|]. by intros ?%not_elem_of_empty.
Qed.

Lemma varHasNewDFOutPts_true s l k :
  Inc.varHasNewDFOutPts s l k = true ↔ Inc.isOutDirty s l k.
Proof.
  unfold Inc.varHasNewDFOutPts, Inc.isOutDirty, rd.
  destruct (Inc.outUpdatedVarMap s !! l); simpl.
  - apply bool_decide_eq_true.
  - split; [done|]. by intros ?%not_elem_of_empty.
Qed.

Lemma isInDirty_remove s l k l' k' :
  Inc.isInDirty (Inc.removeVarFromDFInUpdatedSet s l k) l' k'
  ↔ Inc.isInDirty s l' k' ∧ (l, k) ≠ (l', k').
Proof.
  unfold Inc.removeVarFromDFInUpdatedSet, Inc.isInDirty, removeKey.
  destruct (Inc.inUpdatedVarMap s !! l) as [vars|] eqn:E; simpl.
  - rewrite rd_insert. destruct (decide (l = l')) as [<-|Hl].
    + unfold rd. rewrite E. simpl. rewrite elem_of_difference, elem_of_singleton.
      split; intros [? Hne]; (split; [done|]); congruence.
    + split; [|by intros [? _]]. intros ?. split; [done|congruence].
  - split; [|by intros [? _]]. intros Hin. split; [done|]. intros [= <- <-].
    unfold rd in Hin. rewrite E in Hin. by apply not_elem_of_empty in Hin.
Qed.

Lemma isInDirty_set s l k l' k' :
  Inc.isInDirty (Inc.setVarDFInSetUpdated s l k) l' k'
  ↔ Inc.isInDirty s l' k' ∨ (l, k) = (l', k').
Proof.
  unfold Inc.setVarDFInSetUpdated, Inc.isInDirty, insertKey; simpl.
  rewrite rd_insert. destruct (decide (l = l')) as [<-|Hl].
  - rewrite elem_of_union, elem_of_singleton. split.
    + intros [->|?]; [by right|by left].
    + intros [?|[= ->]]; [by right|by left].
  - split; [by left|]. intros [?|[= ? ?]]; done.
Qed.

Lemma isOutDirty_set s l k l' k' :
  Inc.isOutDirty (Inc.setVarDFOutSetUpdated s l k) l' k'
  ↔ Inc.isOutDirty s l' k' ∨ (l, k) = (l', k').
Proof.
  unfold Inc.setVarDFOutSetUpdated, Inc.isOutDirty, insertKey; simpl.
  rewrite rd_insert. destruct (decide (l = l')) as [<-|Hl].
  - rewrite elem_of_union, elem_of_singleton. split.
    + intros [->|?]; [by right|by left].
    + intros [?|[= ->]]; [by right|by left].
  - split; [by left|]. intros [?|[= ? ?]]; done.
Qed.

(** The source's flag is gone after [updateDFOutFromIn], whatever the union
    does, and no other IN flag moves. *)
Lemma inc_updateDFOutFromIn_dirty c s sl sk dl dk b c' s' :
  Inc.updateDFOutFromIn c s sl sk dl dk = (b, c', s') →
  ∀ l k, Inc.isInDirty s' l k ↔ Inc.isInDirty s l k ∧ (sl, sk) ≠ (l, k).
Proof.
  unfold Inc.updateDFOutFromIn.
  destruct (Inc.varHasNewDFInPts s sl sk) eqn:Hd.
  - unfold Inc.liftDF.
    destruct (DF.updateDFOutFromIn c _ sl sk dl dk) as [[r c1] d].
    destruct r; intros [= <- <- <-] l k;
      by rewrite <-(isInDirty_remove s sl sk l k).
  - intros [= <- <- <-] l k. split; [|by intros [? _]].
    intros Hin. split; [done|]. intros [= <- <-].
    apply varHasNewDFInPts_true in Hin. congruence.
Qed.

Lemma inc_outFromIn_loop_dirty l v su (ks : list K) :
  ∀ ch c s b c' s',
  foldl (Inc.outFromInBody l v su) (ch, c, s) ks = (b, c', s') →
  ∀ l' k', Inc.isInDirty s' l' k'
           ↔ Inc.isInDirty s l' k' ∧
             ¬ (l' = l ∧ k' ∈ ks ∧ skipped su v k' = false).
Proof.
  induction ks as [|k ks IH]; intros ch c s b c' s'; simpl.
  { intros [= <- <- <-] l' k'. split; [|by intros [? _]].
    intros ?. split; [done|]. by intros (_ & ?%elem_of_nil & _). }
  fold (skipped su v k). destruct (skipped su v k) eqn:Hsk.
  - intros Hu l' k'. rewrite (IH _ _ _ _ _ _ Hu). apply and_iff_compat_l.
    split; intros Hn (-> & Hin & Hs'); apply Hn.
    + apply elem_of_cons in Hin as [->|?]; [congruence|done].
    + split; [done|]. split; [by right|done].
  - destruct (Inc.updateDFOutFromIn c s l k l k) as [[r c1] s1] eqn:E.
    intros Hu l' k'. rewrite (IH _ _ _ _ _ _ Hu).
    rewrite (inc_updateDFOutFromIn_dirty _ _ _ _ _ _ _ _ _ E).
    split.
    + intros [[Hd Hne] Hn]. split; [done|]. intros (-> & Hin & Hs').
      apply elem_of_cons in Hin as [->|?]; [done|]. by apply Hn.
    + intros [Hd Hn]. split; [split; [done|]|].
      * intros [= <- <-]. apply Hn. split; [done|]. split; [by left|done].
      * intros (-> & Hin & Hs'). apply Hn.
        split; [done|]. split; [by right|done].
Qed.

(** *** A flagged variable has an IN map at its location

    Every state the store reaches through its public operations keeps a
    [dfInPtsMap] entry for each location with a flagged variable: a flag is
    set only after the reference into that map has been taken, and the map
    never loses a location. *)

Lemma hasDFInSet_true (d : DF.t K) l : DF.hasDFInSet d l = true ↔ hasIn d l.
Proof. apply bool_decide_eq_true. Qed.

Lemma hasIn_assign (d : DF.t K) r v l :
  hasIn (DF.assign d r v) l ↔ hasIn d l ∨ ∃ k, r = DF.InRef l k.
Proof.
  unfold hasIn. destruct r as [k|l0 k|l0 k]; simpl.
  - split; [by left|]. by intros [?|[? ?]].
  - unfold DF.wr2. rewrite lookup_insert.
    destruct (decide (l0 = l)) as [->|Hl].
    + split; [by right; eauto|by eauto].
    + split; [by left|]. intros [?|[? [= ? ?]]]; done.
  - split; [by left|]. by intros [?|[? ?]].
Qed.

Lemma hasIn_getDFInPtIdRef (d : DF.t K) l0 k0 l :
  hasIn (DF.getDFInPtIdRef d l0 k0).2 l ↔ hasIn d l ∨ l = l0.
Proof.
  unfold hasIn; simpl. unfold DF.subscript2. rewrite lookup_insert.
  destruct (decide (l0 = l)) as [->|Hl].
  - split; [by right|by eauto].
  - split; [by left|]. by intros [?|?].
Qed.

Lemma df_runUpdate_hasIn c (d : DF.t K) u b c' d' :
  DF.runUpdate c d u = (b, c', d') →
  dfIn_grows d d' ∧ (∀ l k, DF.dstOf u = DF.InRef l k → hasIn d' l).
Proof.
  destruct u as [u|sl sk dl dk|sl sk dl dk|sl sk dl dk|sl sk dl dk
                |sl sk dl dk|sl sk dk|sk dl dk]; simpl.
  { unfold DF.runBase. destruct (B.runUpdate c _ u) as [[b0 c0] b1].
    intros [= <- <- <-]. split; [by intros l|done]. }
  all: unfold DF.updateAllDFInFromIn, DF.updateAllDFInFromOut,
         DF.updateDFInFromIn, DF.updateDFInFromOut, DF.updateDFOutFromIn,
         DF.updateTLVPts, DF.updateATVPts;
       intros Hu; simpl in Hu;
       apply unionPtsThroughIds_spec in Hu as (_ & _ & _ & _ & _ & ->);
       (split; [intros l Hl|intros l k [= <- <-]]);
       apply hasIn_assign; unfold hasIn in *; simpl;
       unfold DF.subscript2; rewrite ?lookup_insert;
       repeat case_decide; eauto.
Qed.

Lemma inc_dirty_inv_runUpdate c s u b c' s' :
  inc_dirty_inv (c, s) → Inc.runUpdate c s u = (b, c', s') →
  inc_dirty_inv (c', s') ∧ dfIn_grows (Inc.base s) (Inc.base s').
Proof.
  intros Hinv. rewrite inc_runUpdate_eq.
  destruct (inc_guard s u); [|intros [= <- <- <-]; split; [done|by intros l]].
  cbv zeta.
  destruct (DF.runUpdate c _ u) as [[r c1] d] eqn:E. intros [= <- <- <-].
  rewrite base_consume in E. apply df_runUpdate_hasIn in E as [Hg Hd].
  assert (Hcons : ∀ l k, Inc.isInDirty (inc_consume s u) l k → hasIn d l).
  { intros l k Hin. apply Hg, (Hinv l k). simpl.
    destruct u; try done; simpl in Hin; by apply isInDirty_remove in Hin as [? _]. }
  split.
  - intros l k. simpl. destruct r; [|apply Hcons].
    rewrite base_mark. simpl.
    destruct u as [u|sl sk dl dk|sl sk dl dk|sl sk dl dk|sl sk dl dk
                  |sl sk dl dk|sl sk dk|sk dl dk]; simpl;
      try apply Hcons;
      intros [Hin|[= <- <-]]%isInDirty_set;
      try (by apply (Hcons l k)); by eapply Hd.
  - destruct r; [by rewrite base_mark|done].
Qed.

Lemma inc_outFromIn_loop_hasIn l v su (ks : list K) :
  ∀ ch c s b c' s',
  foldl (Inc.outFromInBody l v su) (ch, c, s) ks = (b, c', s') →
  dfIn_grows (Inc.base s) (Inc.base s').
Proof.
  induction ks as [|k ks IH]; intros ch c s b c' s'; simpl.
  { by intros [= <- <- <-] l'. }
  destruct (su && bool_decide (k = v)); [apply IH|].
  destruct (Inc.updateDFOutFromIn c s l k l k) as [[r c1] s1] eqn:E.
  intros Hu%IH l' Hl'. apply Hu.
  change (Inc.runUpdate c s (DF.UpdateDFOutFromIn l k l k) = (r, c1, s1)) in E.
  rewrite inc_runUpdate_eq in E. destruct (inc_guard s _); [|by simplify_eq].
  cbv zeta in E. rewrite base_consume in E.
  destruct (DF.runUpdate c _ _) as [[r' c2] d] eqn:E2.
  apply df_runUpdate_hasIn in E2 as [Hg _]. simplify_eq.
  destruct r; [rewrite base_mark|]; by apply Hg.
Qed.

Lemma removeVarFromDFOutUpdatedSet_frame s l k :
  Inc.base (Inc.removeVarFromDFOutUpdatedSet s l k) = Inc.base s ∧
  Inc.inUpdatedVarMap (Inc.removeVarFromDFOutUpdatedSet s l k)
  = Inc.inUpdatedVarMap s.
Proof. unfold Inc.removeVarFromDFOutUpdatedSet. by case_match. Qed.

Lemma clearAllDFOutUpdatedVar_frame s l :
  Inc.base (Inc.clearAllDFOutUpdatedVar s l) = Inc.base s ∧
  Inc.inUpdatedVarMap (Inc.clearAllDFOutUpdatedVar s l) = Inc.inUpdatedVarMap s.
Proof.
  assert (Hfold : ∀ ks s0,
    let s1 := foldl (λ s var, Inc.removeVarFromDFOutUpdatedSet s l var) s0 ks in
    Inc.base s1 = Inc.base s0 ∧ Inc.inUpdatedVarMap s1 = Inc.inUpdatedVarMap s0).
  { induction ks as [|k ks IH]; intros s0; simpl; [done|].
    destruct (IH (Inc.removeVarFromDFOutUpdatedSet s0 l k)) as [-> ->].
    apply removeVarFromDFOutUpdatedSet_frame. }
  unfold Inc.clearAllDFOutUpdatedVar. case_match; [|done]. simpl.
  apply (Hfold _ (Inc.mk _ _ _)).
Qed.

Lemma inc_dirty_inv_step (cs : Cache.t * Inc.t K) (o : Inc.op K) :
  inc_dirty_inv cs → inc_dirty_inv (Inc.step cs o).
Proof.
  destruct cs as [c s]. intros Hinv.
  destruct o as [u|l v su|l|k e|k| |k|l k|l k]; simpl.
  - destruct (Inc.runUpdate c s u) as [[b c'] s'] eqn:E.
    by apply inc_dirty_inv_runUpdate in E as [? _].
  - destruct (Inc.updateAllDFOutFromIn c s l v su) as [[b c'] s'] eqn:E.
    unfold Inc.updateAllDFOutFromIn in E. destruct (Inc.hasDFInSet s l).
    + simpl in E. intros l' k' Hin. simpl in *.
      pose proof (inc_outFromIn_loop_hasIn _ _ _ _ _ _ _ _ _ _ E) as Hg.
      apply (inc_outFromIn_loop_dirty _ _ _ _ _ _ _ _ _ _ E) in Hin as [Hin _].
      apply Hg. simpl. apply (Hinv l' k'). unfold Inc.isInDirty in *.
      simpl in *. by rewrite rd_subscript in Hin.
    + by simplify_eq.
  - intros l' k'. simpl. unfold Inc.isInDirty.
    destruct (clearAllDFOutUpdatedVar_frame s l) as [-> ->]. apply (Hinv l' k').
  - destruct (DF.clearPts c (Inc.base s) k e) as [c' d] eqn:E.
    unfold DF.clearPts in E.
    destruct (B.clearPts c (DF.persPTData (Inc.base s)) k e). simplify_eq.
    apply Hinv.
  - apply Hinv.
  - apply Hinv.
  - unfold DF.getPts. destruct (B.getPts c (DF.persPTData (Inc.base s)) k).
    apply Hinv.
  - intros l' k' Hin. simpl in *. apply hasIn_getDFInPtIdRef. left.
    by apply (Hinv l' k').
  - apply Hinv.
Qed.

(** *** Validity of the IDs is an invariant *)

Lemma df_valid_withBase c c' (d : DF.t K) (b' : B.t K) :
  c `prefix_of` c' → df_valid c d → basic_valid c' b' →
  df_valid c' (DF.withBase d b').
Proof.
  intros Hp Hv Hb [k|l k|l k]; simpl; [apply Hb|..].
  - eapply valid_prefix; [done|]. apply (Hv (DF.InRef l k)).
  - eapply valid_prefix; [done|]. apply (Hv (DF.OutRef l k)).
Qed.

Lemma inc_outFromIn_loop_valid l v su (ks : list K) :
  ∀ ch c s b c' s',
  Cache.wf c → inc_valid c s →
  foldl (Inc.outFromInBody l v su) (ch, c, s) ks = (b, c', s') →
  c `prefix_of` c' ∧ Cache.wf c' ∧ inc_valid c' s'.
Proof.
  induction ks as [|k ks IH]; intros ch c s b c' s' Hwf Hv; simpl.
  { by intros [= <- <- <-]. }
  destruct (su && bool_decide (k = v)); [by apply IH|].
  destruct (Inc.updateDFOutFromIn c s l k l k) as [[r c1] s1] eqn:E.
  change (Inc.runUpdate c s (DF.UpdateDFOutFromIn l k l k) = (r, c1, s1)) in E.
  apply inc_runUpdate_spec in E as (Hp1 & Hwf1 & Hv1 & _); try done.
  intros (Hp & Hwf' & Hv')%IH; try done. split; [by etrans|done].
Qed.

Lemma inc_wf_inv_step (cs : Cache.t * Inc.t K) (o : Inc.op K) :
  inc_wf_inv cs → inc_wf_inv (Inc.step cs o).
Proof.
  destruct cs as [c s]. intros [Hwf Hv]. simpl in *.
  destruct o as [u|l v su|l|k e|k| |k|l k|l k]; cbn [Inc.step].
  - destruct (Inc.runUpdate c s u) as [[b c'] s'] eqn:E.
    by apply inc_runUpdate_spec in E as (_ & ? & ? & _).
  - destruct (Inc.updateAllDFOutFromIn c s l v su) as [[b c'] s'] eqn:E.
    unfold Inc.updateAllDFOutFromIn in E. destruct (Inc.hasDFInSet s l).
    + simpl in E. by apply inc_outFromIn_loop_valid in E as (_ & ? & ?).
    + by simplify_eq.
  - split; [done|]. unfold inc_valid; simpl.
    by destruct (clearAllDFOutUpdatedVar_frame s l) as [-> _].
  - destruct (DF.clearPts c (Inc.base s) k e) as [c' d] eqn:E.
    unfold DF.clearPts in E.
    destruct (B.clearPts c (DF.persPTData (Inc.base s)) k e) as [c1 b1] eqn:E1.
    simplify_eq.
    apply clearPts_spec in E1 as (Hp & Hwf' & Hv' & _);
      [|done|by apply df_valid_basic].
    split; [done|]. by apply (df_valid_withBase c).
  - split; [done|]. apply (df_valid_withBase c); [done..|].
    pose proof (clearFullPts_spec c (DF.persPTData (Inc.base s)) k)
      as (Hid & Hoth & _).
    intros k'. destruct (decide (k' = k)) as [->|Hne].
    + rewrite Hid. by apply wf_empty_valid.
    + rewrite Hoth by done. apply (Hv (DF.TLRef k')).
  - split; [done|]. apply (df_valid_withBase c); [done..|].
    intros k. unfold B.idOf, B.clear; simpl. rewrite rd_empty.
    by apply wf_empty_valid.
  - split; [done|]. apply (df_valid_withBase c); [done..|].
    intros k'. unfold B.idOf; simpl. rewrite rd_subscript.
    apply (Hv (DF.TLRef k')).
  - split; [done|]. intros r.
    change (Cache.valid c (DF.deref (DF.getDFInPtIdRef (Inc.base s) l k).2 r)).
    rewrite deref_getDFInPtIdRef. apply Hv.
  - split; [done|]. intros r.
    change (Cache.valid c (DF.deref (DF.getDFOutPtIdRef (Inc.base s) l k).2 r)).
    rewrite deref_getDFOutPtIdRef. apply Hv.
Qed.

Lemma inc_wf_inv_run cs (ops : list (Inc.op K)) :
  inc_wf_inv cs → inc_wf_inv (foldl Inc.step cs ops).
Proof.
  revert cs. induction ops as [|o ops IH]; intros cs Hinv; [done|].
  simpl. by apply IH, inc_wf_inv_step.
Qed.

Lemma inc_wf_inv_new c rv : Cache.wf c → inc_wf_inv (c, Inc.new (K:=K) rv).
Proof. intros Hwf. split; [done|]. by apply df_valid_new. Qed.

Lemma inc_reachable_dirty_inv (cs : Cache.t * Inc.t K) :
  inc_reachable cs → inc_dirty_inv cs.
Proof.
  intros (c0 & rv & ops & ->).
  assert (Hrun : ∀ (ops : list (Inc.op K)) cs,
            inc_dirty_inv cs → inc_dirty_inv (foldl Inc.step cs ops)).
  { clear. induction ops as [|o ops IH]; intros cs Hinv; [done|].
    simpl. by apply IH, inc_dirty_inv_step. }
  apply Hrun. intros l k Hin. unfold Inc.isInDirty in Hin. simpl in Hin.
  rewrite rd_empty in Hin. by apply not_elem_of_empty in Hin.
Qed.

End inc_facts.

(** ** The diff store *)

Section diff_facts.
Context `{Countable K}.
Implicit Types (c : Cache.t) (s : Diff.t K) (k : K).

Lemma propa_valid_new c rv : Cache.wf c → propa_valid c (Diff.new (K:=K) rv).
Proof.
  intros Hwf k. unfold Diff.new; simpl. rewrite rd_empty.
  by apply wf_empty_valid.
Qed.

Lemma getDiffPts_diffOf c s k : (Diff.getDiffPts c s k).1 = Diff.diffOf c s k.
Proof. done. Qed.

Lemma computeDiffPts_spec c s k (all : gset nat) b c' s' :
  Cache.wf c → propa_valid c s →
  Diff.computeDiffPts c s k all = (b, c', s') →
  c `prefix_of` c' ∧ Cache.wf c' ∧ propa_valid c' s' ∧
  Diff.diffOf c' s' k = all ∖ Diff.propaOf c s k ∧
  Diff.propaOf c' s' k = all ∧
  (b = true ↔ Diff.diffOf c' s' k ≠ ∅).
Proof.
  intros Hwf Hv. unfold Diff.computeDiffPts, Diff.diffOf, Diff.propaOf.
  destruct (Cache.emplacePts c all) as [allId c1] eqn:E1.
  pose proof (emplacePts_valid _ _ _ _ E1) as Hall.
  apply emplacePts_ok in E1 as (Hp1 & Hs1 & Hwf1).
  destruct (Cache.complementPts c1 allId _) as [diffId c2] eqn:E2.
  apply complementPts_ok in E2 as (Hp2 & Hs2 & Hwf2).
  intros [= <- <- <-]; simpl. rewrite !rd_insert_eq.
  rewrite (getActualPts_lookup _ _ _ Hs1) in Hs2.
  rewrite (getActualPts_prefix c c1) in Hs2 by (done || apply Hv).
  split_and!; [by etrans|by auto| | | |].
  - intros k'. simpl. rewrite rd_insert. case_decide.
    + by apply (valid_prefix c1 c2).
    + apply (valid_prefix c c2); [by etrans|apply Hv].
  - by apply getActualPts_lookup.
  - rewrite (getActualPts_prefix c1 c2) by done. by apply getActualPts_lookup.
  - rewrite bool_decide_eq_true.
    rewrite <-(empty_id_unique c2 diffId); [done|by auto|].
    apply valid_is_Some. eauto.
Qed.

(** A second [computeDiffPts] with the set just propagated finds nothing new
    and interns nothing. *)
Lemma computeDiffPts_again c s k (all : gset nat) b c' s' :
  Cache.wf c → propa_valid c s →
  Diff.computeDiffPts c s k all = (b, c', s') →
  ∃ s'', Diff.computeDiffPts c' s' k all = (false, c', s'') ∧
         Diff.diffOf c' s'' k = ∅ ∧ Diff.propaOf c' s'' k = all.
Proof.
  intros Hwf Hv Hc.
  pose proof (computeDiffPts_spec _ _ _ _ _ _ _ Hwf Hv Hc)
    as (_ & Hwf' & Hv' & _ & Hpropa & _).
  unfold Diff.propaOf in Hpropa.
  assert (Cache.emplacePts c' all = (rd 0 (Diff.propaPtsMap s') k, c')) as Hall.
  { rewrite <-Hpropa at 1. apply emplacePts_known; [done|apply Hv']. }
  assert (Cache.emplacePts c' ∅ = (Cache.emptyPointsToId, c')) as Hemp.
  { rewrite <-(getActualPts_empty c' Hwf') at 1.
    apply emplacePts_known; [done|by apply wf_empty_valid]. }
  unfold Diff.computeDiffPts, Cache.complementPts.
  rewrite Hall, Hpropa, difference_diag_L, Hemp.
  eexists. split; [done|]. unfold Diff.diffOf, Diff.propaOf; simpl.
  rewrite !rd_insert_eq. by rewrite getActualPts_empty.
Qed.

End diff_facts.

(** ** The versioned store *)

Section versioned_facts.
Context `{Countable K}.
Implicit Types (c : Cache.t) (s : B.t K) (k : K).

(** A union of a non-empty set into a key that holds the empty ID. *)
Lemma unionPtsFromId_fresh c s k srcId b c' s' :
  Cache.wf c → basic_valid c s → Cache.valid c srcId →
  B.rev s = true → B.idOf s k = Cache.emptyPointsToId →
  Cache.getActualPts c srcId ≠ ∅ →
  B.unionPtsFromId c s k srcId = (b, c', s') →
  b = true ∧ c `prefix_of` c' ∧ Cache.wf c' ∧ basic_valid c' s' ∧
  B.rev s' = true ∧
  B.ptsOf c' s' k = Cache.getActualPts c srcId ∧
  (∀ d, B.revOf s' d = if bool_decide (d ∈ Cache.getActualPts c srcId)
                       then {[k]} ∪ B.revOf s d else B.revOf s d).
Proof.
  intros Hwf Hv Hsrc Hr Hk Hne Hu.
  apply unionPtsFromId_valid in Hu
    as (Hp & Hwf' & Hv' & Hpts & _ & Hb & Hr' & Hrev); try done.
  unfold B.ptsOf at 2 in Hpts. rewrite Hk, getActualPts_empty in Hpts by done.
  rewrite union_empty_l_L in Hpts.
  assert (b = true) as ->.
  { rewrite Hb. apply bool_decide_eq_true. intros Heq.
    unfold B.ptsOf in Hpts. rewrite Heq, Hk, getActualPts_empty in Hpts by done.
    by apply Hne. }
  split_and!; try done; [congruence|].
  intros d. by rewrite Hrev, Hr.
Qed.

Lemma addPts_fresh c k (e : nat) b c' s' :
  Cache.wf c →
  B.addPts c (B.new true) k e = (b, c', s') →
  b = true ∧ c `prefix_of` c' ∧ Cache.wf c' ∧ basic_valid c' s' ∧
  B.rev s' = true ∧ B.ptsOf c' s' k = {[e]} ∧
  (∀ d, B.revOf s' d = if bool_decide (d = e) then {[k]} else ∅).
Proof.
  intros Hwf. unfold B.addPts.
  destruct (Cache.emplacePts c _) as [srcId c1] eqn:E.
  pose proof (emplacePts_valid _ _ _ _ E) as Hsrc.
  apply emplacePts_ok in E as (Hp1 & Hs & Hwf1).
  intros Hu. apply unionPtsFromId_fresh in Hu
    as (Hb & Hp & Hwf' & Hv' & Hr & Hpts & Hrev); try done.
  - rewrite (getActualPts_lookup _ _ _ Hs) in Hpts, Hrev.
    split_and!; try done; [by etrans|].
    intros d. rewrite Hrev. unfold B.revOf, B.new; simpl. rewrite rd_empty.
    rewrite union_empty_r_L.
    by rewrite (bool_decide_ext _ _ (elem_of_singleton d e)).
  - by auto.
  - apply basic_valid_new. by auto.
  - rewrite (getActualPts_lookup _ _ _ Hs). set_solver.
Qed.

Lemma basic_valid_prefix c c' s :
  c `prefix_of` c' → basic_valid c s → basic_valid c' s.
Proof. intros Hp Hv k'. by eapply valid_prefix. Qed.

End versioned_facts.

Section versioned_spec.
Context `{Countable K, Countable VK}.
Implicit Types (c : Cache.t) (s : Ver.t K VK).

Lemma ver_valid_new c rv :
  Cache.wf c → ver_valid c (Ver.new (K:=K) (VK:=VK) rv).
Proof. intros Hwf. split; by apply basic_valid_new. Qed.

Lemma ver_runUpdate_spec c s u b c' s' :
  Cache.wf c → ver_valid c s →
  Ver.runUpdate c s u = (b, c', s') →
  c `prefix_of` c' ∧ Cache.wf c' ∧ ver_valid c' s' ∧
  b = bool_decide (Ver.idOf s' (Ver.dstOf u) ≠ Ver.idOf s (Ver.dstOf u)).
Proof.
  intros Hwf [Htl Hat].
  assert (Hbase_tl : ∀ (u0 : B.update K),
    Ver.withTL s (B.runUpdate c (Ver.tlPTData s) u0) = (b, c', s') →
    c `prefix_of` c' ∧ Cache.wf c' ∧ ver_valid c' s' ∧
    b = bool_decide (B.idOf (Ver.tlPTData s') (B.dstOf u0)
                     ≠ B.idOf (Ver.tlPTData s) (B.dstOf u0))).
  { intros u0. unfold Ver.withTL.
    destruct (B.runUpdate c _ u0) as [[b0 c0] tl0] eqn:E. intros [= <- <- <-].
    apply basic_runUpdate_spec in E as (Hp & Hwf' & Hv' & _ & _ & Hb & _);
      try done.
    split_and!; try done. split; [done|]. by apply (basic_valid_prefix c). }
  assert (Hbase_at : ∀ (u0 : B.update VK),
    Ver.withAT s (B.runUpdate c (Ver.atPTData s) u0) = (b, c', s') →
    c `prefix_of` c' ∧ Cache.wf c' ∧ ver_valid c' s' ∧
    b = bool_decide (B.idOf (Ver.atPTData s') (B.dstOf u0)
                     ≠ B.idOf (Ver.atPTData s) (B.dstOf u0))).
  { intros u0. unfold Ver.withAT.
    destruct (B.runUpdate c _ u0) as [[b0 c0] at0] eqn:E. intros [= <- <- <-].
    apply basic_runUpdate_spec in E as (Hp & Hwf' & Hv' & _ & _ & Hb & _);
      try done.
    split_and!; try done. split; [|done]. by apply (basic_valid_prefix c). }
  destruct u as [k e|vk e|d k|d k|d k|d k|d ds|d ds]; simpl.
  - apply (Hbase_tl (B.AddPts k e)).
  - apply (Hbase_at (B.AddPts vk e)).
  - apply (Hbase_tl (B.UnionPts d k)).
  - apply (Hbase_at (B.UnionPts d k)).
  - unfold Ver.unionPtsVK, Ver.withAT. cbn [Ver.atPTData Ver.tlPTData Ver.rev].
    destruct (B.unionPtsFromId c _ d _) as [[b0 c0] at0] eqn:E.
    intros [= <- <- <-].
    apply unionPtsFromId_valid in E as (Hp & Hwf' & Hv' & _ & _ & Hb & _);
      [|done|done|apply Htl].
    split_and!; try done. split; [|done]. simpl.
    intros k'. unfold B.idOf; simpl. rewrite rd_subscript.
    eapply valid_prefix; [done|apply Htl].
  - unfold Ver.unionPtsKV, Ver.withTL. cbn [Ver.atPTData Ver.tlPTData Ver.rev].
    destruct (B.unionPtsFromId c _ d _) as [[b0 c0] tl0] eqn:E.
    intros [= <- <- <-].
    apply unionPtsFromId_valid in E as (Hp & Hwf' & Hv' & _ & _ & Hb & _);
      [|done|done|apply Hat].
    split_and!; try done. split; [done|]. simpl.
    intros k'. unfold B.idOf; simpl. rewrite rd_subscript.
    eapply valid_prefix; [done|apply Hat].
  - apply (Hbase_tl (B.UnionPtsData d ds)).
  - apply (Hbase_at (B.UnionPtsData d ds)).
Qed.

End versioned_spec.

(** ** The flag of [updateAllDFOutFromIn] *)

Section out_from_in_loop.
Context `{Countable K} {St : Type}.
Variables (idAt : St → DF.IdRef K → nat)
          (stepOut : Cache.t → St → K → bool * Cache.t * St)
          (l : nat) (v : K) (su : bool).
Hypothesis stepOut_flag : ∀ c s k b c' s',
  stepOut c s k = (b, c', s') →
  b = bool_decide (idAt s' (DF.OutRef l k) ≠ idAt s (DF.OutRef l k)) ∧
  ∀ r, r ≠ DF.OutRef l k → idAt s' r = idAt s r.

Lemma loop_flag (ks : list K) :
  NoDup ks → ∀ ch c s b c' s',
  foldl (loopBody stepOut v su) (ch, c, s) ks = (b, c', s') →
  (b = true ↔ ch = true ∨
     ∃ k, k ∈ ks ∧ skipped su v k = false ∧
          idAt s' (DF.OutRef l k) ≠ idAt s (DF.OutRef l k)) ∧
  (∀ r, (∀ k, k ∈ ks → skipped su v k = false → r ≠ DF.OutRef l k) →
        idAt s' r = idAt s r).
Proof.
  induction 1 as [|k ks Hk Hnd IH]; intros ch c s b c' s'; simpl.
  { intros [= <- <- <-]. split; [|done]. split; [by left|].
    intros [?|(k & Hk%elem_of_nil & _)]; done. }
  fold (skipped su v k). destruct (skipped su v k) eqn:Hsk.
  - intros [Hb Hoth]%IH. split.
    + rewrite Hb. apply or_iff_compat_l. split.
      * intros (k' & Hk' & ?). exists k'. split; [by right|done].
      * intros (k' & [->|Hk']%elem_of_cons & Hs' & ?); [congruence|]. by exists k'.
    + intros r Hr. apply Hoth. intros k' Hk'. apply Hr. by right.
  - destruct (stepOut c s k) as [[r1 c1] s1] eqn:E.
    apply stepOut_flag in E as [Hb1 Hoth1].
    intros [Hb Hoth]%IH.
    assert (Hkeep : idAt s' (DF.OutRef l k) = idAt s1 (DF.OutRef l k)).
    { apply Hoth. intros k' Hk' _ [= ->]. done. }
    split.
    + rewrite Hb. split.
      * intros [Hr|(k' & Hk' & Hs' & Hne)].
        -- destruct r1; [|by left]. right.
           symmetry in Hb1. apply bool_decide_eq_true in Hb1.
           rewrite <-Hkeep in Hb1. eauto using list_elem_of_here.
        -- right. assert (k' ≠ k) by (by intros ->).
           rewrite (Hoth1 (DF.OutRef l k')) in Hne by congruence.
           eauto using list_elem_of_further.
      * intros [->|(k' & [->|Hk']%elem_of_cons & Hs' & Hne)].
        -- left. by destruct r1.
        -- left. rewrite Hkeep in Hne. rewrite Hb1. by rewrite bool_decide_true.
        -- right. assert (k' ≠ k) by (by intros ->).
           rewrite <-(Hoth1 (DF.OutRef l k')) in Hne by congruence. eauto.
    + intros r Hr. rewrite Hoth.
      * apply Hoth1. apply Hr; [by left|done].
      * intros k' Hk'. apply Hr. by right.
Qed.

(** Over the whole loop: the flag is up exactly when some OUT slot of the
    location holds another ID than before. *)
Lemma loop_flag_any (ks : list K) c s b c' s' :
  NoDup ks →
  foldl (loopBody stepOut v su) (false, c, s) ks = (b, c', s') →
  b = true ↔ ∃ k, idAt s' (DF.OutRef l k) ≠ idAt s (DF.OutRef l k).
Proof.
  intros Hnd [Hb Hoth]%loop_flag; [|done]. rewrite Hb. split.
  - intros [?|(k & _ & _ & ?)]; [done|]. by exists k.
  - intros (k & Hne). right. exists k.
    destruct (decide (k ∈ ks ∧ skipped su v k = false)) as [[? ?]|Hn]; [done|].
    exfalso. apply Hne, Hoth. intros k' Hk' Hs' [= ->]. by apply Hn.
Qed.

End out_from_in_loop.

Section out_flag.
Context `{Countable K}.

Lemma out_flag_sets {St : Type} (idAt : St → DF.IdRef K → nat)
    (c c' : Cache.t) (s s' : St) l (b : bool) :
  Cache.wf c' → c `prefix_of` c' →
  (∀ r, Cache.valid c (idAt s r)) → (∀ r, Cache.valid c' (idAt s' r)) →
  (b = true ↔ ∃ k, idAt s' (DF.OutRef l k) ≠ idAt s (DF.OutRef l k)) →
  out_flag_exact idAt c s l (b, c', s').
Proof.
  intros Hwf Hp Hv Hv' Hb. split; [done|]. rewrite Hb.
  split; intros (k & Hne); exists k;
    by apply (id_change_iff_set_change c c').
Qed.

Lemma df_updateAllDFOutFromIn_flag c (s : DF.t K) l v su :
  Cache.wf c → df_valid c s →
  out_flag_exact DF.deref c s l (DF.updateAllDFOutFromIn c s l v su).
Proof.
  intros Hwf Hv.
  destruct (DF.updateAllDFOutFromIn c s l v su) as [[b c'] s'] eqn:E.
  unfold DF.updateAllDFOutFromIn in E. destruct (DF.hasDFInSet s l).
  - pose proof (df_outFromIn_loop l v su _ (NoDup_fst_map_to_list _)
                  _ _ _ _ _ _ Hwf Hv E) as (Hp & Hwf' & Hv' & _).
    apply out_flag_sets; try done.
    refine (loop_flag_any DF.deref (λ c s k, DF.updateDFOutFromIn c s l k l k)
              l v su _ _ c s b c' s' (NoDup_fst_map_to_list _) E).
    intros c0 s0 k b0 c0' s0' Hu.
    apply (df_runUpdate_flag c0 s0 (DF.UpdateDFOutFromIn l k l k)) in Hu. done.
  - injection E as <- <- <-. apply out_flag_sets; try done.
    split; [done|]. by intros [k ?].
Qed.

Lemma inc_updateAllDFOutFromIn_flag c (s : Inc.t K) l v su :
  Cache.wf c → inc_valid c s →
  out_flag_exact (λ s, DF.deref (Inc.base s)) c s l
    (Inc.updateAllDFOutFromIn c s l v su).
Proof.
  intros Hwf Hv.
  destruct (Inc.updateAllDFOutFromIn c s l v su) as [[b c'] s'] eqn:E.
  unfold Inc.updateAllDFOutFromIn in E. destruct (Inc.hasDFInSet s l).
  - simpl in E.
    pose proof (inc_outFromIn_loop_valid l v su _ _ _ (Inc.mk (Inc.base s) _ _)
                  _ _ _ Hwf Hv E) as (Hp & Hwf' & Hv').
    apply out_flag_sets; try done.
    refine (loop_flag_any (λ s, DF.deref (Inc.base s))
              (λ c s k, Inc.updateDFOutFromIn c s l k l k)
              l v su _ _ c _ b c' s' (NoDup_elements _) E).
    intros c0 s0 k b0 c0' s0' Hu.
    apply (inc_runUpdate_flag c0 s0 (DF.UpdateDFOutFromIn l k l k)) in Hu. done.
  - injection E as <- <- <-. apply out_flag_sets; try done.
    split; [done|]. by intros [k ?].
Qed.

End out_flag.

(** ** Counting for [topN] *)

Section counting.
Implicit Types (ids : list nat) (id : nat) (acc : gmap nat N * N).

Lemma u64_add_small (a b : N) : (a + b < 2 ^ 64)%N → u64_add a b = (a + b)%N.
Proof. intros Hlt. unfold u64_add. by apply N.mod_small. Qed.

Lemma occurrences_cons ids x id :
  occurrences (x :: ids) id
  = ((if decide (x = id) then 1 else 0) + occurrences ids id)%N.
Proof.
  unfold occurrences. rewrite filter_cons.
  destruct (decide (x = id)); simpl; lia.
Qed.

Lemma occurrences_le ids id : (occurrences ids id ≤ N.of_nat (length ids))%N.
Proof.
  unfold occurrences. pose proof (length_filter (λ x, x = id) ids). lia.
Qed.

Lemma occurrences_not_elem ids id : id ∉ ids → occurrences ids id = 0%N.
Proof.
  induction ids as [|x ids IH]; [done|].
  intros [Hne Hni]%not_elem_of_cons. rewrite occurrences_cons, IH by done.
  by rewrite decide_False by done.
Qed.

Lemma occurrences_perm ids ids' id :
  ids ≡ₚ ids' → occurrences ids id = occurrences ids' id.
Proof. intros Hp. unfold occurrences. by rewrite Hp. Qed.

Lemma nonEmptyIds_cons id ids :
  nonEmptyIds (id :: ids)
  = if decide (id ≠ Cache.emptyPointsToId) then id :: nonEmptyIds ids
    else nonEmptyIds ids.
Proof. unfold nonEmptyIds. by rewrite filter_cons. Qed.

Lemma fits_cons id ids : fits (id :: ids) → fits ids.
Proof.
  unfold fits. rewrite nonEmptyIds_cons. case_decide; simpl; lia.
Qed.

Lemma fits_perm ids ids' : ids ≡ₚ ids' → fits ids → fits ids'.
Proof. unfold fits, nonEmptyIds. by intros ->. Qed.

Lemma counted_nil : counted [] (∅, 0%N).
Proof. split; [done|]. intros id. simpl. by rewrite lookup_empty. Qed.

Lemma counted_perm ids ids' acc : ids ≡ₚ ids' → counted ids acc → counted ids' acc.
Proof.
  intros Hp [Hk Hc].
  assert (Hne : nonEmptyIds ids ≡ₚ nonEmptyIds ids')
    by (unfold nonEmptyIds; by rewrite Hp).
  split; [by rewrite <-Hne|].
  intros id. rewrite Hc. destruct (decide (id ∈ nonEmptyIds ids)) as [Hin|Hni].
  - rewrite decide_True by (by rewrite <-Hne).
    by rewrite (occurrences_perm _ _ id Hne).
  - by rewrite decide_False by (by rewrite <-Hne).
Qed.

(** One turn of the counting loop. *)
Lemma counted_cons id ids acc :
  counted ids acc → fits (id :: ids) → counted (id :: ids) (countId id acc).
Proof.
  intros [Hk Hc]. unfold fits, counted, countId. rewrite nonEmptyIds_cons.
  destruct (decide (id ≠ Cache.emptyPointsToId)) as [Hid|Hid].
  - rewrite bool_decide_true by done. cbn [fst snd length]. intros Hfit.
    assert (Hrd : rd 0%N acc.1 id = occurrences (nonEmptyIds ids) id).
    { unfold rd. rewrite Hc. case_decide; [done|].
      by rewrite occurrences_not_elem. }
    pose proof (occurrences_le (nonEmptyIds ids) id).
    split.
    + rewrite u64_add_small by lia. lia.
    + intros id'. rewrite lookup_insert.
      destruct (decide (id = id')) as [<-|Hne].
      * rewrite decide_True by (by left). rewrite Hrd, occurrences_cons.
        rewrite decide_True by done. rewrite u64_add_small by lia.
        f_equal. lia.
      * rewrite Hc, occurrences_cons. rewrite (decide_False (P:=id = id')) by done.
        destruct (decide (id' ∈ nonEmptyIds ids)).
        -- by rewrite decide_True by (by right).
        -- rewrite decide_False; [done|]. by intros [?|?]%elem_of_cons.
  - rewrite bool_decide_false by done. by intros _.
Qed.

Lemma counted_foldr ids' : ∀ ids acc,
  counted ids acc → fits (ids' ++ ids) →
  counted (ids' ++ ids) (foldr countId acc ids').
Proof.
  induction ids' as [|id ids' IH]; intros ids acc Hc Hfit; [done|].
  simpl. apply counted_cons; [|done]. apply IH; [done|].
  by apply fits_cons in Hfit.
Qed.

Lemma countMap_foldr `{Countable K} (m : gmap K nat) acc :
  countMap m acc = foldr countId acc (idsOf m).
Proof.
  unfold countMap, idsOf. rewrite map_fold_foldr.
  induction (map_to_list m) as [|[k id] l IH]; [done|]. simpl. by rewrite IH.
Qed.

Lemma countMap_counted `{Countable K} (m : gmap K nat) ids acc :
  counted ids acc → fits (idsOf m ++ ids) →
  counted (idsOf m ++ ids) (countMap m acc).
Proof. rewrite countMap_foldr. apply counted_foldr. Qed.

(** Several maps, one after the other. *)
Lemma countMaps_counted `{Countable K} (maps : list (gmap K nat)) : ∀ ids acc,
  counted ids acc → fits (concat (idsOf <$> maps) ++ ids) →
  counted (concat (idsOf <$> maps) ++ ids)
          (foldl (λ acc kim, countMap kim acc) acc maps).
Proof.
  induction maps as [|m maps IH]; intros ids acc Hc Hfit; [done|].
  simpl in *. rewrite <-(assoc_L (++)) in *.
  assert (Hp : idsOf m ++ concat (idsOf <$> maps) ++ ids
               ≡ₚ concat (idsOf <$> maps) ++ idsOf m ++ ids).
  { rewrite !(assoc (++)). by rewrite (comm (++) (idsOf m)). }
  apply (counted_perm _ _ _ (symmetry Hp)).
  apply IH.
  - apply countMap_counted; [done|].
    apply (fits_perm _ _ Hp) in Hfit. revert Hfit. unfold fits, nonEmptyIds.
    rewrite !filter_app, !length_app. lia.
  - by apply (fits_perm _ _ Hp).
Qed.

(** *** Sorting and summing the counts *)

#[local] Instance flip_N_le_trans : Transitive (flip N.le).
Proof. intros x y z. unfold flip. lia. Qed.
#[local] Instance flip_N_le_antisymm : AntiSymm (=) (flip N.le).
Proof. intros x y. unfold flip. lia. Qed.
#[local] Instance flip_N_le_total : Total (flip N.le).
Proof. intros x y. unfold flip. lia. Qed.

Lemma sortCounts_Sorted (l : list N) : StronglySorted (flip N.le) (sortCounts l).
Proof. apply StronglySorted_merge_sort; apply _. Qed.

Lemma sortCounts_Permutation (l : list N) : sortCounts l ≡ₚ l.
Proof. apply merge_sort_Permutation. Qed.

Lemma sortCounts_perm (l1 l2 : list N) : l1 ≡ₚ l2 → sortCounts l1 = sortCounts l2.
Proof.
  intros Hp. apply (Sorted_unique (flip N.le)).
  - apply StronglySorted_Sorted, sortCounts_Sorted.
  - apply StronglySorted_Sorted, sortCounts_Sorted.
  - by rewrite !sortCounts_Permutation.
Qed.

Lemma sumN_app (l1 l2 : list N) : sumN (l1 ++ l2) = (sumN l1 + sumN l2)%N.
Proof. induction l1 as [|x l1 IH]; simpl; [done|]. rewrite IH. lia. Qed.

Lemma sumN_perm (l1 l2 : list N) : l1 ≡ₚ l2 → sumN l1 = sumN l2.
Proof.
  induction 1 as [|x l1 l2 _ IH|x y l|l1 l2 l3 _ IH1 _ IH2]; simpl; lia.
Qed.

Lemma sumN_take_le n (l : list N) : (sumN (take n l) ≤ sumN l)%N.
Proof.
  rewrite <-(take_drop n l) at 2. rewrite sumN_app. lia.
Qed.

Lemma foldl_u64_add (l : list N) : ∀ a,
  (a + sumN l < 2 ^ 64)%N → foldl u64_add a l = (a + sumN l)%N.
Proof.
  induction l as [|x l IH]; intros a Hlt; simpl in *; [lia|].
  rewrite u64_add_small by lia. rewrite IH by lia. lia.
Qed.

(** The first [n] of a descending list are the [n] largest: no choice of
    at most [n] of its elements sums to more. *)
Lemma sumN_take_sorted_max (l : list N) :
  StronglySorted (flip N.le) l →
  ∀ n l', l' ⊆+ l → length l' ≤ n → (sumN l' ≤ sumN (take n l))%N.
Proof.
  induction 1 as [|x l Hs IH Hx]; intros n l' Hsub Hlen.
  { apply submseteq_nil_r in Hsub as ->. destruct n; simpl; lia. }
  destruct n as [|n].
  { destruct l'; simpl in *; [lia|lia]. }
  simpl. apply submseteq_cons_r in Hsub as [Hsub|(l'' & Hp & Hsub)].
  - destruct l' as [|y l'']; simpl in *; [lia|].
    assert (Hy : y ∈ l).
    { eapply elem_of_submseteq; [|done]. by left. }
    rewrite Forall_forall in Hx. pose proof (Hx y Hy) as Hle. unfold flip in Hle.
    assert (Hsub' : l'' ⊆+ l) by (by apply submseteq_cons_l in Hsub
                                     as (k & -> & ?); apply submseteq_cons).
    pose proof (IH n l'' Hsub' ltac:(lia)). lia.
  - rewrite (sumN_perm _ _ Hp). simpl.
    assert (length l'' ≤ n).
    { apply Permutation_length in Hp. simpl in Hp. lia. }
    pose proof (IH n l'' Hsub ltac:(done)). lia.
Qed.

Lemma sumN_cons (x : N) (l : list N) : sumN (x :: l) = (x + sumN l)%N.
Proof. done. Qed.

Lemma sumN_indicator_not_elem (ds : list nat) (x : nat) :
  x ∉ ds → sumN ((λ d, if decide (x = d) then 1 else 0)%N <$> ds) = 0%N.
Proof.
  induction ds as [|d ds IH]; [done|].
  intros [Hne Hni]%not_elem_of_cons.
  rewrite fmap_cons, sumN_cons, IH by done. by rewrite decide_False.
Qed.

Lemma sumN_indicator (ds : list nat) (x : nat) :
  NoDup ds → x ∈ ds →
  sumN ((λ d, if decide (x = d) then 1 else 0)%N <$> ds) = 1%N.
Proof.
  induction 1 as [|d ds Hd Hnd IH]; [by intros ?%elem_of_nil|].
  rewrite fmap_cons, sumN_cons. intros [->|Hin]%elem_of_cons.
  - by rewrite decide_True, sumN_indicator_not_elem.
  - rewrite decide_False by (by intros ->). by rewrite IH.
Qed.

(** The counts of the distinct IDs add up to the number of entries. *)
Lemma sumN_occurrences (ids ds : list nat) :
  NoDup ds → (∀ x, x ∈ ids → x ∈ ds) →
  sumN (occurrences ids <$> ds) = N.of_nat (length ids).
Proof.
  intros Hnd. induction ids as [|x ids IH]; intros Hin.
  - clear. induction ds as [|d ds IHd]; [done|].
    by rewrite fmap_cons, sumN_cons, IHd.
  - assert (Hsplit : ∀ l : list nat,
      sumN (occurrences (x :: ids) <$> l)
      = (sumN ((λ d, if decide (x = d) then 1 else 0)%N <$> l)
         + sumN (occurrences ids <$> l))%N).
    { induction l as [|d l IHl]; [done|].
      rewrite !fmap_cons, !sumN_cons, IHl, occurrences_cons. lia. }
    rewrite Hsplit, sumN_indicator, IH; [simpl; lia| |done|].
    + intros y Hy. apply Hin. by right.
    + apply Hin. by left.
Qed.

(** From an exact count, [mostCommon] returns what [topN] is to return. *)
Lemma mostCommon_counted n ids acc :
  counted ids acc → fits ids → mostCommon n acc = topN_spec n ids.
Proof.
  intros [Hk Hc] Hfit. unfold mostCommon, topN_spec.
  set (ne := nonEmptyIds ids) in *.
  set (pairs := (λ id, (id, occurrences ne id)) <$> remove_dups ne).
  assert (Hfst : pairs.*1 = remove_dups ne).
  { unfold pairs. rewrite <-list_fmap_compose. apply list_fmap_id. }
  assert (Hsnd : pairs.*2 = occurrences ne <$> remove_dups ne).
  { unfold pairs. by rewrite <-list_fmap_compose. }
  assert (Hnd : NoDup pairs.*1) by (rewrite Hfst; apply NoDup_remove_dups).
  assert (Hmap : acc.1 = list_to_map pairs).
  { apply map_eq. intros id. rewrite Hc. case_decide as Hin.
    - symmetry. apply elem_of_list_to_map_1; [done|].
      apply list_elem_of_fmap. exists id. split; [done|].
      by apply elem_of_remove_dups.
    - symmetry. apply not_elem_of_list_to_map_1.
      rewrite Hfst. by rewrite elem_of_remove_dups. }
  assert (Hcounts : (map_to_list acc.1).*2 ≡ₚ occurrences ne <$> remove_dups ne).
  { rewrite Hmap, <-Hsnd. by rewrite (map_to_list_to_map pairs Hnd). }
  rewrite (sortCounts_perm _ _ Hcounts), Hk. f_equal.
  set (sorted := sortCounts (occurrences ne <$> remove_dups ne)).
  pose proof (sumN_take_le n sorted) as Hle.
  assert (sumN sorted = N.of_nat (length ne)) as Hsum.
  { unfold sorted. rewrite (sumN_perm _ _ (sortCounts_Permutation _)).
    apply sumN_occurrences; [apply NoDup_remove_dups|].
    intros x. by rewrite elem_of_remove_dups. }
  unfold fits in Hfit. fold ne in Hfit.
  rewrite foldl_u64_add by lia. lia.
Qed.

End counting.

(** ** Shared facts on the incremental transfers and on absorbed unions *)

Section inc_more.
Context `{Countable K}.

Lemma inc_runUpdate_shape c (s : Inc.t K) u :
  inc_guard s u = true →
  let r := Inc.runUpdate c s u in
  let s1 := if r.1.1 then inc_mark (inc_consume s u) u else inc_consume s u in
  (r.1.1, r.1.2, Inc.base r.2) = DF.runUpdate c (Inc.base s) u ∧
  Inc.inUpdatedVarMap r.2 = Inc.inUpdatedVarMap s1 ∧
  Inc.outUpdatedVarMap r.2 = Inc.outUpdatedVarMap s1.
Proof.
  intros Hg r. subst r. rewrite inc_runUpdate_eq, Hg. cbv zeta.
  rewrite base_consume.
  destruct (DF.runUpdate c (Inc.base s) u) as [[b c'] d]. cbn [fst snd].
  destruct b; [|done]. rewrite base_mark. by destruct u.
Qed.

Lemma outMap_removeIn (s : Inc.t K) l k :
  Inc.outUpdatedVarMap (Inc.removeVarFromDFInUpdatedSet s l k)
  = Inc.outUpdatedVarMap s.
Proof. unfold Inc.removeVarFromDFInUpdatedSet. by case_match. Qed.

Lemma varHasNewDFInPts_iff (s s' : Inc.t K) l k (P : Prop) :
  (Inc.isInDirty s' l k ↔ P) → (Inc.varHasNewDFInPts s' l k = true ↔ P).
Proof. intros <-. apply varHasNewDFInPts_true. Qed.

(** The transfers into an IN slot: no flag is consumed, and the destination
    is flagged when the call returns true. *)
Lemma inc_in_transfer_flags c (s : Inc.t K) u dL dK :
  inc_guard s u = true →
  inc_consume s u = s →
  (∀ s0, inc_mark s0 u = Inc.setVarDFInSetUpdated s0 dL dK) →
  let r := Inc.runUpdate c s u in
  (r.1.1, r.1.2, Inc.base r.2) = DF.runUpdate c (Inc.base s) u ∧
  Inc.outUpdatedVarMap r.2 = Inc.outUpdatedVarMap s ∧
  (∀ l k, Inc.varHasNewDFInPts r.2 l k = true
          ↔ Inc.varHasNewDFInPts s l k = true
            ∨ (r.1.1 = true ∧ (l, k) = (dL, dK))).
Proof.
  intros Hg Hc Hm r.
  destruct (inc_runUpdate_shape c s u Hg) as (Hbase & Hin & Hout).
  fold r in Hbase, Hin, Hout. cbv zeta in Hin, Hout.
  rewrite Hc, Hm in Hin, Hout.
  split; [done|]. split; [by destruct (r.1.1)|].
  intros l k. rewrite !varHasNewDFInPts_true. unfold Inc.isInDirty at 1.
  rewrite Hin. destruct (r.1.1).
  - fold (Inc.isInDirty (Inc.setVarDFInSetUpdated s dL dK) l k).
    rewrite isInDirty_set. split; intros [?|Hx]; [by left|right|by left|right].
    + by injection Hx as <- <-.
    + destruct Hx as [_ [= -> ->]]. done.
  - fold (Inc.isInDirty s l k). split; [by left|]. by intros [?|[? _]].
Qed.

End inc_more.

Section basic_prefix.
Context `{Countable K}.

Lemma basic_inv_prefix c c' (s : B.t K) :
  basic_inv (c, s) → c `prefix_of` c' → Cache.wf c' → basic_inv (c', s).
Proof.
  intros (Hwf & Hv & Hr & Hc) Hp Hwf'. simpl in *. split_and!; simpl; try done.
  - by eapply basic_valid_prefix.
  - intros k d. rewrite (ptsOf_prefix c c') by done. apply Hc.
Qed.

Lemma basic_step_prefix (cs : Cache.t * B.t K) (o : B.op K) :
  basic_inv cs → cs.1 `prefix_of` (B.step cs o).1.
Proof.
  destruct cs as [c s]. intros (Hwf & Hv & _). simpl in *.
  destruct o as [u|k e|k| |k|d]; simpl; try done.
  - destruct (B.runUpdate c s u) as [[b c'] s'] eqn:E.
    by apply basic_runUpdate_spec in E as (Hp & _).
  - destruct (B.clearPts c s k e) as [c' s'] eqn:E.
    by apply clearPts_spec in E as (Hp & _).
Qed.

Lemma unionPtsFromId_as_data c (s : B.t K) k id :
  Cache.wf c → Cache.valid c id →
  B.unionPtsFromId c s k id = B.unionPtsData c s k (Cache.getActualPts c id).
Proof. intros Hwf Hv. unfold B.unionPtsData. by rewrite emplacePts_known. Qed.

Lemma union_absorbed_iff (c c' : Cache.t) (i j : nat) (S : gset nat) :
  Cache.wf c' → c `prefix_of` c' → Cache.valid c i → Cache.valid c' j →
  Cache.getActualPts c' j = Cache.getActualPts c i ∪ S →
  bool_decide (j ≠ i) = false ↔ S ⊆ Cache.getActualPts c i.
Proof.
  intros Hwf Hp Hi Hj Hset. rewrite bool_decide_eq_false.
  rewrite (id_change_iff_set_change c c') by done. rewrite Hset. split.
  - intros Hn d Hd.
    destruct (decide (d ∈ Cache.getActualPts c i)) as [|Hnd]; [done|].
    destruct Hn. intros Heq. apply Hnd. rewrite <-Heq. set_solver.
  - intros Hsub Hn. apply Hn. set_solver.
Qed.

End basic_prefix.

(** * The claims of the specification *)

(** C1. For every store variant, every mutating points-to operation returns
    true exactly when the ID of its destination differs from the ID before
    the call, and exactly when the set behind the ID differs: [addPts] and
    [unionPts] in all overloads of the basic, diff, data-flow, incremental
    and versioned stores, the transfers of the two data-flow stores, and
    [updateAllDFOutFromIn], whose destinations are the OUT slots of its
    location.  The cache is well-formed and the IDs of the store are its
    own. *)
Theorem C1_change_flag_exact `{Countable K, Countable VK} (c : Cache.t) :
  Cache.wf c →
  (∀ (s : B.t K) u, basic_valid c s →
     change_flag_exact B.runUpdate B.dstOf B.idOf c s u) ∧
  (∀ (s : Diff.t K) u, basic_valid c (Diff.persPTData s) →
     change_flag_exact Diff.runUpdate B.dstOf Diff.idOf c s u) ∧
  (∀ (s : DF.t K) u, df_valid c s →
     change_flag_exact DF.runUpdate DF.dstOf DF.deref c s u) ∧
  (∀ (s : Inc.t K) u, inc_valid c s →
     change_flag_exact Inc.runUpdate DF.dstOf (λ s, DF.deref (Inc.base s)) c s u) ∧
  (∀ (s : Ver.t K VK) u, ver_valid c s →
     change_flag_exact Ver.runUpdate Ver.dstOf Ver.idOf c s u) ∧
  (∀ (s : DF.t K) l v su, df_valid c s →
     out_flag_exact DF.deref c s l (DF.updateAllDFOutFromIn c s l v su)) ∧
  (∀ (s : Inc.t K) l v su, inc_valid c s →
     out_flag_exact (λ s, DF.deref (Inc.base s)) c s l
       (Inc.updateAllDFOutFromIn c s l v su)).
Proof.
  intros Hwf. split_and!.
  - intros s u Hv. unfold change_flag_exact.
    destruct (B.runUpdate c s u) as [[b c'] s'] eqn:E.
    apply basic_runUpdate_spec in E as (Hp & Hwf' & Hv' & _ & _ & Hb & _);
      try done.
    by apply flag_exact.
  - intros s u Hv. unfold change_flag_exact, Diff.runUpdate.
    destruct (B.runUpdate c (Diff.persPTData s) u) as [[b c'] s'] eqn:E.
    apply basic_runUpdate_spec in E as (Hp & Hwf' & Hv' & _ & _ & Hb & _);
      try done.
    unfold Diff.idOf. cbn [Diff.withBase Diff.persPTData]. by apply flag_exact.
  - intros s u Hv. unfold change_flag_exact.
    destruct (DF.runUpdate c s u) as [[b c'] s'] eqn:E.
    apply df_runUpdate_spec in E as (Hp & Hwf' & Hv' & _ & _ & Hb); try done.
    by apply flag_exact.
  - intros s u Hv. unfold change_flag_exact.
    destruct (Inc.runUpdate c s u) as [[b c'] s'] eqn:E.
    apply inc_runUpdate_spec in E as (Hp & Hwf' & Hv' & _ & Hb); try done.
    by apply flag_exact; try done; try apply Hv; try apply Hv'.
  - intros s u Hv. unfold change_flag_exact.
    destruct (Ver.runUpdate c s u) as [[b c'] s'] eqn:E.
    apply ver_runUpdate_spec in E as (Hp & Hwf' & Hv' & Hb); try done.
    apply flag_exact; try done.
    + destruct Hv as [Ht Ha]. destruct (Ver.dstOf u); [apply Ht|apply Ha].
    + destruct Hv' as [Ht Ha]. destruct (Ver.dstOf u); [apply Ht|apply Ha].
  - intros s l v su Hv. by apply df_updateAllDFOutFromIn_flag.
  - intros s l v su Hv. by apply inc_updateAllDFOutFromIn_flag.
Qed.

Lemma C1_change_flag_exact_witness :
  let cs := foldl Inc.step (Cache.new, Inc.new (K:=nat) true)
              [Inc.Update (DF.Base (B.AddPts 0 1));
               Inc.Update (DF.Base (B.AddPts 1 2));
               Inc.Update (DF.UpdateATVPts 0 8 10);
               Inc.Update (DF.UpdateATVPts 1 8 11);
               Inc.Update (DF.UpdateDFInFromOut 8 10 9 10);
               Inc.Update (DF.UpdateDFInFromOut 8 11 9 11)] in
  let c := cs.1 in
  (Cache.wf c ∧ inc_valid c cs.2 ∧ ver_valid c (Ver.new (K:=nat) (VK:=nat * nat) true)) ∧
  change_flag_exact B.runUpdate B.dstOf B.idOf c
    (DF.persPTData (Inc.base cs.2)) (B.UnionPts 0 1) ∧
  change_flag_exact DF.runUpdate DF.dstOf DF.deref c
    (Inc.base cs.2) (DF.UpdateDFOutFromIn 9 10 9 10) ∧
  change_flag_exact Inc.runUpdate DF.dstOf (λ s, DF.deref (Inc.base s)) c
    cs.2 (DF.UpdateDFInFromIn 9 10 9 11) ∧
  change_flag_exact Ver.runUpdate Ver.dstOf Ver.idOf c
    (Ver.new (K:=nat) (VK:=nat * nat) true) (Ver.AddPtsV (5, 1) 2) ∧
  out_flag_exact (λ s, DF.deref (Inc.base s)) c cs.2 9
    (Inc.updateAllDFOutFromIn c cs.2 9 10 true).
Proof.
  intros cs c.
  destruct (inc_wf_inv_run (Cache.new, Inc.new (K:=nat) true)
              [Inc.Update (DF.Base (B.AddPts 0 1));
               Inc.Update (DF.Base (B.AddPts 1 2));
               Inc.Update (DF.UpdateATVPts 0 8 10);
               Inc.Update (DF.UpdateATVPts 1 8 11);
               Inc.Update (DF.UpdateDFInFromOut 8 10 9 10);
               Inc.Update (DF.UpdateDFInFromOut 8 11 9 11)]
              (inc_wf_inv_new _ _ wf_new)) as [Hwf Hv].
  assert (Hver : ver_valid c (Ver.new (K:=nat) (VK:=nat * nat) true))
    by (by apply ver_valid_new).
  destruct (C1_change_flag_exact (K:=nat) (VK:=nat * nat) c Hwf)
    as (Hb & _ & Hdf & Hinc & Hv' & _ & Hall).
  split; [by split_and!|]. split_and!.
  - apply Hb. by apply df_valid_basic.
  - by apply Hdf.
  - by apply Hinc.
  - by apply Hv'.
  - by apply Hall.
Defined.

(** C2. In a basic store built with reverse points-to, after any sequence of
    [addPts], [unionPts] (either overload), [clearPts], [clearFullPts] (and
    of [clear], [getPts], [getRevPts]), a datum is in [getPts(k)] exactly
    when [k] is in [getRevPts] of that datum. *)
Theorem C2_reverse_consistency `{Countable K} (c : Cache.t) (ops : list (B.op K)) :
  Cache.wf c →
  let cs := foldl B.step (c, B.new true) ops in
  ∀ k d, d ∈ (B.getPts cs.1 cs.2 k).1
         ↔ ∃ r, B.getRevPts cs.2 d = Some r ∧ k ∈ r.1.
Proof.
  intros Hwf cs k d.
  destruct (basic_inv_run (c, B.new true) ops (basic_inv_new c Hwf))
    as (_ & _ & Hr & Hc).
  fold cs in Hr, Hc. rewrite getRevPts_spec, Hr.
  change ((B.getPts cs.1 cs.2 k).1) with (B.ptsOf cs.1 cs.2 k).
  rewrite (Hc k d). split.
  - intros Hk. eexists. split; [done|]. done.
  - by intros (r & [= <-] & Hk).
Qed.

Lemma C2_reverse_consistency_witness :
  Cache.wf Cache.new ∧
  let cs := foldl B.step (Cache.new, B.new true)
              [B.Update (B.AddPts 0 1); B.Update (B.AddPts 0 2);
               B.Update (B.UnionPts 1 0); B.ClearPts 0 1;
               B.Update (B.UnionPtsData 2 {[1; 3]}); B.ClearFullPts 1] in
  ∀ k d, d ∈ (B.getPts cs.1 cs.2 k).1
         ↔ ∃ r, B.getRevPts cs.2 d = Some r ∧ k ∈ r.1.
Proof.
  split; [split; [reflexivity|apply NoDup_singleton]|].
  apply (C2_reverse_consistency (K:=nat)).
  split; [reflexivity|apply NoDup_singleton].
Defined.

(** C3, as amended. [computeDiffPts(k, S)] leaves in [getDiffPts(k)] the set
    [S] minus what was propagated for [k] before: the diff is disjoint from
    the previously propagated set, and together they make [S] joined with the
    previously propagated set, which is [S] itself when that set was within
    [S].  [propa[k]] becomes [S], the call returns true exactly when the diff
    is non-empty, and the same call again returns false with an empty diff. *)
Theorem C3_diff_law `{Countable K} (c : Cache.t) (s : Diff.t K) (k : K)
    (S : gset nat) (b : bool) (c1 : Cache.t) (s1 : Diff.t K) :
  Cache.wf c → propa_valid c s →
  Diff.computeDiffPts c s k S = (b, c1, s1) →
  let P := Diff.propaOf c s k in
  let D := (Diff.getDiffPts c1 s1 k).1 in
  D = S ∖ P ∧ D ∩ P = ∅ ∧ D ∪ P = S ∪ P ∧ (P ⊆ S → D ∪ P = S) ∧
  Diff.propaOf c1 s1 k = S ∧
  (b = true ↔ D ≠ ∅) ∧
  ∃ s2, Diff.computeDiffPts c1 s1 k S = (false, c1, s2) ∧
        (Diff.getDiffPts c1 s2 k).1 = ∅.
Proof.
  intros Hwf Hv Hc P D.
  pose proof (computeDiffPts_spec _ _ _ _ _ _ _ Hwf Hv Hc)
    as (_ & _ & _ & Hd & Hp & Hb).
  pose proof (computeDiffPts_again _ _ _ _ _ _ _ Hwf Hv Hc)
    as (s2 & Hc2 & Hd2 & _).
  subst D. rewrite getDiffPts_diffOf. fold P in Hd.
  split_and!; try done.
  - rewrite Hd. set_solver.
  - rewrite Hd. apply set_eq. intros x.
    rewrite !elem_of_union, elem_of_difference.
    destruct (decide (x ∈ P)); tauto.
  - intros Hsub. rewrite Hd. apply set_eq. intros x.
    rewrite elem_of_union, elem_of_difference.
    destruct (decide (x ∈ P)); [|tauto]. split; [|tauto].
    intros _. by apply Hsub.
  - by exists s2.
Qed.

Lemma C3_diff_law_witness :
  let c := Cache.new in
  let s := Diff.new (K:=nat) true in
  let r := Diff.computeDiffPts c s 0 {[1; 2]} in
  let P := Diff.propaOf c s 0 in
  let D := (Diff.getDiffPts r.1.2 r.2 0).1 in
  (Cache.wf c ∧ propa_valid c s ∧
   Diff.computeDiffPts c s 0 {[1; 2]} = (r.1.1, r.1.2, r.2)) ∧
  D = {[1; 2]} ∖ P ∧ D ∩ P = ∅ ∧ D ∪ P = {[1; 2]} ∪ P ∧
  (P ⊆ {[1; 2]} → D ∪ P = {[1; 2]}) ∧
  Diff.propaOf r.1.2 r.2 0 = {[1; 2]} ∧
  (r.1.1 = true ↔ D ≠ ∅) ∧
  ∃ s2, Diff.computeDiffPts r.1.2 r.2 0 {[1; 2]} = (false, r.1.2, s2) ∧
        (Diff.getDiffPts r.1.2 s2 0).1 = ∅.
Proof.
  intros c s r.
  assert (Hwf : Cache.wf c) by (split; [reflexivity|apply NoDup_singleton]).
  assert (Hv : propa_valid c s) by (by apply propa_valid_new).
  split; [by split_and!|].
  by apply (C3_diff_law c s 0 {[1; 2]} r.1.1 r.1.2 r.2).
Defined.

(** C3 as stated fails: with [{1}] propagated for a key, [computeDiffPts]
    of that key with [{2}] gives the diff [{2}], and [{2} ∪ {1}] is not
    [{2}]. *)
Lemma C3_diff_law_counterexample :
  let r1 := Diff.computeDiffPts Cache.new (Diff.new (K:=nat) true) 0 {[1]} in
  let propa_before := Diff.propaOf r1.1.2 r1.2 0 in
  let r2 := Diff.computeDiffPts r1.1.2 r1.2 0 {[2]} in
  ¬ ((Diff.getDiffPts r2.1.2 r2.2 0).1 ∪ propa_before = {[2]}).
Proof.
  intros r1 propa_before r2 Heq.
  assert (1 ∈ ({[2]} : gset nat)) as Hin.
  { rewrite <-Heq. apply elem_of_union_r. vm_compute. reflexivity. }
  by apply elem_of_singleton in Hin.
Qed.

(** C4. [clear()] of the data-flow store, which the incremental store
    inherits, empties the maps of the embedded basic store and leaves the
    cache alone, but it leaves [dfInPtsMap] and [dfOutPtsMap], and the
    updated-variable sets of the incremental store, exactly as they were:
    after one transfer into IN of location 2, [hasDFInSet(2)] is still true
    after [clear()], and the variable is still flagged. *)
Theorem C4_clear_leaves_df_maps :
  (∀ `{Countable K} (s : DF.t K),
     B.ptsMap (DF.persPTData (DF.clear s)) = ∅ ∧
     B.revPtsMap (DF.persPTData (DF.clear s)) = ∅ ∧
     DF.dfInPtsMap (DF.clear s) = DF.dfInPtsMap s ∧
     DF.dfOutPtsMap (DF.clear s) = DF.dfOutPtsMap s) ∧
  (∀ `{Countable K} (s : Inc.t K),
     Inc.inUpdatedVarMap (Inc.clear s) = Inc.inUpdatedVarMap s ∧
     Inc.outUpdatedVarMap (Inc.clear s) = Inc.outUpdatedVarMap s) ∧
  let cs := foldl Inc.step (Cache.new, Inc.new (K:=nat) true)
              [Inc.Update (DF.Base (B.AddPts 0 1));
               Inc.Update (DF.UpdateATVPts 0 1 0);
               Inc.Update (DF.UpdateDFInFromOut 1 0 2 0)] in
  DF.hasDFInSet (DF.clear (Inc.base cs.2)) 2 = true ∧
  DF.hasDFOutSet (DF.clear (Inc.base cs.2)) 1 = true ∧
  Inc.hasDFInSet (Inc.clear cs.2) 2 = true ∧
  Inc.varHasNewDFInPts (Inc.clear cs.2) 2 0 = true.
Proof.
  split; [done|]. split; [done|]. vm_compute. done.
Qed.

(** C5. In the data-flow store, [updateAllDFOutFromIn(l, v, true)] leaves the
    entry of [v] in [dfOut[l]] untouched; every other key [k] with an entry
    in [dfIn[l]] gets [dfOut[l][k] := dfOut[l][k] ∪ dfIn[l][k]], so that
    afterwards [dfOut[l][k]] contains [dfIn[l][k]]; and the call returns true
    exactly when the ID of one of these destinations changed. *)
Theorem C5_strong_update `{Countable K} (c : Cache.t) (s : DF.t K) (l : nat)
    (v : K) (b : bool) (c' : Cache.t) (s' : DF.t K) :
  Cache.wf c → df_valid c s →
  DF.updateAllDFOutFromIn c s l v true = (b, c', s') →
  lookup2 (DF.dfOutPtsMap s') l v = lookup2 (DF.dfOutPtsMap s) l v ∧
  (∀ k, k ≠ v → DF.hasDFInSetVar s l k = true →
        DF.outOf c' s' l k = DF.outOf c s l k ∪ DF.inOf c s l k ∧
        DF.inOf c' s' l k ⊆ DF.outOf c' s' l k) ∧
  (b = true ↔ ∃ k, k ≠ v ∧ DF.hasDFInSetVar s l k = true ∧
                   DF.deref s' (DF.OutRef l k) ≠ DF.deref s (DF.OutRef l k)).
Proof.
  intros Hwf Hv. unfold DF.updateAllDFOutFromIn.
  assert (Hsk : ∀ k, skipped true v k = false ↔ k ≠ v).
  { intros k. unfold skipped. simpl. apply bool_decide_eq_false. }
  destruct (DF.hasDFInSet s l) eqn:Hhas.
  - intros Hu.
    apply df_outFromIn_loop in Hu
      as (Hp & Hwf' & Hv' & Hoth & Hpts & Hb & Hraw);
      [|apply NoDup_fst_map_to_list|done..].
    split_and!.
    + apply Hraw. intros k _ Hk%Hsk [= ->]. done.
    + intros k Hk Hin. apply hasDFInSetVar_keys in Hin.
      pose proof (Hpts k Hin (proj2 (Hsk k) Hk)) as Hout. split; [done|].
      rewrite Hout. unfold DF.inOf. rewrite Hoth by done.
      rewrite (getActualPts_prefix c c') by (done || apply Hv). set_solver.
    + rewrite Hb. split.
      * intros [?|(k & Hin & Hk%Hsk & Hne)]; [done|].
        exists k. by rewrite hasDFInSetVar_keys.
      * intros (k & Hk%Hsk & Hin%hasDFInSetVar_keys & Hne). right. by exists k.
  - intros [= <- <- <-]. split_and!; try done.
    + intros k _ Hin%hasDFInSetVar_hasDFInSet. congruence.
    + split; [done|]. by intros (k & _ & _ & ?).
Qed.

Lemma C5_strong_update_witness :
  let cs := foldl Inc.step (Cache.new, Inc.new (K:=nat) true)
              [Inc.Update (DF.Base (B.AddPts 0 1));
               Inc.Update (DF.Base (B.AddPts 1 2));
               Inc.Update (DF.UpdateATVPts 0 8 10);
               Inc.Update (DF.UpdateATVPts 1 8 11);
               Inc.Update (DF.UpdateDFInFromOut 8 10 9 10);
               Inc.Update (DF.UpdateDFInFromOut 8 11 9 11)] in
  let c := cs.1 in
  let s := Inc.base cs.2 in
  let r := DF.updateAllDFOutFromIn c s 9 10 true in
  (Cache.wf c ∧ df_valid c s ∧
   DF.updateAllDFOutFromIn c s 9 10 true = (r.1.1, r.1.2, r.2)) ∧
  lookup2 (DF.dfOutPtsMap r.2) 9 10 = lookup2 (DF.dfOutPtsMap s) 9 10 ∧
  (∀ k, k ≠ 10 → DF.hasDFInSetVar s 9 k = true →
        DF.outOf r.1.2 r.2 9 k = DF.outOf c s 9 k ∪ DF.inOf c s 9 k ∧
        DF.inOf r.1.2 r.2 9 k ⊆ DF.outOf r.1.2 r.2 9 k) ∧
  (r.1.1 = true ↔ ∃ k, k ≠ 10 ∧ DF.hasDFInSetVar s 9 k = true ∧
                   DF.deref r.2 (DF.OutRef 9 k) ≠ DF.deref s (DF.OutRef 9 k)).
Proof.
  intros cs c s r.
  destruct (inc_wf_inv_run (Cache.new, Inc.new (K:=nat) true)
              [Inc.Update (DF.Base (B.AddPts 0 1));
               Inc.Update (DF.Base (B.AddPts 1 2));
               Inc.Update (DF.UpdateATVPts 0 8 10);
               Inc.Update (DF.UpdateATVPts 1 8 11);
               Inc.Update (DF.UpdateDFInFromOut 8 10 9 10);
               Inc.Update (DF.UpdateDFInFromOut 8 11 9 11)]
              (inc_wf_inv_new _ _ wf_new)) as [Hwf Hv].
  split; [by split_and!|].
  by apply (C5_strong_update c s 9 10 r.1.1 r.1.2 r.2).
Defined.

(** C6. In the incremental store, [updateDFInFromIn] with a source that is
    not flagged in IN returns false and leaves the cache and the whole store,
    so also [dfIn[dL][dK]], as they were, whatever the source and the
    destination hold.  With a flagged source the call is the union of the
    data-flow store: it returns what that union returns and leaves the maps
    that union leaves, so [dfIn[dL][dK]] becomes its union with
    [dfIn[sL][sK]]; it returns true exactly when the union changed the
    destination's ID, and then [(dL, dK)] is flagged in IN; no flag is
    removed, and nothing else is flagged. *)
Theorem C6_incremental_skip `{Countable K} (c : Cache.t) (s : Inc.t K)
    (sL : nat) (sK : K) (dL : nat) (dK : K) :
  (Inc.varHasNewDFInPts s sL sK = false →
   Inc.updateDFInFromIn c s sL sK dL dK = (false, c, s)) ∧
  (∀ b c' s',
     Inc.varHasNewDFInPts s sL sK = true →
     Inc.updateDFInFromIn c s sL sK dL dK = (b, c', s') →
     (let r := DF.updateDFInFromIn c (Inc.base s) sL sK dL dK in
      b = r.1.1 ∧ c' = r.1.2 ∧ Inc.base s' = r.2) ∧
     (b = true ↔ DF.deref (Inc.base s') (DF.InRef dL dK)
                 ≠ DF.deref (Inc.base s) (DF.InRef dL dK)) ∧
     (b = true → Inc.varHasNewDFInPts s' dL dK = true) ∧
     (∀ l k, Inc.varHasNewDFInPts s' l k = true
             ↔ Inc.varHasNewDFInPts s l k = true
               ∨ (b = true ∧ (l, k) = (dL, dK))) ∧
     Inc.outUpdatedVarMap s' = Inc.outUpdatedVarMap s ∧
     (Cache.wf c → inc_valid c s →
      DF.inOf c' (Inc.base s') dL dK
        = DF.inOf c (Inc.base s) dL dK ∪ DF.inOf c (Inc.base s) sL sK)).
Proof.
  split.
  - intros Hd. unfold Inc.updateDFInFromIn. by rewrite Hd.
  - intros b c' s' Hd Hu.
    destruct (inc_in_transfer_flags c s (DF.UpdateDFInFromIn sL sK dL dK)
                dL dK Hd eq_refl (λ _, eq_refl)) as (Hbase & Hout & Hflags).
    change (Inc.runUpdate c s (DF.UpdateDFInFromIn sL sK dL dK))
      with (Inc.updateDFInFromIn c s sL sK dL dK) in Hbase, Hout, Hflags.
    rewrite Hu in Hbase, Hout, Hflags. cbn [fst snd] in Hbase, Hout, Hflags.
    change (DF.runUpdate c (Inc.base s) (DF.UpdateDFInFromIn sL sK dL dK))
      with (DF.updateDFInFromIn c (Inc.base s) sL sK dL dK) in Hbase.
    pose proof (inc_runUpdate_flag c s (DF.UpdateDFInFromIn sL sK dL dK)
                  b c' s' Hu) as [Hb _].
    cbn [DF.dstOf] in Hb.
    split_and!; [by rewrite <-Hbase..| | |done|done|].
    + rewrite Hb. apply bool_decide_eq_true.
    + intros Hbt. apply Hflags. right. by split.
    + intros Hwf Hv.
      destruct (df_runUpdate_spec c (Inc.base s)
                  (DF.UpdateDFInFromIn sL sK dL dK) b c' (Inc.base s')
                  Hwf Hv (eq_sym Hbase)) as (_ & _ & _ & Hdst & _).
      exact Hdst.
Qed.

Lemma C6_incremental_skip_witness :
  let cs := foldl Inc.step (Cache.new, Inc.new (K:=nat) true)
              [Inc.Update (DF.Base (B.AddPts 0 1));
               Inc.Update (DF.UpdateATVPts 0 8 10);
               Inc.Update (DF.UpdateAllDFInFromOut 8 10 1 5);
               Inc.Update (DF.UpdateTLVPts 1 5 3)] in
  let cs' := foldl Inc.step (Cache.new, Inc.new (K:=nat) true)
              [Inc.Update (DF.Base (B.AddPts 0 1));
               Inc.Update (DF.UpdateATVPts 0 8 10);
               Inc.Update (DF.UpdateAllDFInFromOut 8 10 1 5)] in
  let r := Inc.updateDFInFromIn cs'.1 cs'.2 1 5 2 5 in
  let d := DF.updateDFInFromIn cs'.1 (Inc.base cs'.2) 1 5 2 5 in
  (Inc.varHasNewDFInPts cs.2 1 5 = false ∧
   DF.inOf cs.1 (Inc.base cs.2) 1 5 ≠ DF.inOf cs.1 (Inc.base cs.2) 2 5 ∧
   Inc.updateDFInFromIn cs.1 cs.2 1 5 2 5 = (false, cs.1, cs.2)) ∧
  (Inc.varHasNewDFInPts cs'.2 1 5 = true ∧
   Cache.wf cs'.1 ∧ inc_valid cs'.1 cs'.2 ∧
   (r.1.1 = d.1.1 ∧ r.1.2 = d.1.2 ∧ Inc.base r.2 = d.2) ∧
   r.1.1 = true ∧ Inc.varHasNewDFInPts r.2 2 5 = true ∧
   DF.inOf r.1.2 (Inc.base r.2) 2 5
     = DF.inOf cs'.1 (Inc.base cs'.2) 2 5 ∪ DF.inOf cs'.1 (Inc.base cs'.2) 1 5).
Proof.
  intros cs cs' r d.
  destruct (C6_incremental_skip cs.1 cs.2 1 5 2 5) as [Hskip _].
  destruct (C6_incremental_skip cs'.1 cs'.2 1 5 2 5) as [_ Hrun].
  destruct (inc_wf_inv_run (Cache.new, Inc.new (K:=nat) true)
              [Inc.Update (DF.Base (B.AddPts 0 1));
               Inc.Update (DF.UpdateATVPts 0 8 10);
               Inc.Update (DF.UpdateAllDFInFromOut 8 10 1 5)]
              (inc_wf_inv_new _ _ wf_new)) as [Hwf Hv].
  split.
  - split; [reflexivity|]. split; [|by apply Hskip].
    intros Heq. assert (1 ∈ DF.inOf cs.1 (Inc.base cs.2) 2 5) as Hin.
    { rewrite <-Heq. vm_compute. reflexivity. }
    vm_compute in Hin. discriminate Hin.
  - destruct (Hrun r.1.1 r.1.2 r.2 eq_refl eq_refl)
      as (Heq & _ & Hmark & _ & _ & Hset).
    split; [reflexivity|]. split; [exact Hwf|]. split; [exact Hv|].
    split; [exact Heq|]. split; [reflexivity|].
    split; [exact (Hmark eq_refl)|exact (Hset Hwf Hv)].
Defined.

(** C7. In the incremental store, [updateDFOutFromIn] with a source that is
    not flagged in IN returns false and changes nothing.  With a flagged
    source the flag is removed first and the union runs on the store without
    it, so the source is no longer flagged afterwards whatever the union
    did; the call returns true exactly when the union changed the
    destination's ID, and then [(dL, dK)] is flagged in OUT, while otherwise
    the OUT flags stay as they were. *)
Theorem C7_out_from_in_consumes_flag `{Countable K} (c : Cache.t) (s : Inc.t K)
    (sL : nat) (sK : K) (dL : nat) (dK : K) :
  (Inc.varHasNewDFInPts s sL sK = false →
   Inc.updateDFOutFromIn c s sL sK dL dK = (false, c, s)) ∧
  (∀ b c' s',
     Inc.varHasNewDFInPts s sL sK = true →
     Inc.updateDFOutFromIn c s sL sK dL dK = (b, c', s') →
     (let s0 := Inc.removeVarFromDFInUpdatedSet s sL sK in
      let r := DF.updateDFOutFromIn c (Inc.base s0) sL sK dL dK in
      b = r.1.1 ∧ c' = r.1.2 ∧ Inc.base s' = r.2 ∧
      Inc.inUpdatedVarMap s' = Inc.inUpdatedVarMap s0) ∧
     Inc.varHasNewDFInPts s' sL sK = false ∧
     (b = true ↔ DF.deref (Inc.base s') (DF.OutRef dL dK)
                 ≠ DF.deref (Inc.base s) (DF.OutRef dL dK)) ∧
     (b = true → Inc.varHasNewDFOutPts s' dL dK = true) ∧
     (b = false → Inc.outUpdatedVarMap s' = Inc.outUpdatedVarMap s)).
Proof.
  split.
  - intros Hd. unfold Inc.updateDFOutFromIn. by rewrite Hd.
  - intros b c' s' Hd Hu.
    pose proof (inc_runUpdate_flag c s (DF.UpdateDFOutFromIn sL sK dL dK)
                  b c' s' Hu) as [Hb _].
    pose proof (inc_updateDFOutFromIn_dirty _ _ _ _ _ _ _ _ _ Hu) as Hdirty.
    simpl in Hb.
    assert (Hrm : Inc.outUpdatedVarMap (Inc.removeVarFromDFInUpdatedSet s sL sK)
                  = Inc.outUpdatedVarMap s).
    { unfold Inc.removeVarFromDFInUpdatedSet. by case_match. }
    unfold Inc.updateDFOutFromIn in Hu. rewrite Hd in Hu. unfold Inc.liftDF in Hu.
    destruct (DF.updateDFOutFromIn c _ sL sK dL dK) as [[r c1] d] eqn:E.
    cbv zeta. rewrite E. cbn [fst snd].
    assert (Hgone : Inc.varHasNewDFInPts s' sL sK = false).
    { destruct (Inc.varHasNewDFInPts s' sL sK) eqn:Hd'; [|done].
      apply varHasNewDFInPts_true, Hdirty in Hd' as [_ Hne]. done. }
    assert (Hflag : b = true ↔ DF.deref (Inc.base s') (DF.OutRef dL dK)
                               ≠ DF.deref (Inc.base s) (DF.OutRef dL dK)).
    { rewrite Hb. apply bool_decide_eq_true. }
    clear Hb Hdirty.
    destruct r; injection Hu as <- <- <-; (split_and!; try done).
    intros _. apply varHasNewDFOutPts_true, isOutDirty_set. by right.
Qed.

Lemma C7_out_from_in_consumes_flag_witness :
  let cs := foldl Inc.step (Cache.new, Inc.new (K:=nat) true)
              [Inc.Update (DF.Base (B.AddPts 0 1));
               Inc.Update (DF.UpdateATVPts 0 8 10);
               Inc.Update (DF.UpdateAllDFInFromOut 8 10 1 5)] in
  let r := Inc.updateDFOutFromIn cs.1 cs.2 1 5 1 5 in
  let r' := Inc.updateDFOutFromIn r.1.2 r.2 1 5 1 5 in
  (Inc.varHasNewDFInPts cs.2 1 5 = true ∧
   Inc.varHasNewDFInPts r.2 1 5 = false ∧
   r.1.1 = true ∧ Inc.varHasNewDFOutPts r.2 1 5 = true) ∧
  (Inc.varHasNewDFInPts r.2 1 5 = false ∧ r' = (false, r.1.2, r.2)).
Proof.
  intros cs r r'.
  destruct (C7_out_from_in_consumes_flag cs.1 cs.2 1 5 1 5) as [_ Hdirty].
  destruct (C7_out_from_in_consumes_flag r.1.2 r.2 1 5 1 5) as [Hskip _].
  destruct (Hdirty r.1.1 r.1.2 r.2) as (_ & Hgone & _ & Hmark & _);
    [reflexivity..|].
  split.
  - split; [reflexivity|]. split; [done|]. split; [reflexivity|].
    by apply Hmark.
  - split; [done|]. by apply Hskip.
Defined.

(** C8. In a versioned store, the cross-space [unionPts(vk, k)] joins the
    top-level set of [k] into the address-taken set of [vk], through IDs of
    the one cache: in any state, [at.pts[vk]] becomes its union with
    [tl.pts[k]], no other set on either side changes, the call returns false
    exactly when [tl.pts[k]] was within [at.pts[vk]] already, and the reverse
    sets of the address-taken side gain [vk] at the data of [tl.pts[k]] when
    the store tracks reverse points-to and the set changed.  After
    [addPts(k, d)] on the top-level side and then [unionPts(vk, k)], with
    both keys fresh and reverse points-to on: [getPts(vk) = {d}],
    [getVersionedKeyRevPts(d) = {vk}] and [getRevPts(d) = {k}].  The claim's
    instance has [d = 7]. *)
Theorem C8_cross_space_union `{Countable K, Countable VK} (c : Cache.t)
    (s : Ver.t K VK) (k : K) (vk : VK) (d : nat) :
  Cache.wf c →
  (ver_valid c s →
   let r := Ver.unionPtsVK c s vk k in
   B.ptsOf r.1.2 (Ver.atPTData r.2) vk
     = B.ptsOf c (Ver.atPTData s) vk ∪ B.ptsOf c (Ver.tlPTData s) k ∧
   (∀ vk', vk' ≠ vk →
      B.ptsOf r.1.2 (Ver.atPTData r.2) vk' = B.ptsOf c (Ver.atPTData s) vk') ∧
   (∀ k', B.ptsOf r.1.2 (Ver.tlPTData r.2) k' = B.ptsOf c (Ver.tlPTData s) k') ∧
   (r.1.1 = false
    ↔ B.ptsOf c (Ver.tlPTData s) k ⊆ B.ptsOf c (Ver.atPTData s) vk) ∧
   (∀ d', B.revOf (Ver.atPTData r.2) d'
          = if r.1.1 && B.rev (Ver.atPTData s)
               && bool_decide (d' ∈ B.ptsOf c (Ver.tlPTData s) k)
            then {[vk]} ∪ B.revOf (Ver.atPTData s) d'
            else B.revOf (Ver.atPTData s) d') ∧
   B.revPtsMap (Ver.tlPTData r.2) = B.revPtsMap (Ver.tlPTData s) ∧
   c `prefix_of` r.1.2 ∧ Cache.wf r.1.2 ∧ ver_valid r.1.2 r.2) ∧
  (let r1 := Ver.addPts c (Ver.new true) k d in
   let r2 := Ver.unionPtsVK r1.1.2 r1.2 vk k in
   r2.1.1 = true ∧
   (Ver.getPtsV r2.1.2 r2.2 vk).1 = {[d]} ∧
   (∃ s3, Ver.getVersionedKeyRevPts r2.2 d = Some ({[vk]}, s3)) ∧
   (∃ s3, Ver.getRevPts r2.2 d = Some ({[k]}, s3))).
Proof.
  intros Hwf. split.
  - intros [Hvtl Hvat] r. subst r.
    unfold Ver.unionPtsVK, Ver.withAT. cbn [Ver.atPTData Ver.tlPTData Ver.rev].
    destruct (B.unionPtsFromId c (Ver.atPTData s) vk _) as [[b c'] s'] eqn:E.
    apply unionPtsFromId_valid in E
      as (Hp & Hwf' & Hv' & Hpts & Hoth & Hb & _ & Hrev);
      [|done|done|apply Hvtl].
    cbn [fst snd Ver.atPTData Ver.tlPTData].
    assert (Htl : ∀ k', B.idOf (B.mk (B.rev (Ver.tlPTData s))
                           (subscript 0 (B.ptsMap (Ver.tlPTData s)) k)
                           (B.revPtsMap (Ver.tlPTData s))) k'
                        = B.idOf (Ver.tlPTData s) k').
    { intros k'. unfold B.idOf. cbn [B.ptsMap]. apply rd_subscript. }
    split_and!; try done.
    + intros vk' Hne. unfold B.ptsOf. rewrite Hoth by done.
      apply getActualPts_prefix; [done|apply Hvat].
    + intros k'. unfold B.ptsOf. rewrite Htl.
      apply getActualPts_prefix; [done|apply Hvtl].
    + rewrite Hb.
      apply (union_absorbed_iff c c'); (done || apply Hvat || apply Hv').
    + split; [|done]. intros k'. rewrite Htl.
      eapply valid_prefix; [done|apply Hvtl].
  - intros r1 r2. subst r2 r1.
    unfold Ver.addPts, Ver.unionPtsVK, Ver.withTL, Ver.withAT, Ver.new.
    cbn [Ver.tlPTData Ver.atPTData Ver.rev].
    destruct (B.addPts c (B.new true) k d) as [[b1 c1] tl1] eqn:E1.
    apply addPts_fresh in E1 as (_ & Hp1 & Hwf1 & Hv1 & Hr1 & Hpts1 & Hrev1);
      [|done].
    cbn [fst snd Ver.tlPTData Ver.atPTData Ver.rev].
    destruct (B.unionPtsFromId c1 (B.new true) vk _) as [[b2 c2] at2] eqn:E2.
    fold (B.idOf tl1 k) in E2.
    apply unionPtsFromId_fresh in E2
      as (-> & Hp2 & Hwf2 & Hv2 & Hr2 & Hpts2 & Hrev2);
      [|done|by apply basic_valid_new|by apply Hv1|done| |].
    + fold (B.ptsOf c1 tl1 k) in Hpts2, Hrev2. rewrite Hpts1 in Hpts2, Hrev2.
      cbn [fst snd]. split_and!; [done|done| |].
      * unfold Ver.getVersionedKeyRevPts, B.getRevPts.
        cbn [Ver.rev Ver.atPTData]. rewrite Hr2. simpl. eexists. f_equal. f_equal.
        fold (B.revOf at2 d). rewrite Hrev2.
        rewrite bool_decide_true by by apply elem_of_singleton.
        unfold B.revOf, B.new; simpl. rewrite rd_empty. set_solver.
      * unfold Ver.getRevPts, B.getRevPts.
        cbn [Ver.rev Ver.tlPTData B.rev B.revPtsMap]. rewrite Hr1. simpl.
        eexists. f_equal. f_equal.
        fold (B.revOf tl1 d). rewrite Hrev1. by rewrite bool_decide_true.
    + unfold B.idOf, B.new; simpl. by rewrite rd_empty.
    + fold (B.ptsOf c1 tl1 k). rewrite Hpts1. set_solver.
Qed.

Lemma C8_cross_space_union_witness :
  let s0 := Ver.new (K:=nat) (VK:=nat * nat) true in
  let a := Ver.runUpdate Cache.new s0 (Ver.AddPtsV (5, 1) 2) in
  let b := Ver.runUpdate a.1.2 a.2 (Ver.AddPts 3 7) in
  let r := Ver.unionPtsVK b.1.2 b.2 (5, 1) 3 in
  let r1 := Ver.addPts Cache.new s0 3 7 in
  let r2 := Ver.unionPtsVK r1.1.2 r1.2 (5, 1) 3 in
  (Cache.wf Cache.new ∧ Cache.wf b.1.2 ∧ ver_valid b.1.2 b.2) ∧
  (B.ptsOf r.1.2 (Ver.atPTData r.2) (5, 1)
     = B.ptsOf b.1.2 (Ver.atPTData b.2) (5, 1)
       ∪ B.ptsOf b.1.2 (Ver.tlPTData b.2) 3 ∧
   2 ∈ B.ptsOf r.1.2 (Ver.atPTData r.2) (5, 1) ∧
   7 ∈ B.ptsOf r.1.2 (Ver.atPTData r.2) (5, 1)) ∧
  r2.1.1 = true ∧
  (Ver.getPtsV r2.1.2 r2.2 (5, 1)).1 = {[7]} ∧
  (∃ s3, Ver.getVersionedKeyRevPts r2.2 7 = Some ({[(5, 1)]}, s3)) ∧
  (∃ s3, Ver.getRevPts r2.2 7 = Some ({[3]}, s3)).
Proof.
  intros s0 a b r r1 r2.
  destruct (ver_runUpdate_spec Cache.new s0 (Ver.AddPtsV (5, 1) 2)
              a.1.1 a.1.2 a.2 wf_new (ver_valid_new _ _ wf_new))
    as (_ & Hwfa & Hva & _); [by rewrite <-!surjective_pairing|].
  destruct (ver_runUpdate_spec a.1.2 a.2 (Ver.AddPts 3 7)
              b.1.1 b.1.2 b.2 Hwfa Hva)
    as (_ & Hwfb & Hvb & _); [by rewrite <-!surjective_pairing|].
  destruct (C8_cross_space_union b.1.2 b.2 3 (5, 1) 7 Hwfb) as [Hgen _].
  destruct (C8_cross_space_union Cache.new s0 3 (5, 1) 7 wf_new) as [_ Hscen].
  destruct (Hgen Hvb) as (Hunion & _).
  split; [split; [exact wf_new|split; [exact Hwfb|exact Hvb]]|].
  split; [|exact Hscen].
  split; [exact Hunion|]. split; vm_compute; reflexivity.
Defined.

(** C10. In the incremental store, in any state the store can reach,
    [updateAllDFOutFromIn(l, v, true)] runs over the variables flagged in IN
    at [l] when the call starts: afterwards none of them other than [v] is
    flagged in IN at [l], whether or not its OUT set changed, and [v] is
    still flagged if it was. *)
Theorem C10_snapshot_of_updated_vars `{Countable K} (c : Cache.t) (s : Inc.t K)
    (l : nat) (v : K) (b : bool) (c' : Cache.t) (s' : Inc.t K) :
  inc_reachable (c, s) →
  Inc.updateAllDFOutFromIn c s l v true = (b, c', s') →
  (∀ k, Inc.varHasNewDFInPts s l k = true → k ≠ v →
        Inc.varHasNewDFInPts s' l k = false) ∧
  (Inc.varHasNewDFInPts s l v = true → Inc.varHasNewDFInPts s' l v = true).
Proof.
  intros Hinv%inc_reachable_dirty_inv Hu.
  assert (Hloop : ∀ l' k', Inc.isInDirty s' l' k'
            ↔ Inc.isInDirty s l' k' ∧
              ¬ (l' = l ∧ Inc.isInDirty s l k' ∧ k' ≠ v)).
  { unfold Inc.updateAllDFOutFromIn in Hu.
    destruct (Inc.hasDFInSet s l) eqn:Hhas.
    - simpl in Hu. intros l' k'.
      rewrite (inc_outFromIn_loop_dirty _ _ _ _ _ _ _ _ _ _ Hu l' k').
      unfold Inc.isInDirty at 1 3; simpl. rewrite rd_subscript.
      fold (Inc.isInDirty s l' k'). apply and_iff_compat_l.
      rewrite elem_of_elements. unfold skipped; simpl.
      by rewrite bool_decide_eq_false.
    - injection Hu as <- <- <-. intros l' k'. split; [|by intros [? _]].
      intros Hin. split; [done|]. intros (-> & Hin' & _).
      apply (Hinv l k'), hasDFInSet_true in Hin'.
      unfold Inc.hasDFInSet in Hhas. simpl in Hin'. congruence. }
  split.
  - intros k Hk%varHasNewDFInPts_true Hne.
    destruct (Inc.varHasNewDFInPts s' l k) eqn:Hd; [|done].
    apply varHasNewDFInPts_true, Hloop in Hd as [_ Hn]. by destruct Hn.
  - intros Hv%varHasNewDFInPts_true. apply varHasNewDFInPts_true, Hloop.
    split; [done|]. by intros (_ & _ & ?).
Qed.

Lemma C10_snapshot_of_updated_vars_witness :
  let cs := foldl Inc.step (Cache.new, Inc.new (K:=nat) true)
              [Inc.Update (DF.Base (B.AddPts 0 1));
               Inc.Update (DF.Base (B.AddPts 1 2));
               Inc.Update (DF.UpdateATVPts 0 8 10);
               Inc.Update (DF.UpdateATVPts 1 8 11);
               Inc.Update (DF.UpdateATVPts 1 8 12);
               Inc.Update (DF.UpdateDFInFromOut 8 10 9 10);
               Inc.Update (DF.UpdateDFInFromOut 8 11 9 11);
               Inc.Update (DF.UpdateDFInFromOut 8 12 9 12);
               Inc.Update (DF.UpdateATVPts 1 9 12)] in
  let r := Inc.updateAllDFOutFromIn cs.1 cs.2 9 10 true in
  (inc_reachable cs ∧
   Inc.varHasNewDFInPts cs.2 9 10 = true ∧
   Inc.varHasNewDFInPts cs.2 9 11 = true ∧
   Inc.varHasNewDFInPts cs.2 9 12 = true) ∧
  (∀ k, Inc.varHasNewDFInPts cs.2 9 k = true → k ≠ 10 →
        Inc.varHasNewDFInPts r.2 9 k = false) ∧
  (Inc.varHasNewDFInPts cs.2 9 10 = true → Inc.varHasNewDFInPts r.2 9 10 = true).
Proof.
  intros cs r.
  assert (Hreach : inc_reachable cs) by (eexists _, _, _; reflexivity).
  split; [by split_and!|].
  apply (C10_snapshot_of_updated_vars cs.1 cs.2 9 10 r.1.1 r.1.2 r.2).
  - by destruct cs.
  - reflexivity.
Defined.

(** C9, as amended. [topN(n)] returns the sum of the [n] largest per-ID
    counts and the number of entries, over the entries with a non-empty ID
    of: the points-to map for the basic store; the top-level map and every
    per-location IN and OUT map for the data-flow store and the incremental
    store; both points-to maps for the versioned store.  For the diff store
    it is the [topN] of the embedded basic store: the entries of the diff and
    propagated maps are not counted.  The counters are [u64_t], so the
    entries are assumed to be fewer than [2^64].  With 5 keys on [{1}], 3 on
    [{1,2}] and 1 on [{1,2,3}], [topN(2) = (8, 9)]. *)
Theorem C9_topN `{Countable K, Countable VK} (n : nat) :
  (∀ s : B.t K, fits (idsOf (B.ptsMap s)) →
     B.topN s n = topN_spec n (idsOf (B.ptsMap s))) ∧
  (∀ s : Diff.t K, fits (idsOf (B.ptsMap (Diff.persPTData s))) →
     Diff.topN s n = topN_spec n (idsOf (B.ptsMap (Diff.persPTData s)))) ∧
  (∀ s : DF.t K,
     (B.ptsMap (DF.persPTData s) ∈ DF.keyToIdMaps s ∧
      (∀ l m, DF.dfInPtsMap s !! l = Some m → m ∈ DF.keyToIdMaps s) ∧
      (∀ l m, DF.dfOutPtsMap s !! l = Some m → m ∈ DF.keyToIdMaps s) ∧
      length (DF.keyToIdMaps s)
      = 1 + size (DF.dfInPtsMap s) + size (DF.dfOutPtsMap s)) ∧
     (fits (concat (idsOf <$> DF.keyToIdMaps s)) →
      DF.topN s n = topN_spec n (concat (idsOf <$> DF.keyToIdMaps s)))) ∧
  (∀ s : Inc.t K, fits (concat (idsOf <$> DF.keyToIdMaps (Inc.base s))) →
     Inc.topN s n = topN_spec n (concat (idsOf <$> DF.keyToIdMaps (Inc.base s)))) ∧
  (∀ s : Ver.t K VK,
     fits (idsOf (B.ptsMap (Ver.tlPTData s)) ++ idsOf (B.ptsMap (Ver.atPTData s))) →
     Ver.topN s n
     = topN_spec n (idsOf (B.ptsMap (Ver.tlPTData s))
                    ++ idsOf (B.ptsMap (Ver.atPTData s)))) ∧
  (∀ ids (chosen : list N),
     chosen ⊆+ (occurrences (nonEmptyIds ids) <$> remove_dups (nonEmptyIds ids)) →
     length chosen ≤ n → (sumN chosen ≤ (topN_spec n ids).1)%N) ∧
  (let cs := foldl B.step (Cache.new, B.new (K:=nat) true)
               [B.Update (B.AddPts 0 1); B.Update (B.AddPts 1 1);
                B.Update (B.AddPts 2 1); B.Update (B.AddPts 3 1);
                B.Update (B.AddPts 4 1);
                B.Update (B.UnionPtsData 5 {[1; 2]});
                B.Update (B.UnionPtsData 6 {[1; 2]});
                B.Update (B.UnionPtsData 7 {[1; 2]});
                B.Update (B.UnionPtsData 8 {[1; 2; 3]})] in
   B.topN cs.2 2 = (8, 9)%N).
Proof.
  assert (Hbasic : ∀ `{Countable K'} (m : gmap K' nat),
            fits (idsOf m) → mostCommon n (countMap m (∅, 0%N)) = topN_spec n (idsOf m)).
  { intros K' ? ? m Hfit. apply mostCommon_counted; [|done].
    rewrite <-(app_nil_r (idsOf m)). apply countMap_counted; [apply counted_nil|].
    by rewrite app_nil_r. }
  assert (Hdf : ∀ s : DF.t K, fits (concat (idsOf <$> DF.keyToIdMaps s)) →
            DF.topN s n = topN_spec n (concat (idsOf <$> DF.keyToIdMaps s))).
  { intros s Hfit. apply mostCommon_counted; [|done].
    rewrite <-(app_nil_r (concat _)).
    apply countMaps_counted; [apply counted_nil|]. by rewrite app_nil_r. }
  split_and!.
  - intros s. apply Hbasic.
  - intros s. apply Hbasic.
  - intros s. split; [|apply Hdf]. unfold DF.keyToIdMaps. split_and!.
    + by left.
    + intros l m Hm. right. apply elem_of_app. left.
      apply list_elem_of_fmap. exists (l, m). split; [done|].
      by apply elem_of_map_to_list.
    + intros l m Hm. right. apply elem_of_app. right.
      apply list_elem_of_fmap. exists (l, m). split; [done|].
      by apply elem_of_map_to_list.
    + simpl. rewrite length_app, !length_fmap, !length_map_to_list. lia.
  - intros s. apply Hdf.
  - intros s Hfit. unfold Ver.topN. apply mostCommon_counted; [|done].
    apply (counted_perm (idsOf (B.ptsMap (Ver.atPTData s))
                         ++ idsOf (B.ptsMap (Ver.tlPTData s)) ++ [])).
    { rewrite app_nil_r. apply Permutation_app_comm. }
    apply countMap_counted.
    + apply countMap_counted; [apply counted_nil|].
      rewrite app_nil_r. revert Hfit. unfold fits, nonEmptyIds.
      rewrite filter_app, length_app. lia.
    + rewrite app_nil_r. revert Hfit. apply fits_perm, Permutation_app_comm.
  - intros ids chosen Hsub Hlen. unfold topN_spec. cbn [fst].
    apply sumN_take_sorted_max; [apply sortCounts_Sorted| |done].
    by rewrite sortCounts_Permutation.
  - vm_compute. reflexivity.
Qed.

Lemma C9_topN_witness :
  let cs := foldl Inc.step (Cache.new, Inc.new (K:=nat) true)
              [Inc.Update (DF.Base (B.AddPts 0 1));
               Inc.Update (DF.Base (B.AddPts 1 2));
               Inc.Update (DF.UpdateATVPts 0 8 10);
               Inc.Update (DF.UpdateATVPts 1 8 11);
               Inc.Update (DF.UpdateDFInFromOut 8 10 9 10);
               Inc.Update (DF.UpdateDFInFromOut 8 11 9 11);
               Inc.UpdateAllDFOutFromIn 9 10 true] in
  let s := Inc.base cs.2 in
  (fits (idsOf (B.ptsMap (DF.persPTData s))) ∧
   fits (concat (idsOf <$> DF.keyToIdMaps s))) ∧
  B.topN (DF.persPTData s) 1 = topN_spec 1 (idsOf (B.ptsMap (DF.persPTData s))) ∧
  DF.topN s 1 = topN_spec 1 (concat (idsOf <$> DF.keyToIdMaps s)) ∧
  DF.topN s 1 = (4, 7)%N.
Proof.
  intros cs s.
  assert (Hf1 : fits (idsOf (B.ptsMap (DF.persPTData s)))) by (vm_compute; reflexivity).
  assert (Hf2 : fits (concat (idsOf <$> DF.keyToIdMaps s))) by (vm_compute; reflexivity).
  destruct (C9_topN (K:=nat) (VK:=nat) 1) as (Hb & _ & Hdf & _).
  split; [split; [exact Hf1|exact Hf2]|].
  split; [exact (Hb _ Hf1)|].
  split; [exact (proj2 (Hdf _) Hf2)|].
  vm_compute. reflexivity.
Defined.

(** C9 as stated fails on the diff store: after one [computeDiffPts] its
    diff and propagated maps hold an entry each, with a non-empty ID, and
    [topN] counts neither. *)
Lemma C9_topN_counterexample :
  let r := Diff.computeDiffPts Cache.new (Diff.new (K:=nat) true) 0 {[1]} in
  let s := r.2 in
  ¬ (Diff.topN s 1
     = topN_spec 1 (idsOf (B.ptsMap (Diff.persPTData s))
                    ++ idsOf (Diff.diffPtsMap s) ++ idsOf (Diff.propaPtsMap s))).
Proof. vm_compute. intros [=]. Qed.


(** * Further properties of the stores *)

(** ** The basic store *)

Section basic_more.
Context `{Countable K}.
Implicit Types (c : Cache.t) (s : B.t K) (k : K).

Lemma sample_basic_inv : basic_inv sample_basic.
Proof. apply basic_inv_run, basic_inv_new, wf_new. Qed.

Lemma basic_runUpdate_rev_off c s u b c' s' :
  B.rev s = false → B.runUpdate c s u = (b, c', s') →
  B.rev s' = false ∧ ∀ d, B.revOf s' d = B.revOf s d.
Proof.
  intros Hr.
  assert (Hfrom : ∀ c0 s0 k srcId, B.rev s0 = false →
            (∀ d, B.revOf s0 d = B.revOf s d) →
            B.unionPtsFromId c0 s0 k srcId = (b, c', s') →
            B.rev s' = false ∧ ∀ d, B.revOf s' d = B.revOf s d).
  { intros c0 s0 k srcId Hr0 Hs0 (_ & _ & _ & _ & _ & Hr' & Hrev)%unionPtsFromId_spec.
    split; [congruence|]. intros d. rewrite Hrev, Hr0, andb_false_r. apply Hs0. }
  destruct u as [k e|k k'|k ds]; simpl.
  - unfold B.addPts. destruct (Cache.emplacePts c _) as [srcId c1].
    by apply Hfrom.
  - unfold B.unionPts. by apply Hfrom.
  - unfold B.unionPtsData. destruct (Cache.emplacePts c _) as [srcId c1].
    by apply Hfrom.
Qed.

Lemma rev_off_inv_step (cs : Cache.t * B.t K) (o : B.op K) :
  rev_off_inv cs → rev_off_inv (B.step cs o).
Proof.
  destruct cs as [c s]. intros [Hr He]. simpl in *.
  destruct o as [u|k e|k| |k|d]; simpl.
  - destruct (B.runUpdate c s u) as [[b c'] s'] eqn:E.
    apply basic_runUpdate_rev_off in E as [Hr' Hrev]; [|done].
    split; [done|]. intros d. simpl. by rewrite Hrev.
  - unfold B.clearPts. destruct (Cache.emplacePts c _) as [rid c1].
    destruct (Cache.complementPts c1 _ _) as [cid c2].
    case_bool_decide; (split; [done|]); intros d; simpl; [|apply He].
    unfold B.revOf, B.clearSingleRevPts; simpl. rewrite Hr, rd_subscript.
    apply He.
  - pose proof (clearFullPts_spec c s k) as (_ & _ & Hr' & Hrev).
    cbv zeta in *. generalize dependent (B.clearFullPts c s k). intros s' **.
    split; [simpl; congruence|]. intros d. simpl. rewrite Hrev, Hr. apply He.
  - split; [done|]. intros d. unfold B.revOf, B.clear; simpl. apply rd_empty.
  - split; [done|]. apply He.
  - rewrite getRevPts_spec, Hr. by split.
Qed.

End basic_more.

(** X1. An [addPts] or [unionPts] of the basic store makes the destination
    hold its old set joined with the source set and leaves the set of every
    other key as it was; no points-to set ever loses an element. *)
Theorem X1_update_joins_and_grows `{Countable K} (c : Cache.t) (s : B.t K)
    (u : B.update K) :
  Cache.wf c → basic_valid c s →
  let r := B.runUpdate c s u in
  B.ptsOf r.1.2 r.2 (B.dstOf u) = B.ptsOf c s (B.dstOf u) ∪ basic_srcOf c s u ∧
  (∀ k, k ≠ B.dstOf u → B.ptsOf r.1.2 r.2 k = B.ptsOf c s k) ∧
  (∀ k, B.ptsOf c s k ⊆ B.ptsOf r.1.2 r.2 k).
Proof.
  intros Hwf Hv r. subst r.
  destruct (B.runUpdate c s u) as [[b c'] s'] eqn:E. simpl.
  apply basic_runUpdate_spec in E as (Hp & Hwf' & Hv' & Hpts & Hoth & _);
    try done.
  assert (Hsame : ∀ k, k ≠ B.dstOf u → B.ptsOf c' s' k = B.ptsOf c s k).
  { intros k Hk. unfold B.ptsOf. rewrite Hoth by done.
    apply getActualPts_prefix; [done|apply Hv]. }
  split_and!; try done.
  intros k. destruct (decide (k = B.dstOf u)) as [->|Hk].
  - rewrite Hpts. set_solver.
  - by rewrite Hsame.
Qed.

Lemma X1_update_joins_and_grows_witness :
  let c := sample_basic.1 in
  let s := sample_basic.2 in
  let r := B.runUpdate c s (B.UnionPts 1 3) in
  (Cache.wf c ∧ basic_valid c s) ∧
  B.ptsOf r.1.2 r.2 1 = B.ptsOf c s 1 ∪ B.ptsOf c s 3 ∧
  (∀ k, k ≠ 1 → B.ptsOf r.1.2 r.2 k = B.ptsOf c s k) ∧
  (∀ k, B.ptsOf c s k ⊆ B.ptsOf r.1.2 r.2 k).
Proof.
  intros c s r.
  destruct sample_basic_inv as (Hwf & Hv & _).
  split; [by split|].
  exact (X1_update_joins_and_grows c s (B.UnionPts 1 3) Hwf Hv).
Defined.

(** X2. An [addPts] or [unionPts] of the basic store returns false exactly
    when the destination already holds the whole source set, as in a union
    of a key with itself, and then no key changes its ID. *)
Theorem X2_update_false_iff_absorbed `{Countable K} (c : Cache.t) (s : B.t K)
    (u : B.update K) :
  Cache.wf c → basic_valid c s →
  let r := B.runUpdate c s u in
  (r.1.1 = false ↔ basic_srcOf c s u ⊆ B.ptsOf c s (B.dstOf u)) ∧
  (r.1.1 = false → ∀ k, B.idOf r.2 k = B.idOf s k) ∧
  (∀ k, u = B.UnionPts k k → r.1.1 = false).
Proof.
  intros Hwf Hv r. subst r.
  destruct (B.runUpdate c s u) as [[b c'] s'] eqn:E. simpl.
  apply basic_runUpdate_spec in E as (Hp & Hwf' & Hv' & Hpts & Hoth & Hb & _);
    try done.
  destruct (flag_exact c c' b _ _ Hwf' Hp (Hv (B.dstOf u)) (Hv' (B.dstOf u)) Hb)
    as [Hid Hset].
  fold (B.ptsOf c' s' (B.dstOf u)) (B.ptsOf c s (B.dstOf u)) in Hset.
  assert (Hiff : b = false ↔ basic_srcOf c s u ⊆ B.ptsOf c s (B.dstOf u)).
  { rewrite Hpts in Hset. split.
    - intros ->. destruct (decide (basic_srcOf c s u ⊆ B.ptsOf c s (B.dstOf u)))
        as [|Hn]; [done|]. exfalso.
      assert (Hne : B.ptsOf c s (B.dstOf u) ∪ basic_srcOf c s u
                    ≠ B.ptsOf c s (B.dstOf u)) by set_solver.
      by apply Hset in Hne.
    - intros Hsub. apply not_true_is_false. intros Ht%Hset. apply Ht.
      set_solver. }
  split_and!; [done| |].
  - intros -> k. destruct (decide (k = B.dstOf u)) as [->|Hk]; [|by apply Hoth].
    destruct (decide (B.idOf s' (B.dstOf u) = B.idOf s (B.dstOf u))) as [|Hn];
      [done|]. by apply Hid in Hn.
  - intros k ->. by apply Hiff.
Qed.

Lemma X2_update_false_iff_absorbed_witness :
  let c := sample_basic.1 in
  let s := sample_basic.2 in
  let r := B.runUpdate c s (B.UnionPts 2 1) in
  (Cache.wf c ∧ basic_valid c s) ∧
  (r.1.1 = false ↔ B.ptsOf c s 1 ⊆ B.ptsOf c s 2) ∧
  (r.1.1 = false → ∀ k, B.idOf r.2 k = B.idOf s k) ∧
  (∀ k, B.UnionPts 2 1 = B.UnionPts k k → r.1.1 = false).
Proof.
  intros c s r.
  destruct sample_basic_inv as (Hwf & Hv & _).
  split; [by split|].
  exact (X2_update_false_iff_absorbed c s (B.UnionPts 2 1) Hwf Hv).
Defined.

(** X3. [clearPts(k, d)] of the basic store leaves [getPts(k)] without [d]
    and every other key as it was.  When [d] was not in [getPts(k)] nothing
    observable moves: every key keeps its ID and every reverse set stays as
    it was. *)
Theorem X3_clearPts_removes_one `{Countable K} (c : Cache.t) (s : B.t K)
    (k : K) (d : nat) :
  Cache.wf c → basic_valid c s →
  let r := B.clearPts c s k d in
  B.ptsOf r.1 r.2 k = B.ptsOf c s k ∖ {[d]} ∧
  (∀ k', k' ≠ k → B.ptsOf r.1 r.2 k' = B.ptsOf c s k') ∧
  (d ∉ B.ptsOf c s k →
   (∀ k', B.idOf r.2 k' = B.idOf s k') ∧ (∀ d', B.revOf r.2 d' = B.revOf s d')).
Proof.
  intros Hwf Hv r. subst r.
  destruct (B.clearPts c s k d) as [c' s'] eqn:E. simpl.
  apply clearPts_spec in E as (Hp & Hwf' & Hv' & Hpts & Hoth & _ & Hrev);
    try done.
  split_and!; [done| |].
  - intros k' Hk. unfold B.ptsOf. rewrite Hoth by done.
    apply getActualPts_prefix; [done|apply Hv].
  - intros Hd.
    assert (Hid : B.idOf s' k = B.idOf s k).
    { apply (getActualPts_inj c'); [done|apply Hv'| |].
      - eapply valid_prefix; [done|apply Hv].
      - fold (B.ptsOf c' s' k). rewrite Hpts.
        rewrite (getActualPts_prefix c c') by (done || apply Hv).
        fold (B.ptsOf c s k). set_solver. }
    split.
    + intros k'. destruct (decide (k' = k)) as [->|Hk]; [done|by apply Hoth].
    + intros d'. rewrite Hrev. rewrite (bool_decide_false (_ ≠ _)) by (by intros []).
      by rewrite andb_false_r.
Qed.

Lemma X3_clearPts_removes_one_witness :
  let c := sample_basic.1 in
  let s := sample_basic.2 in
  let r := B.clearPts c s 2 7 in
  (Cache.wf c ∧ basic_valid c s ∧ 7 ∉ B.ptsOf c s 2) ∧
  B.ptsOf r.1 r.2 2 = B.ptsOf c s 2 ∖ {[7]} ∧
  (∀ k', k' ≠ 2 → B.ptsOf r.1 r.2 k' = B.ptsOf c s k') ∧
  (∀ k', B.idOf r.2 k' = B.idOf s k') ∧ (∀ d', B.revOf r.2 d' = B.revOf s d').
Proof.
  intros c s r.
  destruct sample_basic_inv as (Hwf & Hv & _).
  assert (Hd : 7 ∉ B.ptsOf c s 2).
  { intros Hin. vm_compute in Hin. discriminate Hin. }
  destruct (X3_clearPts_removes_one c s 2 7 Hwf Hv) as (H1 & H2 & H3).
  split; [by split_and!|]. split; [exact H1|]. split; [exact H2|].
  exact (H3 Hd).
Defined.

(** X4. [clearFullPts(k)] of the basic store leaves [getPts(k)] empty, takes
    [k] out of every reverse set, keeps every other key, and a second
    [clearFullPts(k)] gives the very same store. *)
Theorem X4_clearFullPts_idempotent `{Countable K} (c : Cache.t) (s : B.t K)
    (k : K) :
  Cache.wf c →
  let s' := B.clearFullPts c s k in
  B.ptsOf c s' k = ∅ ∧
  (∀ k', k' ≠ k → B.ptsOf c s' k' = B.ptsOf c s k') ∧
  (B.rev s = true → ∀ d, d ∈ B.ptsOf c s k → k ∉ B.revOf s' d) ∧
  B.clearFullPts c s' k = s'.
Proof.
  intros Hwf s'. pose proof (clearFullPts_spec c s k) as (Hid & Hoth & Hr & Hrev).
  fold s' in Hid, Hoth, Hr, Hrev.
  assert (Hempty : B.ptsOf c s' k = ∅).
  { unfold B.ptsOf. rewrite Hid. by apply getActualPts_empty. }
  split_and!; [done| | |].
  - intros k' Hk. unfold B.ptsOf. by rewrite Hoth.
  - intros Hrv d Hd. rewrite Hrev, Hrv. simpl.
    rewrite bool_decide_true by done. set_solver.
  - unfold B.clearFullPts at 1, B.getPts.
    change (Cache.getActualPts c (rd 0 (B.ptsMap s') k)) with (B.ptsOf c s' k).
    rewrite Hempty. cbn [B.rev B.ptsMap B.revPtsMap].
    assert (Hpm : <[k := Cache.emptyPointsToId]> (subscript 0 (B.ptsMap s') k)
                  = B.ptsMap s').
    { unfold s', B.clearFullPts, B.getPts. cbn [B.ptsMap].
      rewrite subscript_id by (rewrite lookup_insert_eq; eauto).
      by rewrite insert_insert_eq. }
    assert (Hrm : B.clearRevPts (B.rev s') (B.revPtsMap s') ∅ k = B.revPtsMap s').
    { unfold B.clearRevPts. destruct (B.rev s'); [|done].
      unfold set_fold; simpl. by rewrite elements_empty. }
    rewrite Hpm, Hrm. by destruct s'.
Qed.

Lemma X4_clearFullPts_idempotent_witness :
  let c := sample_basic.1 in
  let s := sample_basic.2 in
  let s' := B.clearFullPts c s 2 in
  Cache.wf c ∧
  B.ptsOf c s' 2 = ∅ ∧
  (∀ k', k' ≠ 2 → B.ptsOf c s' k' = B.ptsOf c s k') ∧
  (B.rev s = true → ∀ d, d ∈ B.ptsOf c s 2 → 2 ∉ B.revOf s' d) ∧
  B.clearFullPts c s' 2 = s'.
Proof.
  intros c s s'.
  destruct sample_basic_inv as (Hwf & _).
  split; [exact Hwf|].
  exact (X4_clearFullPts_idempotent c s 2 Hwf).
Defined.

(** X5. A basic store built without reverse points-to never records one:
    after any sequence of operations every reverse set is empty and
    [getRevPts] fails its assertion. *)
Theorem X5_reverse_off_stays_off `{Countable K} (c : Cache.t)
    (ops : list (B.op K)) (d : nat) :
  let cs := foldl B.step (c, B.new false) ops in
  B.getRevPts cs.2 d = None ∧ B.revOf cs.2 d = ∅.
Proof.
  intros cs.
  assert (Hrun : ∀ (ops : list (B.op K)) cs0,
            rev_off_inv cs0 → rev_off_inv (foldl B.step cs0 ops)).
  { clear. induction ops as [|o ops IH]; intros cs0 Hinv; [done|].
    simpl. by apply IH, rev_off_inv_step. }
  destruct (Hrun ops (c, B.new false)) as [Hr He].
  { split; [done|]. intros d'. unfold B.revOf, B.new; simpl. apply rd_empty. }
  fold cs in Hr, He. split; [|apply He].
  by rewrite getRevPts_spec, Hr.
Qed.

(** ** Statistics *)

Section stats_more.
Context `{Countable K}.

Lemma idSet_fold (m : gmap K nat) (acc : gset nat) :
  map_fold (λ _ id a, {[id]} ∪ a) acc m = idSet (idsOf m) ∪ acc.
Proof.
  unfold idSet, idsOf. rewrite map_fold_foldr.
  induction (map_to_list m) as [|[k id] l IH]; simpl.
  - by rewrite union_empty_l_L.
  - rewrite IH. by rewrite (assoc_L (∪)).
Qed.

Lemma idSet_app (l1 l2 : list nat) : idSet (l1 ++ l2) = idSet l1 ∪ idSet l2.
Proof. unfold idSet. apply list_to_set_app_L. Qed.

Lemma inUsePointsToSetsOf_spec (maps : list (gmap K nat)) :
  B.inUsePointsToSetsOf maps = size (idSet (concat (idsOf <$> maps))).
Proof.
  unfold B.inUsePointsToSetsOf. f_equal.
  assert (Hgen : ∀ acc : gset nat,
    foldl (λ (acc : gset nat) kim, map_fold (λ _ id a, {[id]} ∪ a) acc kim) acc maps
    = idSet (concat (idsOf <$> maps)) ∪ acc).
  { induction maps as [|m maps IH]; intros acc; simpl.
    - unfold idSet; simpl. by rewrite union_empty_l_L.
    - rewrite IH, idSet_fold, idSet_app. set_solver. }
  rewrite Hgen. by rewrite union_empty_r_L.
Qed.

Lemma idSet_subscript_fresh (m : gmap K nat) (k : K) :
  m !! k = None → idSet (idsOf (subscript 0 m k)) = {[0]} ∪ idSet (idsOf m).
Proof.
  intros Hk. unfold subscript. rewrite Hk. unfold idSet, idsOf.
  rewrite (list_to_set_perm_L _ (0 :: (map_to_list m).*2)); [done|].
  by rewrite (map_to_list_insert m k 0 Hk).
Qed.

Lemma basic_topN_spec (m : gmap K nat) n :
  fits (idsOf m) → mostCommon n (countMap m (∅, 0%N)) = topN_spec n (idsOf m).
Proof.
  intros Hfit. apply mostCommon_counted; [|done].
  rewrite <-(app_nil_r (idsOf m)). apply countMap_counted; [apply counted_nil|].
  by rewrite app_nil_r.
Qed.

End stats_more.

Lemma sumN_take_mono (l : list N) n m :
  n ≤ m → (sumN (take n l) ≤ sumN (take m l))%N.
Proof.
  intros Hnm. rewrite <-(Nat.min_l n m Hnm), <-take_take. apply sumN_take_le.
Qed.

Lemma size_idSet (l : list nat) : size (idSet l) = length (remove_dups l).
Proof.
  rewrite <-(size_list_to_set (C:=gset nat) (remove_dups l))
    by apply NoDup_remove_dups.
  f_equal. unfold idSet. apply set_eq. intros x.
  by rewrite !elem_of_list_to_set, elem_of_remove_dups.
Qed.

Lemma topN_spec_bounds (ids : list nat) n :
  ((topN_spec n ids).1 ≤ (topN_spec n ids).2)%N ∧
  (topN_spec 0 ids).1 = 0%N ∧
  (∀ m, n ≤ m → ((topN_spec n ids).1 ≤ (topN_spec m ids).1)%N ∧
                (topN_spec m ids).2 = (topN_spec n ids).2) ∧
  (length (remove_dups (nonEmptyIds ids)) ≤ n →
   (topN_spec n ids).1 = (topN_spec n ids).2).
Proof.
  unfold topN_spec. cbn [fst snd].
  set (ne := nonEmptyIds ids).
  set (sorted := sortCounts (occurrences ne <$> remove_dups ne)).
  assert (Hsum : sumN sorted = N.of_nat (length ne)).
  { unfold sorted. rewrite (sumN_perm _ _ (sortCounts_Permutation _)).
    apply sumN_occurrences; [apply NoDup_remove_dups|].
    intros x. by rewrite elem_of_remove_dups. }
  split_and!.
  - rewrite <-Hsum. apply sumN_take_le.
  - done.
  - intros m Hnm. split; [by apply sumN_take_mono|done].
  - intros Hlen. rewrite take_ge; [done|].
    unfold sorted. rewrite (Permutation_length (sortCounts_Permutation _)).
    by rewrite length_fmap.
Qed.

(** X6. [inUsePointsToSets] is the number of distinct IDs held by the
    entries of the maps it walks, the empty ID included: the points-to map
    for the basic and the diff store, the top-level map and every IN and OUT
    map for the data-flow store, both points-to maps for the versioned
    store.  A [getPts] of a key without an entry creates one with the empty
    ID, so it raises the number by one unless an entry held the empty ID
    already. *)
Theorem X6_inUsePointsToSets_counts_ids `{Countable K, Countable VK} :
  (∀ s : B.t K, B.inUsePointsToSets s = size (idSet (idsOf (B.ptsMap s)))) ∧
  (∀ s : Diff.t K,
     Diff.inUsePointsToSets s
     = size (idSet (idsOf (B.ptsMap (Diff.persPTData s))))) ∧
  (∀ s : DF.t K,
     DF.inUsePointsToSets s = size (idSet (concat (idsOf <$> DF.keyToIdMaps s)))) ∧
  (∀ s : Ver.t K VK,
     Ver.inUsePointsToSets s
     = size (idSet (idsOf (B.ptsMap (Ver.tlPTData s))
                    ++ idsOf (B.ptsMap (Ver.atPTData s))))) ∧
  (∀ c (s : B.t K) k, B.ptsMap s !! k = None →
     B.inUsePointsToSets (B.getPts c s k).2
     = if decide (Cache.emptyPointsToId ∈ idsOf (B.ptsMap s))
       then B.inUsePointsToSets s else S (B.inUsePointsToSets s)).
Proof.
  assert (Hb : ∀ s : B.t K,
            B.inUsePointsToSets s = size (idSet (idsOf (B.ptsMap s)))).
  { intros s. unfold B.inUsePointsToSets. rewrite inUsePointsToSetsOf_spec.
    simpl. by rewrite app_nil_r. }
  split_and!; [done|intros s; apply Hb| | |].
  - intros s. apply inUsePointsToSetsOf_spec.
  - intros s. unfold Ver.inUsePointsToSets. cbv zeta.
    rewrite !idSet_fold, idSet_app. f_equal. set_solver.
  - intros c s k Hk. rewrite !Hb. unfold B.getPts. cbn [snd B.ptsMap].
    rewrite idSet_subscript_fresh by done.
    case_decide as Hin.
    + f_equal. apply set_eq. intros x. rewrite elem_of_union, elem_of_singleton.
      split; [|by right]. intros [->|?]; [|done].
      unfold idSet. by apply elem_of_list_to_set.
    + rewrite size_union, size_singleton; [done|].
      apply disjoint_singleton_l. unfold idSet. by rewrite elem_of_list_to_set.
Qed.

Lemma X6_inUsePointsToSets_counts_ids_witness :
  let c := sample_basic.1 in
  let s := sample_basic.2 in
  B.ptsMap s !! 9 = None ∧
  B.inUsePointsToSets s = 3 ∧
  B.inUsePointsToSets (B.getPts c s 9).2
  = if decide (Cache.emptyPointsToId ∈ idsOf (B.ptsMap s))
    then B.inUsePointsToSets s else S (B.inUsePointsToSets s).
Proof.
  intros c s.
  destruct (X6_inUsePointsToSets_counts_ids (K:=nat) (VK:=nat))
    as (_ & _ & _ & _ & Hread).
  split; [reflexivity|]. split; [vm_compute; reflexivity|].
  apply Hread. reflexivity.
Defined.

(** X7. Of the pair [topN(n)] returns, the first number is never above the
    second, is 0 for [n = 0], does not shrink when [n] grows, and reaches the
    second as soon as [n] is the number of distinct non-empty IDs; the second
    does not depend on [n].  Basic and data-flow store, with fewer than
    [2^64] entries. *)
Theorem X7_topN_bounds `{Countable K} (n m : nat) :
  (∀ s : B.t K, fits (idsOf (B.ptsMap s)) → n ≤ m →
     ((B.topN s n).1 ≤ (B.topN s n).2)%N ∧
     (B.topN s 0).1 = 0%N ∧
     ((B.topN s n).1 ≤ (B.topN s m).1)%N ∧
     (B.topN s m).2 = (B.topN s n).2 ∧
     (size (idSet (nonEmptyIds (idsOf (B.ptsMap s)))) ≤ n →
      (B.topN s n).1 = (B.topN s n).2)) ∧
  (∀ s : DF.t K, fits (concat (idsOf <$> DF.keyToIdMaps s)) → n ≤ m →
     ((DF.topN s n).1 ≤ (DF.topN s n).2)%N ∧
     (DF.topN s 0).1 = 0%N ∧
     ((DF.topN s n).1 ≤ (DF.topN s m).1)%N ∧
     (DF.topN s m).2 = (DF.topN s n).2).
Proof.
  split.
  - intros s Hfit Hnm. unfold B.topN. rewrite !basic_topN_spec by done.
    destruct (topN_spec_bounds (idsOf (B.ptsMap s)) n) as (H1 & H2 & H3 & H4).
    destruct (H3 m Hnm) as [H5 H6]. split_and!; try done.
    intros Hsz. apply H4. by rewrite <-size_idSet.
  - intros s Hfit Hnm.
    assert (Hdf : ∀ n, DF.topN s n = topN_spec n (concat (idsOf <$> DF.keyToIdMaps s))).
    { intros n'. apply mostCommon_counted; [|done].
      rewrite <-(app_nil_r (concat _)).
      apply countMaps_counted; [apply counted_nil|]. by rewrite app_nil_r. }
    rewrite !Hdf.
    destruct (topN_spec_bounds (concat (idsOf <$> DF.keyToIdMaps s)) n)
      as (H1 & H2 & H3 & _).
    destruct (H3 m Hnm) as [H5 H6]. by split_and!.
Qed.

Lemma X7_topN_bounds_witness :
  let s := sample_basic.2 in
  (fits (idsOf (B.ptsMap s)) ∧ 1 ≤ 2 ∧
   size (idSet (nonEmptyIds (idsOf (B.ptsMap s)))) ≤ 3) ∧
  ((B.topN s 1).1 ≤ (B.topN s 1).2)%N ∧
  (B.topN s 0).1 = 0%N ∧
  ((B.topN s 1).1 ≤ (B.topN s 2).1)%N ∧
  (B.topN s 2).2 = (B.topN s 1).2 ∧
  (B.topN s 3).1 = (B.topN s 3).2.
Proof.
  intros s.
  assert (Hfit : fits (idsOf (B.ptsMap s))) by (vm_compute; reflexivity).
  assert (Hsz : size (idSet (nonEmptyIds (idsOf (B.ptsMap s)))) ≤ 3)
    by (vm_compute; repeat constructor).
  destruct (X7_topN_bounds (K:=nat) 1 2) as [Hb _].
  destruct (Hb s Hfit (le_S 1 1 (le_n 1))) as (H1 & H2 & H3 & H4 & _).
  destruct (X7_topN_bounds (K:=nat) 3 3) as [Hb3 _].
  destruct (Hb3 s Hfit (le_n 3)) as (_ & _ & _ & _ & H5).
  split; [split; [exact Hfit|split; [repeat constructor|exact Hsz]]|].
  split; [exact H1|]. split; [exact H2|]. split; [exact H3|].
  split; [exact H4|exact (H5 Hsz)].
Defined.

(** ** The diff store *)

(** X8. [updatePropaPtsMap(src, dst)] of the diff store leaves in
    [propa[dst]] what was propagated for both [dst] and [src]; the
    propagated set of every other key, the diff map and the points-to data
    stay as they were, so no propagated set grows. *)
Theorem X8_updatePropaPtsMap_intersects `{Countable K} (c : Cache.t)
    (s : Diff.t K) (src dst : K) :
  Cache.wf c → propa_valid c s →
  let r := Diff.updatePropaPtsMap c s src dst in
  Diff.propaOf r.1 r.2 dst = Diff.propaOf c s dst ∩ Diff.propaOf c s src ∧
  (∀ k, k ≠ dst → Diff.propaOf r.1 r.2 k = Diff.propaOf c s k) ∧
  (∀ k, Diff.propaOf r.1 r.2 k ⊆ Diff.propaOf c s k) ∧
  Diff.diffPtsMap r.2 = Diff.diffPtsMap s ∧
  Diff.persPTData r.2 = Diff.persPTData s.
Proof.
  intros Hwf Hv r. subst r. unfold Diff.updatePropaPtsMap.
  rewrite rd_subscript.
  destruct (Cache.intersectPts c _ _) as [id c'] eqn:E.
  apply intersectPts_ok in E as (Hp & Hid & Hwf').
  unfold Diff.propaOf. cbn [fst snd Diff.propaPtsMap Diff.diffPtsMap Diff.persPTData].
  assert (Hoth : ∀ k, k ≠ dst →
    Cache.getActualPts c' (rd 0 (<[dst:=id]>
       (subscript 0 (subscript 0 (Diff.propaPtsMap s) dst) src)) k)
    = Cache.getActualPts c (rd 0 (Diff.propaPtsMap s) k)).
  { intros k Hk. rewrite rd_insert_ne, !rd_subscript by done.
    apply getActualPts_prefix; [done|apply Hv]. }
  assert (Hdst : Cache.getActualPts c' (rd 0 (<[dst:=id]>
       (subscript 0 (subscript 0 (Diff.propaPtsMap s) dst) src)) dst)
    = Cache.getActualPts c (rd 0 (Diff.propaPtsMap s) dst)
      ∩ Cache.getActualPts c (rd 0 (Diff.propaPtsMap s) src)).
  { rewrite rd_insert_eq. by apply getActualPts_lookup. }
  split_and!; try done.
  intros k. destruct (decide (k = dst)) as [->|Hk].
  - rewrite Hdst. set_solver.
  - by rewrite Hoth.
Qed.

Lemma sample_diff_valid :
  let r := Diff.computeDiffPts Cache.new (Diff.new (K:=nat) true) 0 {[1; 2]} in
  let r' := Diff.computeDiffPts r.1.2 r.2 1 {[2; 3]} in
  Cache.wf r'.1.2 ∧ propa_valid r'.1.2 r'.2.
Proof.
  intros r r'.
  destruct (computeDiffPts_spec Cache.new (Diff.new (K:=nat) true) 0 {[1; 2]}
              r.1.1 r.1.2 r.2 wf_new (propa_valid_new _ _ wf_new))
    as (_ & Hwf & Hv & _); [by rewrite <-!surjective_pairing|].
  destruct (computeDiffPts_spec r.1.2 r.2 1 {[2; 3]} r'.1.1 r'.1.2 r'.2 Hwf Hv)
    as (_ & Hwf' & Hv' & _); [by rewrite <-!surjective_pairing|].
  by split.
Qed.

Lemma X8_updatePropaPtsMap_intersects_witness :
  let r := Diff.computeDiffPts Cache.new (Diff.new (K:=nat) true) 0 {[1; 2]} in
  let r' := Diff.computeDiffPts r.1.2 r.2 1 {[2; 3]} in
  let c := r'.1.2 in
  let s := r'.2 in
  let u := Diff.updatePropaPtsMap c s 0 1 in
  (Cache.wf c ∧ propa_valid c s) ∧
  Diff.propaOf u.1 u.2 1 = Diff.propaOf c s 1 ∩ Diff.propaOf c s 0 ∧
  (∀ k, k ≠ 1 → Diff.propaOf u.1 u.2 k = Diff.propaOf c s k) ∧
  (∀ k, Diff.propaOf u.1 u.2 k ⊆ Diff.propaOf c s k) ∧
  Diff.diffPtsMap u.2 = Diff.diffPtsMap s ∧
  Diff.persPTData u.2 = Diff.persPTData s.
Proof.
  intros r r' c s u.
  destruct sample_diff_valid as [Hwf Hv].
  split; [by split|].
  exact (X8_updatePropaPtsMap_intersects c s 0 1 Hwf Hv).
Defined.

(** X9. After [clearPropaPts(k)], [computeDiffPts(k, S)] of the diff store
    finds all of [S] new: the diff is [S], the propagated set is [S], and the
    call returns true exactly when [S] is not empty.  Neither operation
    touches the points-to data or the diff of another key. *)
Theorem X9_clearPropaPts_restarts `{Countable K} (c : Cache.t) (s : Diff.t K)
    (k : K) (S : gset nat) :
  Cache.wf c → propa_valid c s →
  let r := Diff.computeDiffPts c (Diff.clearPropaPts s k) k S in
  Diff.diffOf r.1.2 r.2 k = S ∧ Diff.propaOf r.1.2 r.2 k = S ∧
  (r.1.1 = true ↔ S ≠ ∅) ∧
  Diff.persPTData r.2 = Diff.persPTData s ∧
  (∀ k', k' ≠ k → rd 0 (Diff.diffPtsMap r.2) k' = rd 0 (Diff.diffPtsMap s) k' ∧
                  rd 0 (Diff.propaPtsMap r.2) k' = rd 0 (Diff.propaPtsMap s) k').
Proof.
  intros Hwf Hv r. subst r.
  assert (Hv0 : propa_valid c (Diff.clearPropaPts s k)).
  { intros k'. unfold Diff.clearPropaPts; simpl. rewrite rd_insert.
    case_decide; [by apply wf_empty_valid|apply Hv]. }
  destruct (Diff.computeDiffPts c (Diff.clearPropaPts s k) k S)
    as [[b c'] s'] eqn:E.
  pose proof (computeDiffPts_spec _ _ _ _ _ _ _ Hwf Hv0 E)
    as (_ & _ & _ & Hd & Hp & Hb).
  assert (Hzero : Diff.propaOf c (Diff.clearPropaPts s k) k = ∅).
  { unfold Diff.propaOf, Diff.clearPropaPts; simpl.
    rewrite rd_insert_eq. by apply getActualPts_empty. }
  rewrite Hzero, difference_empty_L in Hd. cbn [fst snd].
  split_and!; try done.
  - by rewrite Hb, Hd.
  - unfold Diff.computeDiffPts in E.
    destruct (Cache.emplacePts c S) as [allId c1].
    destruct (Cache.complementPts c1 allId _) as [diffId c2].
    by injection E as _ _ <-.
  - intros k' Hk. unfold Diff.computeDiffPts in E.
    destruct (Cache.emplacePts c S) as [allId c1].
    destruct (Cache.complementPts c1 allId _) as [diffId c2].
    injection E as _ _ <-. simpl. by rewrite !rd_insert_ne.
Qed.

Lemma X9_clearPropaPts_restarts_witness :
  let r := Diff.computeDiffPts Cache.new (Diff.new (K:=nat) true) 0 {[1; 2]} in
  let r' := Diff.computeDiffPts r.1.2 r.2 1 {[2; 3]} in
  let c := r'.1.2 in
  let s := r'.2 in
  let u := Diff.computeDiffPts c (Diff.clearPropaPts s 0) 0 {[1; 2]} in
  (Cache.wf c ∧ propa_valid c s) ∧
  Diff.diffOf u.1.2 u.2 0 = {[1; 2]} ∧ Diff.propaOf u.1.2 u.2 0 = {[1; 2]} ∧
  (u.1.1 = true ↔ ({[1; 2]} : gset nat) ≠ ∅) ∧
  Diff.persPTData u.2 = Diff.persPTData s ∧
  (∀ k', k' ≠ 0 → rd 0 (Diff.diffPtsMap u.2) k' = rd 0 (Diff.diffPtsMap s) k' ∧
                  rd 0 (Diff.propaPtsMap u.2) k' = rd 0 (Diff.propaPtsMap s) k').
Proof.
  intros r r' c s u.
  destruct sample_diff_valid as [Hwf Hv].
  split; [by split|].
  exact (X9_clearPropaPts_restarts c s 0 {[1; 2]} Hwf Hv).
Defined.

(** ** The data-flow store *)

Section df_more.
Context `{Countable K}.

Lemma sample_inc_inv : inc_wf_inv sample_inc.
Proof. apply inc_wf_inv_run, inc_wf_inv_new, wf_new. Qed.

Lemma df_transfer_frame c (s : DF.t K) u :
  (∀ b, u ≠ DF.Base b) →
  B.revPtsMap (DF.persPTData (DF.runUpdate c s u).2)
    = B.revPtsMap (DF.persPTData s) ∧
  B.rev (DF.persPTData (DF.runUpdate c s u).2) = B.rev (DF.persPTData s) ∧
  DF.rev (DF.runUpdate c s u).2 = DF.rev s.
Proof.
  intros Hu. destruct u as [b| | | | | | |]; [by destruct (Hu b)|..];
    simpl;
    unfold DF.updateAllDFInFromIn, DF.updateAllDFInFromOut, DF.updateDFInFromIn,
      DF.updateDFInFromOut, DF.updateDFOutFromIn, DF.updateTLVPts,
      DF.updateATVPts, DF.unionPtsThroughIds; simpl;
    by destruct (Cache.unionPts c _ _).
Qed.

Lemma hasDFInSetVar_lookup2 (s : DF.t K) l k :
  DF.hasDFInSetVar s l k = bool_decide (is_Some (lookup2 (DF.dfInPtsMap s) l k)).
Proof.
  unfold DF.hasDFInSetVar, lookup2. by destruct (DF.dfInPtsMap s !! l).
Qed.

Lemma hasDFOutSetVar_lookup2 (s : DF.t K) l k :
  DF.hasDFOutSetVar s l k = bool_decide (is_Some (lookup2 (DF.dfOutPtsMap s) l k)).
Proof.
  unfold DF.hasDFOutSetVar, lookup2. by destruct (DF.dfOutPtsMap s !! l).
Qed.

Lemma lookup2_subscript2_eq (m : gmap nat (gmap K nat)) l k :
  lookup2 (DF.subscript2 m l k) l k = Some (DF.rd2 m l k).
Proof.
  unfold lookup2, DF.subscript2, DF.rd2. rewrite lookup_insert_eq. simpl.
  generalize (rd ∅ m l). intros m0.
  unfold subscript, rd. destruct (m0 !! k) as [v|] eqn:E.
  - by rewrite E.
  - by rewrite lookup_insert_eq.
Qed.

Lemma df_outFromIn_weak_irrelevant l (v v' : K) (ks : list K) acc :
  foldl (DF.outFromInBody l v false) acc ks
  = foldl (DF.outFromInBody l v' false) acc ks.
Proof.
  revert acc. induction ks as [|k ks IH]; intros acc; [done|].
  simpl. rewrite IH. by destruct acc as [[? ?] ?].
Qed.

End df_more.

(** X10. Every update of the data-flow store, the inherited ones and the
    seven transfers alike, leaves in its destination slot the union of what
    the slot held and what the source held, moves no other slot, keeps every
    ID one the cache issued, and returns false exactly when the source was
    already within the destination (so always when the two are the same
    slot). *)
Theorem X10_df_update_joins `{Countable K} (c : Cache.t) (s : DF.t K)
    (u : DF.update K) :
  Cache.wf c → df_valid c s →
  let r := DF.runUpdate c s u in
  Cache.getActualPts r.1.2 (DF.deref r.2 (DF.dstOf u))
    = Cache.getActualPts c (DF.deref s (DF.dstOf u)) ∪ df_srcOf c s u ∧
  (∀ ref, ref ≠ DF.dstOf u →
     DF.deref r.2 ref = DF.deref s ref ∧
     Cache.getActualPts r.1.2 (DF.deref r.2 ref)
       = Cache.getActualPts c (DF.deref s ref)) ∧
  (r.1.1 = false
   ↔ df_srcOf c s u ⊆ Cache.getActualPts c (DF.deref s (DF.dstOf u))) ∧
  Cache.wf r.1.2 ∧ df_valid r.1.2 r.2.
Proof.
  intros Hwf Hv r. subst r.
  destruct (DF.runUpdate c s u) as [[b c'] s'] eqn:E. cbn [fst snd].
  apply df_runUpdate_spec in E as (Hp & Hwf' & Hv' & Hdst & Hoth & Hb);
    [|done..].
  split_and!; try done.
  - intros ref Hne. split; [by apply Hoth|].
    rewrite Hoth by done. apply getActualPts_prefix; [done|apply Hv].
  - rewrite Hb, bool_decide_eq_false.
    rewrite (id_change_iff_set_change c c') by (done || apply Hv || apply Hv').
    rewrite Hdst. split.
    + intros Hn d Hd.
      destruct (decide (d ∈ Cache.getActualPts c (DF.deref s (DF.dstOf u))))
        as [|Hnd]; [done|].
      destruct Hn. intros Heq. apply Hnd. rewrite <-Heq. set_solver.
    + intros Hsub Hn. apply Hn. set_solver.
Qed.

Lemma X10_df_update_joins_witness :
  let c := sample_inc.1 in
  let s := Inc.base sample_inc.2 in
  let u := DF.UpdateDFOutFromIn 9 10 9 11 in
  let r := DF.runUpdate c s u in
  (Cache.wf c ∧ df_valid c s) ∧
  Cache.getActualPts r.1.2 (DF.deref r.2 (DF.dstOf u))
    = Cache.getActualPts c (DF.deref s (DF.dstOf u)) ∪ df_srcOf c s u ∧
  (∀ ref, ref ≠ DF.dstOf u →
     DF.deref r.2 ref = DF.deref s ref ∧
     Cache.getActualPts r.1.2 (DF.deref r.2 ref)
       = Cache.getActualPts c (DF.deref s ref)) ∧
  (r.1.1 = false
   ↔ df_srcOf c s u ⊆ Cache.getActualPts c (DF.deref s (DF.dstOf u))) ∧
  Cache.wf r.1.2 ∧ df_valid r.1.2 r.2.
Proof.
  intros c s u r.
  destruct (sample_inc_inv) as [Hwf Hv].
  split; [by split|].
  exact (X10_df_update_joins c s u Hwf Hv).
Defined.

(** X11. The transfers of the data-flow store write IDs only: none of them
    touches the reverse map of the embedded basic store.  So when
    [updateTLVPts] brings a datum [d] from an IN set into the top-level set of
    [dK], the reverse set of [d] still lacks [dK]. *)
Theorem X11_df_transfers_skip_reverse `{Countable K} (c : Cache.t) (s : DF.t K) :
  (∀ u, (∀ b, u ≠ DF.Base b) →
     B.revPtsMap (DF.persPTData (DF.runUpdate c s u).2)
       = B.revPtsMap (DF.persPTData s)) ∧
  (∀ sL sK dK d,
     Cache.wf c → df_valid c s →
     d ∈ DF.inOf c s sL sK → dK ∉ B.revOf (DF.persPTData s) d →
     let r := DF.updateTLVPts c s sL sK dK in
     d ∈ B.ptsOf r.1.2 (DF.persPTData r.2) dK ∧
     dK ∉ B.revOf (DF.persPTData r.2) d).
Proof.
  split.
  - intros u Hu. by apply df_transfer_frame.
  - intros sL sK dK d Hwf Hv Hd Hrev r.
    destruct (df_runUpdate_spec c s (DF.UpdateTLVPts sL sK dK)
                r.1.1 r.1.2 r.2 Hwf Hv) as (_ & _ & _ & Hdst & _);
      [subst r; by rewrite <-!surjective_pairing|].
    destruct (df_transfer_frame c s (DF.UpdateTLVPts sL sK dK)) as (Hr & _);
      [done|].
    simpl in Hdst, Hr. fold r in Hdst, Hr. split.
    + unfold B.ptsOf. rewrite Hdst. set_solver.
    + unfold B.revOf in *. by rewrite Hr.
Qed.

Lemma X11_df_transfers_skip_reverse_witness :
  let c := sample_inc.1 in
  let s := Inc.base sample_inc.2 in
  let r := DF.updateTLVPts c s 9 10 5 in
  (Cache.wf c ∧ df_valid c s ∧
   1 ∈ DF.inOf c s 9 10 ∧ 5 ∉ B.revOf (DF.persPTData s) 1) ∧
  1 ∈ B.ptsOf r.1.2 (DF.persPTData r.2) 5 ∧
  5 ∉ B.revOf (DF.persPTData r.2) 1.
Proof.
  intros c s r.
  destruct (sample_inc_inv) as [Hwf Hv].
  assert (Hin : 1 ∈ DF.inOf c s 9 10) by (vm_compute; reflexivity).
  assert (Hrev : 5 ∉ B.revOf (DF.persPTData s) 1).
  { intros Hx. vm_compute in Hx. discriminate Hx. }
  split; [by split_and!|].
  destruct (X11_df_transfers_skip_reverse c s) as [_ Hx].
  exact (Hx 9 10 5 1 Hwf Hv Hin Hrev).
Defined.

(** X12. [getDFInPtsSet(l, k)] and [getDFOutPtsSet(l, k)] return the set
    behind the slot, the empty set when the slot has no entry, and create the
    entry: afterwards [hasDFInSet(l, k)] (resp. [hasDFOutSet(l, k)]) holds.
    No slot changes its ID, no other entry appears, and the other maps stay
    as they were. *)
Theorem X12_df_getter_creates_entry `{Countable K} (c : Cache.t) (s : DF.t K)
    (l : nat) (k : K) :
  (let r := DF.getDFInPtsSet c s l k in
   r.1 = DF.inOf c s l k ∧
   DF.hasDFInSetVar r.2 l k = true ∧ DF.hasDFInSet r.2 l = true ∧
   (∀ ref, DF.deref r.2 ref = DF.deref s ref) ∧
   (∀ l' k', (l, k) ≠ (l', k') →
      lookup2 (DF.dfInPtsMap r.2) l' k' = lookup2 (DF.dfInPtsMap s) l' k') ∧
   DF.dfOutPtsMap r.2 = DF.dfOutPtsMap s ∧
   DF.persPTData r.2 = DF.persPTData s ∧
   (Cache.wf c → DF.hasDFInSetVar s l k = false → r.1 = ∅)) ∧
  (let r := DF.getDFOutPtsSet c s l k in
   r.1 = DF.outOf c s l k ∧
   DF.hasDFOutSetVar r.2 l k = true ∧ DF.hasDFOutSet r.2 l = true ∧
   (∀ ref, DF.deref r.2 ref = DF.deref s ref) ∧
   (∀ l' k', (l, k) ≠ (l', k') →
      lookup2 (DF.dfOutPtsMap r.2) l' k' = lookup2 (DF.dfOutPtsMap s) l' k') ∧
   DF.dfInPtsMap r.2 = DF.dfInPtsMap s ∧
   DF.persPTData r.2 = DF.persPTData s ∧
   (Cache.wf c → DF.hasDFOutSetVar s l k = false → r.1 = ∅)).
Proof.
  split; intros r; subst r.
  - unfold DF.getDFInPtsSet. cbn [DF.getDFInPtIdRef fst snd].
    change (DF.deref _ (DF.InRef l k)) with
      (DF.deref (DF.getDFInPtIdRef s l k).2 (DF.InRef l k)).
    rewrite deref_getDFInPtIdRef. split_and!; try done.
    + rewrite hasDFInSetVar_lookup2. cbn [DF.dfInPtsMap].
      by rewrite lookup2_subscript2_eq, bool_decide_true.
    + unfold DF.hasDFInSet, DF.subscript2. cbn [DF.dfInPtsMap].
      by rewrite lookup_insert_eq, bool_decide_true.
    + intros ref. apply (deref_getDFInPtIdRef s l k ref).
    + intros l' k' Hne. cbn [DF.dfInPtsMap]. by apply lookup2_subscript2.
    + intros Hwf Hno. rewrite hasDFInSetVar_lookup2 in Hno.
      apply bool_decide_eq_false in Hno. unfold DF.inOf, DF.deref.
      rewrite lookup2_rd2.
      destruct (lookup2 (DF.dfInPtsMap s) l k); [by destruct Hno|].
      by apply getActualPts_empty.
  - unfold DF.getDFOutPtsSet. cbn [DF.getDFOutPtIdRef fst snd].
    change (DF.deref _ (DF.OutRef l k)) with
      (DF.deref (DF.getDFOutPtIdRef s l k).2 (DF.OutRef l k)).
    rewrite deref_getDFOutPtIdRef. split_and!; try done.
    + rewrite hasDFOutSetVar_lookup2. cbn [DF.dfOutPtsMap].
      by rewrite lookup2_subscript2_eq, bool_decide_true.
    + unfold DF.hasDFOutSet, DF.subscript2. cbn [DF.dfOutPtsMap].
      by rewrite lookup_insert_eq, bool_decide_true.
    + intros ref. apply (deref_getDFOutPtIdRef s l k ref).
    + intros l' k' Hne. cbn [DF.dfOutPtsMap]. by apply lookup2_subscript2.
    + intros Hwf Hno. rewrite hasDFOutSetVar_lookup2 in Hno.
      apply bool_decide_eq_false in Hno. unfold DF.outOf, DF.deref.
      rewrite lookup2_rd2.
      destruct (lookup2 (DF.dfOutPtsMap s) l k); [by destruct Hno|].
      by apply getActualPts_empty.
Qed.

Lemma X12_df_getter_creates_entry_witness :
  let c := sample_inc.1 in
  let s := Inc.base sample_inc.2 in
  (Cache.wf c ∧ DF.hasDFInSetVar s 9 12 = false ∧
   DF.hasDFOutSetVar s 9 10 = false) ∧
  (DF.getDFInPtsSet c s 9 12).1 = ∅ ∧
  DF.hasDFInSetVar (DF.getDFInPtsSet c s 9 12).2 9 12 = true ∧
  (DF.getDFOutPtsSet c s 9 10).1 = ∅ ∧
  DF.hasDFOutSet (DF.getDFOutPtsSet c s 9 10).2 9 = true.
Proof.
  intros c s.
  destruct (sample_inc_inv) as [Hwf _].
  destruct (X12_df_getter_creates_entry c s 9 12)
    as [(_ & Hi1 & _ & _ & _ & _ & _ & Hi2) _].
  destruct (X12_df_getter_creates_entry c s 9 10)
    as [_ (_ & _ & Ho1 & _ & _ & _ & _ & Ho2)].
  split; [split; [exact Hwf|split; reflexivity]|].
  split; [exact (Hi2 Hwf eq_refl)|]. split; [exact Hi1|].
  split; [exact (Ho2 Hwf eq_refl)|exact Ho1].
Defined.

(** X13. Without strong updates, [updateAllDFOutFromIn(l, v, false)] of the
    data-flow store joins IN into OUT for every key with an entry in
    [dfIn[l]], [v] included, whichever [v] is passed; it moves no other slot
    and returns true exactly when one of these IN sets was not yet within its
    OUT set.  At a location without an IN map it does nothing. *)
Theorem X13_weak_update_joins_all `{Countable K} (c : Cache.t) (s : DF.t K)
    (l : nat) (v v' : K) :
  Cache.wf c → df_valid c s →
  let r := DF.updateAllDFOutFromIn c s l v false in
  (∀ k, DF.hasDFInSetVar s l k = true →
        DF.outOf r.1.2 r.2 l k = DF.outOf c s l k ∪ DF.inOf c s l k) ∧
  (∀ ref, (∀ k, DF.hasDFInSetVar s l k = true → ref ≠ DF.OutRef l k) →
          DF.deref r.2 ref = DF.deref s ref) ∧
  (r.1.1 = true ↔ ∃ k, DF.hasDFInSetVar s l k = true ∧
                       ¬ DF.inOf c s l k ⊆ DF.outOf c s l k) ∧
  (DF.hasDFInSet s l = false → r = (false, c, s)) ∧
  DF.updateAllDFOutFromIn c s l v' false = r.
Proof.
  intros Hwf Hv r. subst r.
  assert (Hirr : DF.updateAllDFOutFromIn c s l v' false
                 = DF.updateAllDFOutFromIn c s l v false).
  { unfold DF.updateAllDFOutFromIn. case_match; [|done].
    apply df_outFromIn_weak_irrelevant. }
  destruct (DF.updateAllDFOutFromIn c s l v false) as [[b c'] s'] eqn:E.
  cbn [fst snd]. unfold DF.updateAllDFOutFromIn in E.
  destruct (DF.hasDFInSet s l) eqn:Hhas.
  - apply df_outFromIn_loop in E
      as (Hp & Hwf' & Hv' & Hoth & Hpts & Hb & _);
      [|apply NoDup_fst_map_to_list|done..].
    split_and!; try done.
    + intros k Hin%hasDFInSetVar_keys. by apply Hpts.
    + intros ref Href. apply Hoth. intros k Hin%hasDFInSetVar_keys _.
      by apply Href.
    + rewrite Hb. split.
      * intros [?|(k & Hin & _ & Hne)]; [done|]. exists k.
        split; [by apply hasDFInSetVar_keys|].
        apply (id_change_iff_set_change c c') in Hne;
          [|done|done|apply Hv|apply Hv'].
        fold (DF.outOf c' s' l k) in Hne. fold (DF.outOf c s l k) in Hne.
        rewrite (Hpts k Hin eq_refl) in Hne. set_solver.
      * intros (k & Hin%hasDFInSetVar_keys & Hsub). right. exists k.
        split_and!; [done|done|].
        apply (id_change_iff_set_change c c'); [done|done|apply Hv|apply Hv'|].
        fold (DF.outOf c' s' l k). fold (DF.outOf c s l k).
        rewrite (Hpts k Hin eq_refl). set_solver.
  - injection E as <- <- <-. split_and!; try done.
    + intros k Hin%hasDFInSetVar_hasDFInSet. congruence.
    + split; [done|]. intros (k & Hin%hasDFInSetVar_hasDFInSet & _). congruence.
Qed.

Lemma X13_weak_update_joins_all_witness :
  let c := sample_inc.1 in
  let s := Inc.base sample_inc.2 in
  let r := DF.updateAllDFOutFromIn c s 9 10 false in
  (Cache.wf c ∧ df_valid c s) ∧
  (∀ k, DF.hasDFInSetVar s 9 k = true →
        DF.outOf r.1.2 r.2 9 k = DF.outOf c s 9 k ∪ DF.inOf c s 9 k) ∧
  (∀ ref, (∀ k, DF.hasDFInSetVar s 9 k = true → ref ≠ DF.OutRef 9 k) →
          DF.deref r.2 ref = DF.deref s ref) ∧
  (r.1.1 = true ↔ ∃ k, DF.hasDFInSetVar s 9 k = true ∧
                       ¬ DF.inOf c s 9 k ⊆ DF.outOf c s 9 k) ∧
  (DF.hasDFInSet s 9 = false → r = (false, c, s)) ∧
  DF.updateAllDFOutFromIn c s 9 11 false = r.
Proof.
  intros c s r.
  destruct (sample_inc_inv) as [Hwf Hv].
  split; [by split|].
  exact (X13_weak_update_joins_all c s 9 10 11 Hwf Hv).
Defined.

(** ** The incremental store *)

(** X14. [updateDFInFromOut] of the incremental store runs only when the
    source is flagged in OUT; otherwise it returns false and changes nothing.
    When it runs it is the transfer of the data-flow store: it does not
    consume the source's flag, removes no flag at all, and flags the
    destination in IN exactly when it returns true. *)
Theorem X14_in_from_out_guarded `{Countable K} (c : Cache.t) (s : Inc.t K)
    (sL : nat) (sK : K) (dL : nat) (dK : K) :
  let r := Inc.updateDFInFromOut c s sL sK dL dK in
  (Inc.varHasNewDFOutPts s sL sK = false → r = (false, c, s)) ∧
  (Inc.varHasNewDFOutPts s sL sK = true →
     (r.1.1, r.1.2, Inc.base r.2)
       = DF.updateDFInFromOut c (Inc.base s) sL sK dL dK ∧
     Inc.outUpdatedVarMap r.2 = Inc.outUpdatedVarMap s ∧
     (∀ l k, Inc.varHasNewDFInPts r.2 l k = true
             ↔ Inc.varHasNewDFInPts s l k = true
               ∨ (r.1.1 = true ∧ (l, k) = (dL, dK)))).
Proof.
  intros r. split.
  - intros Hd. subst r. unfold Inc.updateDFInFromOut. by rewrite Hd.
  - intros Hd.
    by apply (inc_in_transfer_flags c s (DF.UpdateDFInFromOut sL sK dL dK)).
Qed.

Lemma X14_in_from_out_guarded_witness :
  let c := sample_inc.1 in
  let s := sample_inc.2 in
  let r := Inc.updateDFInFromOut c s 8 10 7 10 in
  (Inc.varHasNewDFOutPts s 9 10 = false ∧ Inc.varHasNewDFOutPts s 8 10 = true) ∧
  Inc.updateDFInFromOut c s 9 10 7 10 = (false, c, s) ∧
  (r.1.1, r.1.2, Inc.base r.2) = DF.updateDFInFromOut c (Inc.base s) 8 10 7 10 ∧
  Inc.outUpdatedVarMap r.2 = Inc.outUpdatedVarMap s ∧
  (∀ l k, Inc.varHasNewDFInPts r.2 l k = true
          ↔ Inc.varHasNewDFInPts s l k = true
            ∨ (r.1.1 = true ∧ (l, k) = (7, 10))).
Proof.
  intros c s r.
  destruct (X14_in_from_out_guarded c s 9 10 7 10) as [Hskip _].
  destruct (X14_in_from_out_guarded c s 8 10 7 10) as [_ Hrun].
  split; [split; reflexivity|].
  split; [exact (Hskip eq_refl)|exact (Hrun eq_refl)].
Defined.

(** X15. [updateAllDFInFromIn] and [updateAllDFInFromOut] of the incremental
    store ignore the flags of the source: they are the transfers of the
    data-flow store, so the destination IN set becomes its union with the
    source set even from an unflagged source.  They remove no flag and flag
    the destination in IN exactly when they return true. *)
Theorem X15_update_all_in_unconditional `{Countable K} (c : Cache.t)
    (s : Inc.t K) (sL : nat) (sK : K) (dL : nat) (dK : K) :
  (let r := Inc.updateAllDFInFromIn c s sL sK dL dK in
   (r.1.1, r.1.2, Inc.base r.2)
     = DF.updateAllDFInFromIn c (Inc.base s) sL sK dL dK ∧
   Inc.outUpdatedVarMap r.2 = Inc.outUpdatedVarMap s ∧
   (∀ l k, Inc.varHasNewDFInPts r.2 l k = true
           ↔ Inc.varHasNewDFInPts s l k = true
             ∨ (r.1.1 = true ∧ (l, k) = (dL, dK))) ∧
   (Cache.wf c → inc_valid c s →
    DF.inOf r.1.2 (Inc.base r.2) dL dK
      = DF.inOf c (Inc.base s) dL dK ∪ DF.inOf c (Inc.base s) sL sK)) ∧
  (let r := Inc.updateAllDFInFromOut c s sL sK dL dK in
   (r.1.1, r.1.2, Inc.base r.2)
     = DF.updateAllDFInFromOut c (Inc.base s) sL sK dL dK ∧
   Inc.outUpdatedVarMap r.2 = Inc.outUpdatedVarMap s ∧
   (∀ l k, Inc.varHasNewDFInPts r.2 l k = true
           ↔ Inc.varHasNewDFInPts s l k = true
             ∨ (r.1.1 = true ∧ (l, k) = (dL, dK))) ∧
   (Cache.wf c → inc_valid c s →
    DF.inOf r.1.2 (Inc.base r.2) dL dK
      = DF.inOf c (Inc.base s) dL dK ∪ DF.outOf c (Inc.base s) sL sK)).
Proof.
  split; intros r.
  - destruct (inc_in_transfer_flags c s (DF.UpdateAllDFInFromIn sL sK dL dK)
                dL dK eq_refl eq_refl (λ _, eq_refl)) as (Hb & Ho & Hi).
    change (Inc.runUpdate c s _) with r in Hb, Ho, Hi. split_and!; try done.
    intros Hwf Hv.
    destruct (df_runUpdate_spec c (Inc.base s)
                (DF.UpdateAllDFInFromIn sL sK dL dK) r.1.1 r.1.2 (Inc.base r.2)
                Hwf Hv (eq_sym Hb)) as (_ & _ & _ & Hdst & _).
    exact Hdst.
  - destruct (inc_in_transfer_flags c s (DF.UpdateAllDFInFromOut sL sK dL dK)
                dL dK eq_refl eq_refl (λ _, eq_refl)) as (Hb & Ho & Hi).
    change (Inc.runUpdate c s _) with r in Hb, Ho, Hi. split_and!; try done.
    intros Hwf Hv.
    destruct (df_runUpdate_spec c (Inc.base s)
                (DF.UpdateAllDFInFromOut sL sK dL dK) r.1.1 r.1.2 (Inc.base r.2)
                Hwf Hv (eq_sym Hb)) as (_ & _ & _ & Hdst & _).
    exact Hdst.
Qed.

Lemma X15_update_all_in_unconditional_witness :
  let c := sample_inc.1 in
  let s := sample_inc.2 in
  let r := Inc.updateAllDFInFromOut c s 8 10 7 11 in
  (Cache.wf c ∧ inc_valid c s) ∧
  DF.inOf r.1.2 (Inc.base r.2) 7 11
    = DF.inOf c (Inc.base s) 7 11 ∪ DF.outOf c (Inc.base s) 8 10.
Proof.
  intros c s r.
  destruct (sample_inc_inv) as [Hwf Hv].
  split; [by split|].
  destruct (X15_update_all_in_unconditional c s 8 10 7 11)
    as [_ (_ & _ & _ & Hx)].
  exact (Hx Hwf Hv).
Defined.

(** X16. [updateTLVPts] of the incremental store runs only when the source
    is flagged in IN, and then consumes that flag before the union: it is the
    transfer of the data-flow store, no other flag moves, and nothing is
    flagged for the top-level destination.  So a second [updateTLVPts] from
    the same source, to any destination, returns false and changes nothing. *)
Theorem X16_updateTLVPts_consumes `{Countable K} (c : Cache.t) (s : Inc.t K)
    (sL : nat) (sK dK : K) :
  let r := Inc.updateTLVPts c s sL sK dK in
  (Inc.varHasNewDFInPts s sL sK = false → r = (false, c, s)) ∧
  (Inc.varHasNewDFInPts s sL sK = true →
     (r.1.1, r.1.2, Inc.base r.2) = DF.updateTLVPts c (Inc.base s) sL sK dK ∧
     Inc.outUpdatedVarMap r.2 = Inc.outUpdatedVarMap s ∧
     (∀ l k, Inc.varHasNewDFInPts r.2 l k = true
             ↔ Inc.varHasNewDFInPts s l k = true ∧ (l, k) ≠ (sL, sK)) ∧
     (∀ dK', Inc.updateTLVPts r.1.2 r.2 sL sK dK' = (false, r.1.2, r.2))).
Proof.
  intros r.
  assert (Hskip : ∀ c0 (s0 : Inc.t K) dK0,
            Inc.varHasNewDFInPts s0 sL sK = false →
            Inc.updateTLVPts c0 s0 sL sK dK0 = (false, c0, s0)).
  { intros c0 s0 dK0 Hd. unfold Inc.updateTLVPts. by rewrite Hd. }
  split; [apply Hskip|]. intros Hd.
  destruct (inc_runUpdate_shape c s (DF.UpdateTLVPts sL sK dK) Hd)
    as (Hbase & Hin & Hout).
  change (Inc.runUpdate c s (DF.UpdateTLVPts sL sK dK)) with r in Hbase, Hin, Hout.
  cbv zeta in Hin, Hout.
  assert (Hin' : Inc.inUpdatedVarMap r.2
                 = Inc.inUpdatedVarMap (Inc.removeVarFromDFInUpdatedSet s sL sK))
    by (by destruct (r.1.1)).
  assert (Hout' : Inc.outUpdatedVarMap r.2 = Inc.outUpdatedVarMap s).
  { rewrite <-(outMap_removeIn s sL sK). by destruct (r.1.1). }
  assert (Hflags : ∀ l k, Inc.varHasNewDFInPts r.2 l k = true
             ↔ Inc.varHasNewDFInPts s l k = true ∧ (l, k) ≠ (sL, sK)).
  { intros l k. rewrite !varHasNewDFInPts_true. unfold Inc.isInDirty at 1.
    rewrite Hin'.
    fold (Inc.isInDirty (Inc.removeVarFromDFInUpdatedSet s sL sK) l k).
    rewrite isInDirty_remove. split; intros [? Hne]; (split; [done|]);
      intros Heq; by apply Hne. }
  split_and!; try done.
  intros dK'. apply Hskip.
  destruct (Inc.varHasNewDFInPts r.2 sL sK) eqn:E; [|done].
  by apply Hflags in E as [_ ?].
Qed.

Lemma X16_updateTLVPts_consumes_witness :
  let c := sample_inc.1 in
  let s := sample_inc.2 in
  let r := Inc.updateTLVPts c s 9 10 3 in
  (Inc.varHasNewDFInPts s 9 12 = false ∧ Inc.varHasNewDFInPts s 9 10 = true) ∧
  Inc.updateTLVPts c s 9 12 3 = (false, c, s) ∧
  (r.1.1, r.1.2, Inc.base r.2) = DF.updateTLVPts c (Inc.base s) 9 10 3 ∧
  Inc.outUpdatedVarMap r.2 = Inc.outUpdatedVarMap s ∧
  (∀ l k, Inc.varHasNewDFInPts r.2 l k = true
          ↔ Inc.varHasNewDFInPts s l k = true ∧ (l, k) ≠ (9, 10)) ∧
  (∀ dK', Inc.updateTLVPts r.1.2 r.2 9 10 dK' = (false, r.1.2, r.2)).
Proof.
  intros c s r.
  destruct (X16_updateTLVPts_consumes c s 9 12 3) as [Hskip _].
  destruct (X16_updateTLVPts_consumes c s 9 10 3) as [_ Hrun].
  split; [split; reflexivity|].
  split; [exact (Hskip eq_refl)|exact (Hrun eq_refl)].
Defined.

(** X17. [updateATVPts] of the incremental store is unconditional: it is the
    transfer of the data-flow store from a top-level variable into an OUT
    slot, it leaves the IN flags alone, and it flags the destination in OUT
    exactly when it returns true, removing no OUT flag. *)
Theorem X17_updateATVPts_marks_out `{Countable K} (c : Cache.t) (s : Inc.t K)
    (sK : K) (dL : nat) (dK : K) :
  let r := Inc.updateATVPts c s sK dL dK in
  (r.1.1, r.1.2, Inc.base r.2) = DF.updateATVPts c (Inc.base s) sK dL dK ∧
  Inc.inUpdatedVarMap r.2 = Inc.inUpdatedVarMap s ∧
  (∀ l k, Inc.varHasNewDFOutPts r.2 l k = true
          ↔ Inc.varHasNewDFOutPts s l k = true
            ∨ (r.1.1 = true ∧ (l, k) = (dL, dK))) ∧
  (r.1.1 = true ↔ DF.deref (Inc.base r.2) (DF.OutRef dL dK)
                  ≠ DF.deref (Inc.base s) (DF.OutRef dL dK)).
Proof.
  intros r.
  destruct (inc_runUpdate_shape c s (DF.UpdateATVPts sK dL dK) eq_refl)
    as (Hbase & Hin & Hout).
  change (Inc.runUpdate c s (DF.UpdateATVPts sK dL dK)) with r in Hbase, Hin, Hout.
  cbv zeta in Hin, Hout.
  split_and!; [done|by destruct (r.1.1)| |].
  - intros l k. rewrite !varHasNewDFOutPts_true. unfold Inc.isOutDirty at 1.
    rewrite Hout. destruct (r.1.1).
    + change (inc_consume s (DF.UpdateATVPts sK dL dK)) with s.
      change (inc_mark s (DF.UpdateATVPts sK dL dK))
        with (Inc.setVarDFOutSetUpdated s dL dK).
      fold (Inc.isOutDirty (Inc.setVarDFOutSetUpdated s dL dK) l k).
      rewrite isOutDirty_set.
      split; intros [?|Hx]; [by left|right|by left|right].
      * by injection Hx as <- <-.
      * destruct Hx as [_ [= -> ->]]. done.
    + fold (Inc.isOutDirty s l k). split; [by left|]. by intros [?|[? _]].
  - destruct (df_runUpdate_flag c (Inc.base s) (DF.UpdateATVPts sK dL dK)
                r.1.1 r.1.2 (Inc.base r.2) (eq_sym Hbase)) as [Hb _].
    rewrite Hb. apply bool_decide_eq_true.
Qed.

Section inc_loops.
Context `{Countable K}.

Lemma inc_outFromIn_loop_skipped l v su (ks : list K) acc :
  (∀ k, k ∈ ks → skipped su v k = true) →
  foldl (Inc.outFromInBody (K:=K) l v su) acc ks = acc.
Proof.
  revert acc. induction ks as [|k ks IH]; intros acc Hsk; [done|].
  simpl. rewrite IH by (intros k' Hk'; apply Hsk; by right).
  destruct acc as [[ch c] s]. unfold Inc.outFromInBody.
  fold (skipped su v k). rewrite Hsk by by left. done.
Qed.

Lemma inc_updateDFOutFromIn_inKey c (s : Inc.t K) sl sk dl dk l :
  is_Some (Inc.inUpdatedVarMap s !! l) →
  is_Some (Inc.inUpdatedVarMap (Inc.updateDFOutFromIn c s sl sk dl dk).2 !! l).
Proof.
  intros Hl. unfold Inc.updateDFOutFromIn. case_match; [|done].
  assert (Hrm : is_Some (Inc.inUpdatedVarMap
                           (Inc.removeVarFromDFInUpdatedSet s sl sk) !! l)).
  { unfold Inc.removeVarFromDFInUpdatedSet. case_match; [|done]. simpl.
    rewrite lookup_insert. case_decide; [by eexists|done]. }
  generalize dependent (Inc.removeVarFromDFInUpdatedSet s sl sk). intros s0 Hs0.
  unfold Inc.liftDF.
  destruct (DF.updateDFOutFromIn c (Inc.base s0) sl sk dl dk) as [[r c1] d].
  by destruct r.
Qed.

Lemma inc_outFromIn_loop_inKey l0 l v su (ks : list K) :
  ∀ acc, is_Some (Inc.inUpdatedVarMap acc.2 !! l0) →
  is_Some (Inc.inUpdatedVarMap
             (foldl (Inc.outFromInBody l v su) acc ks).2 !! l0).
Proof.
  induction ks as [|k ks IH]; intros acc Hl; [done|].
  simpl. apply IH. destruct acc as [[ch c] s]. unfold Inc.outFromInBody.
  case_match; [done|].
  pose proof (inc_updateDFOutFromIn_inKey c s l k l k l0 Hl) as Hx.
  by destruct (Inc.updateDFOutFromIn c s l k l k) as [[r c1] s1].
Qed.

Lemma isOutDirty_remove (s : Inc.t K) l k l' k' :
  Inc.isOutDirty (Inc.removeVarFromDFOutUpdatedSet s l k) l' k'
  ↔ Inc.isOutDirty s l' k' ∧ (l, k) ≠ (l', k').
Proof.
  unfold Inc.removeVarFromDFOutUpdatedSet, Inc.isOutDirty, removeKey.
  destruct (Inc.outUpdatedVarMap s !! l) as [vars|] eqn:E; simpl.
  - rewrite rd_insert. destruct (decide (l = l')) as [<-|Hl].
    + unfold rd. rewrite E. simpl. rewrite elem_of_difference, elem_of_singleton.
      split; intros [? Hne]; (split; [done|]); congruence.
    + split; [|by intros [? _]]. intros ?. split; [done|congruence].
  - split; [|by intros [? _]]. intros Hin. split; [done|]. intros [= <- <-].
    unfold rd in Hin. rewrite E in Hin. by apply not_elem_of_empty in Hin.
Qed.

Lemma isOutDirty_remove_all (s : Inc.t K) l (ks : list K) l' k' :
  Inc.isOutDirty
    (foldl (λ s var, Inc.removeVarFromDFOutUpdatedSet s l var) s ks) l' k'
  ↔ Inc.isOutDirty s l' k' ∧ ¬ (l' = l ∧ k' ∈ ks).
Proof.
  revert s. induction ks as [|k ks IH]; intros s; simpl.
  - split; [|by intros [? _]]. intros ?. split; [done|].
    by intros [_ ?%elem_of_nil].
  - rewrite IH, isOutDirty_remove. split.
    + intros [[Hd Hne] Hn]. split; [done|]. intros [-> Hin].
      apply elem_of_cons in Hin as [->|?]; [done|]. by apply Hn.
    + intros [Hd Hn]. split; [split; [done|]|].
      * intros [= <- <-]. apply Hn. split; [done|by left].
      * intros [-> Hin]. apply Hn. split; [done|by right].
Qed.

Lemma hasDFOutSet_true (d : DF.t K) l : DF.hasDFOutSet d l = true ↔ hasOut d l.
Proof. apply bool_decide_eq_true. Qed.

Lemma hasOut_assign (d : DF.t K) r v l :
  hasOut (DF.assign d r v) l ↔ hasOut d l ∨ ∃ k, r = DF.OutRef l k.
Proof.
  unfold hasOut. destruct r as [k|l0 k|l0 k]; simpl.
  - split; [by left|]. by intros [?|[? ?]].
  - split; [by left|]. by intros [?|[? ?]].
  - unfold DF.wr2. rewrite lookup_insert.
    destruct (decide (l0 = l)) as [->|Hl].
    + split; [by right; eauto|by eauto].
    + split; [by left|]. intros [?|[? [= ? ?]]]; done.
Qed.

Lemma df_runUpdate_hasOut c (d : DF.t K) u b c' d' :
  DF.runUpdate c d u = (b, c', d') →
  dfOut_grows d d' ∧ (∀ l k, DF.dstOf u = DF.OutRef l k → hasOut d' l).
Proof.
  destruct u as [u|sl sk dl dk|sl sk dl dk|sl sk dl dk|sl sk dl dk
                |sl sk dl dk|sl sk dk|sk dl dk]; simpl.
  { unfold DF.runBase. destruct (B.runUpdate c _ u) as [[b0 c0] b1].
    intros [= <- <- <-]. split; [by intros l|done]. }
  all: unfold DF.updateAllDFInFromIn, DF.updateAllDFInFromOut,
         DF.updateDFInFromIn, DF.updateDFInFromOut, DF.updateDFOutFromIn,
         DF.updateTLVPts, DF.updateATVPts;
       intros Hu; simpl in Hu;
       apply unionPtsThroughIds_spec in Hu as (_ & _ & _ & _ & _ & ->);
       (split; [intros l Hl|intros l k [= <- <-]]);
       apply hasOut_assign; unfold hasOut in *; simpl;
       unfold DF.subscript2; rewrite ?lookup_insert;
       repeat case_decide; eauto.
Qed.

Lemma inc_out_dirty_inv_runUpdate c (s : Inc.t K) u b c' s' :
  inc_out_dirty_inv (c, s) → Inc.runUpdate c s u = (b, c', s') →
  inc_out_dirty_inv (c', s').
Proof.
  intros Hinv Hu.
  destruct (inc_guard s u) eqn:Hg;
    [|rewrite inc_runUpdate_eq, Hg in Hu; by injection Hu as <- <- <-].
  destruct (inc_runUpdate_shape c s u Hg) as (Hbase & _ & Hout).
  rewrite Hu in Hbase, Hout. cbn [fst snd] in Hbase, Hout.
  symmetry in Hbase. apply df_runUpdate_hasOut in Hbase as [Hg' Hd].
  assert (Hcons : Inc.outUpdatedVarMap (inc_consume s u) = Inc.outUpdatedVarMap s).
  { destruct u; try done; apply outMap_removeIn. }
  intros l k. unfold Inc.isOutDirty. cbn [snd]. rewrite Hout.
  destruct b.
  - destruct u as [u|sl sk dl dk|sl sk dl dk|sl sk dl dk|sl sk dl dk
                  |sl sk dl dk|sl sk dk|sk dl dk];
      cbn [inc_mark Inc.setVarDFInSetUpdated Inc.outUpdatedVarMap];
      try (rewrite ?Hcons; intros Hin; by apply Hg', (Hinv l k)).
    + fold (Inc.isOutDirty (Inc.setVarDFOutSetUpdated
              (inc_consume s (DF.UpdateDFOutFromIn sl sk dl dk)) dl dk) l k).
      intros [Hin|[= <- <-]]%isOutDirty_set; [|by eapply Hd].
      unfold Inc.isOutDirty in Hin. rewrite Hcons in Hin.
      by apply Hg', (Hinv l k).
    + fold (Inc.isOutDirty (Inc.setVarDFOutSetUpdated
              (inc_consume s (DF.UpdateATVPts sk dl dk)) dl dk) l k).
      intros [Hin|[= <- <-]]%isOutDirty_set; [|by eapply Hd].
      by apply Hg', (Hinv l k).
  - rewrite Hcons. intros Hin. by apply Hg', (Hinv l k).
Qed.

Lemma inc_outFromIn_loop_out_inv l v su (ks : list K) :
  ∀ ch c (s : Inc.t K) b c' s',
  inc_out_dirty_inv (c, s) →
  foldl (Inc.outFromInBody l v su) (ch, c, s) ks = (b, c', s') →
  inc_out_dirty_inv (c', s').
Proof.
  induction ks as [|k ks IH]; intros ch c s b c' s' Hinv; simpl.
  { by intros [= <- <- <-]. }
  destruct (su && bool_decide (k = v)); [by apply IH|].
  destruct (Inc.updateDFOutFromIn c s l k l k) as [[r c1] s1] eqn:E.
  change (Inc.runUpdate c s (DF.UpdateDFOutFromIn l k l k) = (r, c1, s1)) in E.
  apply inc_out_dirty_inv_runUpdate in E; [|done]. by apply IH.
Qed.

Lemma isOutDirty_clearAll (s : Inc.t K) l l' k' :
  Inc.isOutDirty (Inc.clearAllDFOutUpdatedVar s l) l' k'
  ↔ Inc.isOutDirty s l' k' ∧ ¬ (l' = l ∧ Inc.hasDFOutSet s l = true).
Proof.
  unfold Inc.clearAllDFOutUpdatedVar.
  destruct (Inc.hasDFOutSet s l) eqn:Hhas.
  - cbn [Inc.getDFOutUpdatedVar]. rewrite isOutDirty_remove_all.
    unfold Inc.isOutDirty at 1. cbn [Inc.outUpdatedVarMap].
    rewrite rd_subscript. fold (Inc.isOutDirty s l' k'). split.
    + intros [Hd Hn]. split; [done|]. intros [-> _]. apply Hn.
      split; [done|]. by apply elem_of_elements.
    + intros [Hd Hn]. split; [done|]. intros [-> _]. by apply Hn.
  - split; [|by intros [? _]]. intros ?. split; [done|]. by intros [_ ?].
Qed.

Lemma inc_out_dirty_inv_step (cs : Cache.t * Inc.t K) (o : Inc.op K) :
  inc_out_dirty_inv cs → inc_out_dirty_inv (Inc.step cs o).
Proof.
  destruct cs as [c s]. intros Hinv.
  destruct o as [u|l v su|l|k e|k| |k|l k|l k]; simpl.
  - destruct (Inc.runUpdate c s u) as [[b c'] s'] eqn:E.
    by apply inc_out_dirty_inv_runUpdate in E.
  - destruct (Inc.updateAllDFOutFromIn c s l v su) as [[b c'] s'] eqn:E.
    unfold Inc.updateAllDFOutFromIn in E. destruct (Inc.hasDFInSet s l).
    + simpl in E. by apply inc_outFromIn_loop_out_inv in E.
    + by simplify_eq.
  - intros l' k' [Hin _]%isOutDirty_clearAll. cbn [snd].
    destruct (clearAllDFOutUpdatedVar_frame s l) as [-> _]. by apply (Hinv l' k').
  - destruct (DF.clearPts c (Inc.base s) k e) as [c' d] eqn:E.
    unfold DF.clearPts in E.
    destruct (B.clearPts c (DF.persPTData (Inc.base s)) k e). simplify_eq.
    apply Hinv.
  - apply Hinv.
  - apply Hinv.
  - unfold DF.getPts. destruct (B.getPts c (DF.persPTData (Inc.base s)) k).
    apply Hinv.
  - apply Hinv.
  - intros l' k' Hin. pose proof (Hinv l' k' Hin) as Hx.
    unfold hasOut in *. simpl in *. unfold DF.subscript2.
    rewrite lookup_insert. by case_decide.
Qed.

Lemma inc_reachable_out_dirty_inv (cs : Cache.t * Inc.t K) :
  inc_reachable cs → inc_out_dirty_inv cs.
Proof.
  intros (c0 & rv & ops & ->).
  assert (Hrun : ∀ (ops : list (Inc.op K)) cs,
            inc_out_dirty_inv cs → inc_out_dirty_inv (foldl Inc.step cs ops)).
  { clear. induction ops as [|o ops IH]; intros cs Hinv; [done|].
    simpl. by apply IH, inc_out_dirty_inv_step. }
  apply Hrun. intros l k Hin. unfold Inc.isOutDirty in Hin. simpl in Hin.
  rewrite rd_empty in Hin. by apply not_elem_of_empty in Hin.
Qed.

End inc_loops.

(** X18. [updateAllDFOutFromIn] of the incremental store settles in one
    pass: called again with the same arguments right after, it returns false
    and changes neither the cache nor the store.  At a location with an IN
    map, the variables still flagged in IN there after the call are the
    singleton of a strong update, if it was flagged. *)
Theorem X18_update_all_out_settles `{Countable K} (c : Cache.t) (s : Inc.t K)
    (l : nat) (v : K) (su : bool) :
  let r := Inc.updateAllDFOutFromIn c s l v su in
  Inc.updateAllDFOutFromIn r.1.2 r.2 l v su = (false, r.1.2, r.2) ∧
  (Inc.hasDFInSet s l = true →
   ∀ k, Inc.varHasNewDFInPts r.2 l k = true
        ↔ Inc.varHasNewDFInPts s l k = true ∧ su = true ∧ k = v).
Proof.
  intros r. subst r.
  destruct (Inc.updateAllDFOutFromIn c s l v su) as [[b c'] s'] eqn:E.
  cbn [fst snd]. unfold Inc.updateAllDFOutFromIn in E.
  destruct (Inc.hasDFInSet s l) eqn:Hhas.
  - cbn [Inc.getDFInUpdatedVar] in E.
    pose proof (inc_outFromIn_loop_inKey l l v su
                  (elements (rd ∅ (Inc.inUpdatedVarMap s) l))
                  (false, c, Inc.mk (Inc.base s) (Inc.outUpdatedVarMap s)
                               (subscript ∅ (Inc.inUpdatedVarMap s) l))) as Hkey.
    rewrite E in Hkey. cbn [snd Inc.inUpdatedVarMap] in Hkey.
    pose proof (inc_outFromIn_loop_dirty _ _ _ _ _ _ _ _ _ _ E) as Hdirty.
    pose proof (inc_outFromIn_loop_hasIn _ _ _ _ _ _ _ _ _ _ E) as Hgrow.
    cbn [Inc.base] in Hgrow.
    assert (Hflag : ∀ k, Inc.isInDirty s' l k
                         ↔ Inc.isInDirty s l k ∧ skipped su v k = true).
    { intros k. rewrite (Hdirty l k). unfold Inc.isInDirty at 1.
      cbn [Inc.inUpdatedVarMap]. rewrite rd_subscript.
      fold (Inc.isInDirty s l k). split.
      - intros [Hd Hn]. split; [done|].
        destruct (skipped su v k) eqn:Hs; [done|].
        destruct Hn. split; [done|]. split; [|done].
        by apply elem_of_elements.
      - intros [Hd Hs]. split; [done|]. intros (_ & _ & ?). congruence. }
    split.
    + unfold Inc.updateAllDFOutFromIn.
      assert (Hhas' : Inc.hasDFInSet s' l = true).
      { apply hasDFInSet_true, Hgrow. by apply hasDFInSet_true in Hhas. }
      rewrite Hhas'. cbn [Inc.getDFInUpdatedVar].
      rewrite subscript_id.
      2:{ apply Hkey. apply subscript_is_Some. by left. }
      rewrite inc_outFromIn_loop_skipped; [by destruct s'|].
      intros k Hk%elem_of_elements. by apply (Hflag k) in Hk as [_ ?].
    + intros _ k. rewrite !varHasNewDFInPts_true, (Hflag k).
      apply and_iff_compat_l. unfold skipped.
      rewrite andb_true_iff, bool_decide_eq_true. done.
  - injection E as <- <- <-. split; [|done].
    unfold Inc.updateAllDFOutFromIn. by rewrite Hhas.
Qed.

Lemma X18_update_all_out_settles_witness :
  let c := sample_inc.1 in
  let s := sample_inc.2 in
  let r := Inc.updateAllDFOutFromIn c s 9 10 true in
  Inc.hasDFInSet s 9 = true ∧
  Inc.updateAllDFOutFromIn r.1.2 r.2 9 10 true = (false, r.1.2, r.2) ∧
  (∀ k, Inc.varHasNewDFInPts r.2 9 k = true
        ↔ Inc.varHasNewDFInPts s 9 k = true ∧ true = true ∧ k = 10).
Proof.
  intros c s r.
  destruct (X18_update_all_out_settles c s 9 10 true) as [H1 H2].
  split; [reflexivity|]. split; [exact H1|exact (H2 eq_refl)].
Defined.

(** X19. [clearAllDFOutUpdatedVar(l)] of the incremental store touches the
    OUT flags of [l] only: the points-to maps, the IN flags and the OUT flags
    of the other locations stay as they were.  When [l] has an OUT map no
    variable is flagged in OUT at [l] afterwards; when it has none the call
    does nothing.  In every state the store can reach a flagged location has
    an OUT map, so there the call always clears the flags of [l]. *)
Theorem X19_clearAllDFOutUpdatedVar_clears `{Countable K} (c : Cache.t)
    (s : Inc.t K) (l : nat) :
  let s' := Inc.clearAllDFOutUpdatedVar s l in
  Inc.base s' = Inc.base s ∧
  Inc.inUpdatedVarMap s' = Inc.inUpdatedVarMap s ∧
  (∀ l' k, l' ≠ l →
     Inc.varHasNewDFOutPts s' l' k = Inc.varHasNewDFOutPts s l' k) ∧
  (Inc.hasDFOutSet s l = true → ∀ k, Inc.varHasNewDFOutPts s' l k = false) ∧
  (Inc.hasDFOutSet s l = false → s' = s) ∧
  (inc_reachable (c, s) → ∀ k, Inc.varHasNewDFOutPts s' l k = false).
Proof.
  intros s'.
  destruct (clearAllDFOutUpdatedVar_frame s l) as [Hb Hi]. fold s' in Hb, Hi.
  assert (Hclr : (∀ k, Inc.isOutDirty s l k → Inc.hasDFOutSet s l = true) →
                 ∀ k, Inc.varHasNewDFOutPts s' l k = false).
  { intros Hhas k. destruct (Inc.varHasNewDFOutPts s' l k) eqn:E; [|done].
    apply varHasNewDFOutPts_true, isOutDirty_clearAll in E as [Hd Hn].
    destruct Hn. split; [done|]. by apply (Hhas k). }
  split_and!; try done.
  - intros l' k Hne. apply Bool.eq_iff_eq_true.
    rewrite !varHasNewDFOutPts_true. subst s'. rewrite isOutDirty_clearAll.
    split; [by intros [? _]|]. intros ?. split; [done|]. by intros [? _].
  - intros Hhas. apply Hclr. by intros.
  - intros Hhas. subst s'. unfold Inc.clearAllDFOutUpdatedVar. by rewrite Hhas.
  - intros Hinv%inc_reachable_out_dirty_inv. apply Hclr. intros k Hd.
    apply (Hinv l k) in Hd. by apply hasDFOutSet_true.
Qed.

Lemma X19_clearAllDFOutUpdatedVar_clears_witness :
  let c := sample_inc.1 in
  let s := sample_inc.2 in
  let s' := Inc.clearAllDFOutUpdatedVar s 8 in
  (inc_reachable (c, s) ∧ Inc.hasDFOutSet s 8 = true ∧
   Inc.varHasNewDFOutPts s 8 10 = true) ∧
  (∀ k, Inc.varHasNewDFOutPts s' 8 k = false) ∧
  Inc.base s' = Inc.base s ∧
  Inc.inUpdatedVarMap s' = Inc.inUpdatedVarMap s.
Proof.
  intros c s s'.
  assert (Hreach : inc_reachable (c, s)).
  { exists Cache.new, true. eexists. unfold c, s, sample_inc.
    by rewrite <-surjective_pairing. }
  destruct (X19_clearAllDFOutUpdatedVar_clears c s 8)
    as (Hb & Hi & _ & _ & _ & Hclr).
  split; [split; [exact Hreach|split; reflexivity]|].
  split; [exact (Hclr Hreach)|]. split; [exact Hb|exact Hi].
Defined.

(** X20. Whatever operations run on an incremental store, from a new store
    over a well-formed cache: the cache stays well formed, every ID in the
    top-level, IN and OUT maps is one the cache issued, a variable flagged in
    IN sits at a location with an IN map, and a variable flagged in OUT at
    one with an OUT map. *)
Theorem X20_incremental_invariants `{Countable K} (c : Cache.t) (reversePT : bool)
    (ops : list (Inc.op K)) :
  Cache.wf c →
  let cs := foldl Inc.step (c, Inc.new reversePT) ops in
  Cache.wf cs.1 ∧
  (∀ ref, Cache.valid cs.1 (DF.deref (Inc.base cs.2) ref)) ∧
  (∀ l k, Inc.varHasNewDFInPts cs.2 l k = true → Inc.hasDFInSet cs.2 l = true) ∧
  (∀ l k, Inc.varHasNewDFOutPts cs.2 l k = true → Inc.hasDFOutSet cs.2 l = true).
Proof.
  intros Hwf cs.
  destruct (inc_wf_inv_run (c, Inc.new reversePT) ops
              (inc_wf_inv_new c reversePT Hwf)) as [Hwf' Hv].
  assert (Hreach : inc_reachable cs) by (by eexists _, _, _).
  split_and!; try done.
  - intros l k Hd%varHasNewDFInPts_true.
    by apply hasDFInSet_true, (inc_reachable_dirty_inv cs Hreach l k).
  - intros l k Hd%varHasNewDFOutPts_true.
    by apply hasDFOutSet_true, (inc_reachable_out_dirty_inv cs Hreach l k).
Qed.

Lemma X20_incremental_invariants_witness :
  Cache.wf Cache.new ∧
  let cs := foldl Inc.step (Cache.new, Inc.new (K:=nat) true)
              [Inc.Update (DF.Base (B.AddPts 0 1));
               Inc.Update (DF.UpdateATVPts 0 8 10);
               Inc.Update (DF.UpdateDFInFromOut 8 10 9 10);
               Inc.UpdateAllDFOutFromIn 9 10 false;
               Inc.ClearAllDFOutUpdatedVar 8; Inc.Clear] in
  Cache.wf cs.1 ∧
  (∀ ref, Cache.valid cs.1 (DF.deref (Inc.base cs.2) ref)) ∧
  (∀ l k, Inc.varHasNewDFInPts cs.2 l k = true → Inc.hasDFInSet cs.2 l = true) ∧
  (∀ l k, Inc.varHasNewDFOutPts cs.2 l k = true → Inc.hasDFOutSet cs.2 l = true).
Proof.
  split; [exact wf_new|].
  exact (X20_incremental_invariants (K:=nat) Cache.new true _ wf_new).
Defined.

(** ** The versioned store *)

Section ver_more.
Context `{Countable K, Countable VK}.

Lemma ver_inv_tl c (s : Ver.t K VK) (o : B.op K) :
  ver_inv (c, s) →
  ver_inv ((B.step (c, Ver.tlPTData s) o).1,
           Ver.mk (Ver.rev s) (B.step (c, Ver.tlPTData s) o).2 (Ver.atPTData s)).
Proof.
  intros (Hr & Htl & Hat). cbn [fst snd] in *.
  pose proof (basic_inv_step _ o Htl) as Htl'.
  pose proof (basic_step_prefix _ o Htl) as Hp.
  split_and!; cbn [fst snd Ver.rev Ver.tlPTData Ver.atPTData]; [done|exact Htl'|].
  apply (basic_inv_prefix c); [done|done|apply Htl'].
Qed.

Lemma ver_inv_at c (s : Ver.t K VK) (o : B.op VK) :
  ver_inv (c, s) →
  ver_inv ((B.step (c, Ver.atPTData s) o).1,
           Ver.mk (Ver.rev s) (Ver.tlPTData s) (B.step (c, Ver.atPTData s) o).2).
Proof.
  intros (Hr & Htl & Hat). cbn [fst snd] in *.
  pose proof (basic_inv_step _ o Hat) as Hat'.
  pose proof (basic_step_prefix _ o Hat) as Hp.
  split_and!; cbn [fst snd Ver.rev Ver.tlPTData Ver.atPTData]; [done| |exact Hat'].
  apply (basic_inv_prefix c); [done|done|apply Hat'].
Qed.

Lemma ver_inv_new c : Cache.wf c → ver_inv (c, Ver.new (K:=K) (VK:=VK) true).
Proof. intros Hwf. split_and!; [done|by apply basic_inv_new..]. Qed.

Lemma ver_inv_step (cs : Cache.t * Ver.t K VK) (o : Ver.op K VK) :
  ver_inv cs → ver_inv (Ver.step cs o).
Proof.
  destruct cs as [c s]. intros Hinv.
  pose proof Hinv as (Hr & (Hwf & Hvtl & Hrtl & _) & (_ & Hvat & Hrat & _)).
  cbn [fst snd] in Hr, Hwf, Hvtl, Hrtl, Hvat, Hrat.
  destruct o as [u|k e|vk e|k|vk| |k|vk|d|d]; cbn [Ver.step].
  - destruct u as [k d|vk d|k k'|vk vk'|vk k|k vk|k ds|vk ds];
      cbn [Ver.runUpdate].
    + pose proof (ver_inv_tl c s (B.Update (B.AddPts k d)) Hinv) as Hx.
      cbn [B.step B.runUpdate] in Hx. unfold Ver.addPts, Ver.withTL.
      by destruct (B.addPts c (Ver.tlPTData s) k d) as [[b c'] s'].
    + pose proof (ver_inv_at c s (B.Update (B.AddPts vk d)) Hinv) as Hx.
      cbn [B.step B.runUpdate] in Hx. unfold Ver.addPtsV, Ver.withAT.
      by destruct (B.addPts c (Ver.atPTData s) vk d) as [[b c'] s'].
    + pose proof (ver_inv_tl c s (B.Update (B.UnionPts k k')) Hinv) as Hx.
      cbn [B.step B.runUpdate] in Hx. unfold Ver.unionPts, Ver.withTL.
      by destruct (B.unionPts c (Ver.tlPTData s) k k') as [[b c'] s'].
    + pose proof (ver_inv_at c s (B.Update (B.UnionPts vk vk')) Hinv) as Hx.
      cbn [B.step B.runUpdate] in Hx. unfold Ver.unionPtsVV, Ver.withAT.
      by destruct (B.unionPts c (Ver.atPTData s) vk vk') as [[b c'] s'].
    + pose proof (ver_inv_tl c s (B.GetPts k) Hinv) as H1.
      cbn [B.step B.getPts fst snd] in H1.
      pose proof (ver_inv_at c _
                    (B.Update (B.UnionPtsData vk (B.ptsOf c (Ver.tlPTData s) k)))
                    H1) as Hx.
      cbn [B.step B.runUpdate Ver.atPTData Ver.tlPTData Ver.rev] in Hx.
      unfold Ver.unionPtsVK, Ver.withAT.
      cbn [Ver.atPTData Ver.tlPTData Ver.rev].
      rewrite unionPtsFromId_as_data by (done || apply Hvtl).
      fold (B.idOf (Ver.tlPTData s) k). fold (B.ptsOf c (Ver.tlPTData s) k).
      by destruct (B.unionPtsData c (Ver.atPTData s) vk _) as [[b c'] s'].
    + pose proof (ver_inv_at c s (B.GetPts vk) Hinv) as H1.
      cbn [B.step B.getPts fst snd] in H1.
      pose proof (ver_inv_tl c _
                    (B.Update (B.UnionPtsData k (B.ptsOf c (Ver.atPTData s) vk)))
                    H1) as Hx.
      cbn [B.step B.runUpdate Ver.atPTData Ver.tlPTData Ver.rev] in Hx.
      unfold Ver.unionPtsKV, Ver.withTL.
      cbn [Ver.atPTData Ver.tlPTData Ver.rev].
      rewrite unionPtsFromId_as_data by (done || apply Hvat).
      fold (B.idOf (Ver.atPTData s) vk). fold (B.ptsOf c (Ver.atPTData s) vk).
      by destruct (B.unionPtsData c (Ver.tlPTData s) k _) as [[b c'] s'].
    + pose proof (ver_inv_tl c s (B.Update (B.UnionPtsData k ds)) Hinv) as Hx.
      cbn [B.step B.runUpdate] in Hx. unfold Ver.unionPtsData, Ver.withTL.
      by destruct (B.unionPtsData c (Ver.tlPTData s) k ds) as [[b c'] s'].
    + pose proof (ver_inv_at c s (B.Update (B.UnionPtsData vk ds)) Hinv) as Hx.
      cbn [B.step B.runUpdate] in Hx. unfold Ver.unionPtsDataV, Ver.withAT.
      by destruct (B.unionPtsData c (Ver.atPTData s) vk ds) as [[b c'] s'].
  - pose proof (ver_inv_tl c s (B.ClearPts k e) Hinv) as Hx.
    cbn [B.step] in Hx. unfold Ver.clearPts.
    by destruct (B.clearPts c (Ver.tlPTData s) k e) as [c' s'].
  - pose proof (ver_inv_at c s (B.ClearPts vk e) Hinv) as Hx.
    cbn [B.step] in Hx. unfold Ver.clearPtsV.
    by destruct (B.clearPts c (Ver.atPTData s) vk e) as [c' s'].
  - exact (ver_inv_tl c s (B.ClearFullPts k) Hinv).
  - exact (ver_inv_at c s (B.ClearFullPts vk) Hinv).
  - pose proof (ver_inv_tl c s B.Clear Hinv) as H1.
    exact (ver_inv_at c _ B.Clear H1).
  - exact (ver_inv_tl c s (B.GetPts k) Hinv).
  - exact (ver_inv_at c s (B.GetPts vk) Hinv).
  - pose proof (ver_inv_tl c s (B.GetRevPts d) Hinv) as Hx.
    cbn [B.step] in Hx. rewrite getRevPts_spec, Hrtl in Hx.
    unfold Ver.getRevPts. rewrite Hr, getRevPts_spec, Hrtl. simpl in *.
    by rewrite Hr in Hx.
  - pose proof (ver_inv_at c s (B.GetRevPts d) Hinv) as Hx.
    cbn [B.step] in Hx. rewrite getRevPts_spec, Hrat in Hx.
    unfold Ver.getVersionedKeyRevPts. rewrite Hr, getRevPts_spec, Hrat.
    simpl in *. by rewrite Hr in Hx.
Qed.

Lemma ver_inv_run cs (ops : list (Ver.op K VK)) :
  ver_inv cs → ver_inv (foldl Ver.step cs ops).
Proof.
  revert cs. induction ops as [|o ops IH]; intros cs Hinv; [done|].
  simpl. by apply IH, ver_inv_step.
Qed.

End ver_more.

(** X21. In a versioned store built with reverse points-to, after any
    sequence of its operations, the cross-space unions included, both sides
    are reverse consistent: a datum is in [getPts(k)] exactly when [k] is in
    [getRevPts] of it, and in [getPts(vk)] exactly when [vk] is in
    [getVersionedKeyRevPts] of it. *)
Theorem X21_versioned_reverse_consistency `{Countable K, Countable VK}
    (c : Cache.t) (ops : list (Ver.op K VK)) :
  Cache.wf c →
  let cs := foldl Ver.step (c, Ver.new true) ops in
  (∀ k d, d ∈ (Ver.getPts cs.1 cs.2 k).1
          ↔ ∃ r, Ver.getRevPts cs.2 d = Some r ∧ k ∈ r.1) ∧
  (∀ vk d, d ∈ (Ver.getPtsV cs.1 cs.2 vk).1
           ↔ ∃ r, Ver.getVersionedKeyRevPts cs.2 d = Some r ∧ vk ∈ r.1).
Proof.
  intros Hwf cs.
  destruct (ver_inv_run (c, Ver.new true) ops (ver_inv_new c Hwf))
    as (Hr & (_ & _ & Hrtl & Hctl) & (_ & _ & Hrat & Hcat)).
  fold cs in Hr, Hrtl, Hctl, Hrat, Hcat. cbn [fst snd] in Hrtl, Hctl, Hrat, Hcat.
  split.
  - intros k d. unfold Ver.getRevPts. rewrite Hr, getRevPts_spec, Hrtl.
    change ((Ver.getPts cs.1 cs.2 k).1) with (B.ptsOf cs.1 (Ver.tlPTData cs.2) k).
    rewrite (Hctl k d). simpl. split.
    + intros Hk. eexists. split; [done|]. done.
    + by intros (r & [= <-] & Hk).
  - intros vk d. unfold Ver.getVersionedKeyRevPts.
    rewrite Hr, getRevPts_spec, Hrat.
    change ((Ver.getPtsV cs.1 cs.2 vk).1)
      with (B.ptsOf cs.1 (Ver.atPTData cs.2) vk).
    rewrite (Hcat vk d). simpl. split.
    + intros Hk. eexists. split; [done|]. done.
    + by intros (r & [= <-] & Hk).
Qed.

Lemma X21_versioned_reverse_consistency_witness :
  Cache.wf Cache.new ∧
  let cs := foldl Ver.step (Cache.new, Ver.new (K:=nat) (VK:=nat * nat) true)
              [Ver.Update (Ver.AddPts 0 1); Ver.Update (Ver.AddPtsV (5, 1) 2);
               Ver.Update (Ver.UnionPtsVK (5, 1) 0);
               Ver.Update (Ver.UnionPtsKV 1 (5, 1));
               Ver.ClearPtsV (5, 1) 2; Ver.ClearFullPts 0] in
  (∀ k d, d ∈ (Ver.getPts cs.1 cs.2 k).1
          ↔ ∃ r, Ver.getRevPts cs.2 d = Some r ∧ k ∈ r.1) ∧
  (∀ vk d, d ∈ (Ver.getPtsV cs.1 cs.2 vk).1
           ↔ ∃ r, Ver.getVersionedKeyRevPts cs.2 d = Some r ∧ vk ∈ r.1).
Proof.
  split; [exact wf_new|].
  exact (X21_versioned_reverse_consistency (K:=nat) (VK:=nat * nat)
           Cache.new _ wf_new).
Defined.

(** X22. The cross-space unions of the versioned store, in general:
    [unionPts(vk, k)] leaves in the address-taken set of [vk] its union with
    the top-level set of [k], moves no other ID on either side, and returns
    false exactly when the source set was already within the destination; it
    is the same call as [unionPts(vk, getPts(k))] with the source's data
    set.  [unionPts(k, vk)] is the mirror image. *)
Theorem X22_cross_space_union_general `{Countable K, Countable VK}
    (c : Cache.t) (s : Ver.t K VK) (k : K) (vk : VK) :
  Cache.wf c → ver_valid c s →
  (let r := Ver.unionPtsVK c s vk k in
   B.ptsOf r.1.2 (Ver.atPTData r.2) vk
     = B.ptsOf c (Ver.atPTData s) vk ∪ B.ptsOf c (Ver.tlPTData s) k ∧
   (∀ vk', vk' ≠ vk →
      B.idOf (Ver.atPTData r.2) vk' = B.idOf (Ver.atPTData s) vk') ∧
   (∀ k', B.idOf (Ver.tlPTData r.2) k' = B.idOf (Ver.tlPTData s) k') ∧
   (r.1.1 = false
    ↔ B.ptsOf c (Ver.tlPTData s) k ⊆ B.ptsOf c (Ver.atPTData s) vk) ∧
   r = Ver.unionPtsDataV c (Ver.getPts c s k).2 vk (Ver.getPts c s k).1) ∧
  (let r := Ver.unionPtsKV c s k vk in
   B.ptsOf r.1.2 (Ver.tlPTData r.2) k
     = B.ptsOf c (Ver.tlPTData s) k ∪ B.ptsOf c (Ver.atPTData s) vk ∧
   (∀ k', k' ≠ k →
      B.idOf (Ver.tlPTData r.2) k' = B.idOf (Ver.tlPTData s) k') ∧
   (∀ vk', B.idOf (Ver.atPTData r.2) vk' = B.idOf (Ver.atPTData s) vk') ∧
   (r.1.1 = false
    ↔ B.ptsOf c (Ver.atPTData s) vk ⊆ B.ptsOf c (Ver.tlPTData s) k) ∧
   r = Ver.unionPtsData c (Ver.getPtsV c s vk).2 k (Ver.getPtsV c s vk).1).
Proof.
  intros Hwf [Hvtl Hvat]. split; intros r; subst r.
  - assert (Heq : Ver.unionPtsVK c s vk k
             = Ver.unionPtsDataV c (Ver.getPts c s k).2 vk (Ver.getPts c s k).1).
    { unfold Ver.unionPtsVK, Ver.unionPtsDataV, Ver.getPts, B.getPts.
      cbn [fst snd Ver.atPTData Ver.tlPTData Ver.rev].
      by rewrite unionPtsFromId_as_data by (done || apply Hvtl). }
    unfold Ver.unionPtsVK in *. unfold Ver.withAT in *.
    cbn [Ver.atPTData Ver.tlPTData Ver.rev] in *.
    destruct (B.unionPtsFromId c (Ver.atPTData s) vk _) as [[b c'] s'] eqn:E.
    apply unionPtsFromId_valid in E
      as (Hp & Hwf' & Hv' & Hpts & Hoth & Hb & _); [|done|done|apply Hvtl].
    cbn [fst snd Ver.atPTData Ver.tlPTData]. split_and!; try done.
    + intros k'. unfold B.idOf. cbn [B.ptsMap]. apply rd_subscript.
    + rewrite Hb.
      apply (union_absorbed_iff c c'); (done || apply Hvat || apply Hv').
  - assert (Heq : Ver.unionPtsKV c s k vk
             = Ver.unionPtsData c (Ver.getPtsV c s vk).2 k (Ver.getPtsV c s vk).1).
    { unfold Ver.unionPtsKV, Ver.unionPtsData, Ver.getPtsV, B.getPts.
      cbn [fst snd Ver.atPTData Ver.tlPTData Ver.rev].
      by rewrite unionPtsFromId_as_data by (done || apply Hvat). }
    unfold Ver.unionPtsKV in *. unfold Ver.withTL in *.
    cbn [Ver.atPTData Ver.tlPTData Ver.rev] in *.
    destruct (B.unionPtsFromId c (Ver.tlPTData s) k _) as [[b c'] s'] eqn:E.
    apply unionPtsFromId_valid in E
      as (Hp & Hwf' & Hv' & Hpts & Hoth & Hb & _); [|done|done|apply Hvat].
    cbn [fst snd Ver.atPTData Ver.tlPTData]. split_and!; try done.
    + intros vk'. unfold B.idOf. cbn [B.ptsMap]. apply rd_subscript.
    + rewrite Hb.
      apply (union_absorbed_iff c c'); (done || apply Hvtl || apply Hv').
Qed.

Lemma sample_ver_valid :
  Cache.wf sample_ver.1 ∧ ver_valid sample_ver.1 sample_ver.2.
Proof.
  assert (Hinv : ver_inv sample_ver) by apply ver_inv_run, ver_inv_new, wf_new.
  destruct Hinv as (_ & (Hwf & Hvtl & _) & (_ & Hvat & _)).
  split; [done|by split].
Qed.

Lemma X22_cross_space_union_general_witness :
  let c := sample_ver.1 in
  let s := sample_ver.2 in
  let r := Ver.unionPtsVK c s (6, 2) 0 in
  (Cache.wf c ∧ ver_valid c s) ∧
  B.ptsOf r.1.2 (Ver.atPTData r.2) (6, 2)
    = B.ptsOf c (Ver.atPTData s) (6, 2) ∪ B.ptsOf c (Ver.tlPTData s) 0 ∧
  (r.1.1 = false
   ↔ B.ptsOf c (Ver.tlPTData s) 0 ⊆ B.ptsOf c (Ver.atPTData s) (6, 2)) ∧
  r = Ver.unionPtsDataV c (Ver.getPts c s 0).2 (6, 2) (Ver.getPts c s 0).1.
Proof.
  intros c s r.
  destruct sample_ver_valid as [Hwf Hv].
  destruct (X22_cross_space_union_general c s 0 (6, 2) Hwf Hv)
    as [(H1 & _ & _ & H2 & H3) _].
  split; [by split|]. split; [exact H1|]. split; [exact H2|exact H3].
Defined.

(** ** Round trips and chains *)

(** X23. In a basic store with reverse points-to, removing a datum a key
    points to with [clearPts] and adding it back with [addPts] is a round
    trip: [addPts] returns true, the key has its former points-to set and,
    the cache being hash-consed, its former ID; no other key moves and every
    reverse set is as before. *)
Theorem X23_clear_add_round_trip `{Countable K} (c : Cache.t) (s : B.t K)
    (k : K) (d : nat) :
  basic_inv (c, s) → d ∈ B.ptsOf c s k →
  let r1 := B.clearPts c s k d in
  let r2 := B.addPts r1.1 r1.2 k d in
  r2.1.1 = true ∧
  B.ptsOf r2.1.2 r2.2 k = B.ptsOf c s k ∧
  (∀ k', B.idOf r2.2 k' = B.idOf s k') ∧
  (∀ d', B.revOf r2.2 d' = B.revOf s d').
Proof.
  intros (Hwf & Hv & Hr & Hc) Hd r1 r2. subst r2 r1. cbn [fst snd] in *.
  destruct (B.clearPts c s k d) as [c1 s1] eqn:E1. cbn [fst snd].
  apply clearPts_spec in E1
    as (Hp1 & Hwf1 & Hv1 & Hpts1 & Hoth1 & Hr1 & Hrev1); [|done..].
  destruct (B.addPts c1 s1 k d) as [[b c2] s2] eqn:E2. cbn [fst snd].
  change (B.runUpdate c1 s1 (B.AddPts k d) = (b, c2, s2)) in E2.
  apply basic_runUpdate_spec in E2
    as (Hp2 & Hwf2 & Hv2 & Hpts2 & Hoth2 & Hb & Hr2 & Hrev2); [|done..].
  cbn [B.dstOf basic_srcOf] in *.
  assert (Hback : B.ptsOf c2 s2 k = B.ptsOf c s k).
  { rewrite Hpts2, Hpts1. apply set_eq. intros x.
    destruct (decide (x = d)) as [->|]; set_solver. }
  assert (Hid1 : B.idOf s1 k ≠ B.idOf s k).
  { apply (id_change_iff_set_change c c1); [done|done|apply Hv|apply Hv1|].
    fold (B.ptsOf c1 s1 k). fold (B.ptsOf c s k). rewrite Hpts1. set_solver. }
  assert (Hid2 : B.idOf s2 k ≠ B.idOf s1 k).
  { apply (id_change_iff_set_change c1 c2); [done|done|apply Hv1|apply Hv2|].
    fold (B.ptsOf c2 s2 k). fold (B.ptsOf c1 s1 k). rewrite Hpts2, Hpts1.
    set_solver. }
  assert (Hbt : b = true) by (by rewrite Hb, bool_decide_true).
  split_and!; [done|done| |].
  - intros k'. destruct (decide (k' = k)) as [->|Hne].
    + apply (getActualPts_inj c2); [done|apply Hv2| |].
      * eapply valid_prefix; [done|]. eapply valid_prefix; [done|]. apply Hv.
      * fold (B.ptsOf c2 s2 k). rewrite Hback. symmetry.
        rewrite (getActualPts_prefix c1 c2)
          by (done || (eapply valid_prefix; [done|apply Hv])).
        apply getActualPts_prefix; [done|apply Hv].
    + by rewrite Hoth2, Hoth1.
  - intros d'. rewrite Hrev2, Hrev1, Hbt, Hr1, Hr.
    rewrite (bool_decide_true (B.idOf s1 k ≠ B.idOf s k)) by done.
    cbn [andb]. destruct (decide (d' = d)) as [->|Hne].
    + rewrite !bool_decide_true by set_solver.
      apply (Hc k d) in Hd. apply set_eq. intros x.
      destruct (decide (x = k)) as [->|]; set_solver.
    + rewrite !bool_decide_false by set_solver. done.
Qed.

Lemma X23_clear_add_round_trip_witness :
  let c := sample_basic.1 in
  let s := sample_basic.2 in
  let r1 := B.clearPts c s 2 1 in
  let r2 := B.addPts r1.1 r1.2 2 1 in
  (basic_inv (c, s) ∧ 1 ∈ B.ptsOf c s 2) ∧
  r2.1.1 = true ∧
  B.ptsOf r2.1.2 r2.2 2 = B.ptsOf c s 2 ∧
  (∀ k', B.idOf r2.2 k' = B.idOf s k') ∧
  (∀ d', B.revOf r2.2 d' = B.revOf s d').
Proof.
  intros c s r1 r2.
  assert (Hinv : basic_inv (c, s)).
  { unfold c, s. rewrite <-surjective_pairing. apply sample_basic_inv. }
  assert (Hd : 1 ∈ B.ptsOf c s 2) by (vm_compute; reflexivity).
  split; [by split|].
  exact (X23_clear_add_round_trip c s 2 1 Hinv Hd).
Defined.

(** X24. In the incremental store a change does not get lost on its way: when
    [updateATVPts(sK, L, v)] returns true, the [updateDFInFromOut] that follows
    from the slot [(L, v)] is not skipped, and afterwards its destination IN
    set holds what it held, what [dfOut[L][v]] held, and the points-to set of
    [sK]. *)
Theorem X24_change_propagates `{Countable K} (c : Cache.t) (s : Inc.t K)
    (sK : K) (L : nat) (v : K) (L2 : nat) (v2 : K) :
  Cache.wf c → inc_valid c s →
  let r1 := Inc.updateATVPts c s sK L v in
  let r2 := Inc.updateDFInFromOut r1.1.2 r1.2 L v L2 v2 in
  r1.1.1 = true →
  Inc.varHasNewDFOutPts r1.2 L v = true ∧
  DF.inOf r2.1.2 (Inc.base r2.2) L2 v2
    = DF.inOf c (Inc.base s) L2 v2 ∪ DF.outOf c (Inc.base s) L v
      ∪ B.ptsOf c (DF.persPTData (Inc.base s)) sK.
Proof.
  intros Hwf Hv r1 r2 Hb1.
  destruct (inc_runUpdate_shape c s (DF.UpdateATVPts sK L v) eq_refl)
    as (Hbase1 & _ & Hout1).
  change (Inc.runUpdate c s (DF.UpdateATVPts sK L v)) with r1 in Hbase1, Hout1.
  cbv zeta in Hout1. rewrite Hb1 in Hout1.
  destruct (df_runUpdate_spec c (Inc.base s) (DF.UpdateATVPts sK L v)
              r1.1.1 r1.1.2 (Inc.base r1.2) Hwf Hv (eq_sym Hbase1))
    as (Hp1 & Hwf1 & Hv1 & Hdst1 & Hoth1 & _).
  cbn [DF.dstOf df_srcOf] in Hdst1, Hoth1.
  assert (Hflag : Inc.varHasNewDFOutPts r1.2 L v = true).
  { apply varHasNewDFOutPts_true. unfold Inc.isOutDirty. rewrite Hout1.
    change (inc_mark (inc_consume s (DF.UpdateATVPts sK L v))
              (DF.UpdateATVPts sK L v))
      with (Inc.setVarDFOutSetUpdated s L v).
    apply isOutDirty_set. by right. }
  split; [done|].
  destruct (inc_runUpdate_shape r1.1.2 r1.2 (DF.UpdateDFInFromOut L v L2 v2) Hflag)
    as (Hbase2 & _).
  change (Inc.runUpdate r1.1.2 r1.2 (DF.UpdateDFInFromOut L v L2 v2))
    with r2 in Hbase2.
  destruct (df_runUpdate_spec r1.1.2 (Inc.base r1.2)
              (DF.UpdateDFInFromOut L v L2 v2)
              r2.1.1 r2.1.2 (Inc.base r2.2) Hwf1 Hv1 (eq_sym Hbase2))
    as (_ & _ & _ & Hdst2 & _).
  cbn [DF.dstOf df_srcOf] in Hdst2.
  unfold DF.inOf, DF.outOf in *. rewrite Hdst2, Hdst1.
  rewrite (Hoth1 (DF.InRef L2 v2)) by done.
  rewrite (getActualPts_prefix c r1.1.2) by (done || apply Hv).
  unfold B.ptsOf. set_solver.
Qed.

Lemma X24_change_propagates_witness :
  let c := sample_inc.1 in
  let s := sample_inc.2 in
  let r1 := Inc.updateATVPts c s 0 8 11 in
  let r2 := Inc.updateDFInFromOut r1.1.2 r1.2 8 11 7 11 in
  (Cache.wf c ∧ inc_valid c s ∧ r1.1.1 = true) ∧
  Inc.varHasNewDFOutPts r1.2 8 11 = true ∧
  DF.inOf r2.1.2 (Inc.base r2.2) 7 11
    = DF.inOf c (Inc.base s) 7 11 ∪ DF.outOf c (Inc.base s) 8 11
      ∪ B.ptsOf c (DF.persPTData (Inc.base s)) 0.
Proof.
  intros c s r1 r2.
  destruct (sample_inc_inv) as [Hwf Hv].
  assert (Hb : r1.1.1 = true) by reflexivity.
  split; [by split_and!|].
  exact (X24_change_propagates c s 0 8 11 7 11 Hwf Hv Hb).
Defined.

Section inc_sets.
Context `{Countable K}.

(** The loop of [updateAllDFOutFromIn] over flagged variables, on the sets:
    each variable's flag is still there when its turn comes, so its transfer
    runs. *)
Lemma inc_outFromIn_loop_sets l v su (ks : list K) :
  NoDup ks → ∀ ch c (s : Inc.t K) b c' s',
  Cache.wf c → inc_valid c s →
  (∀ k, k ∈ ks → Inc.isInDirty s l k) →
  foldl (Inc.outFromInBody l v su) (ch, c, s) ks = (b, c', s') →
  c `prefix_of` c' ∧ Cache.wf c' ∧ inc_valid c' s' ∧
  (∀ r, (∀ k, k ∈ ks → skipped su v k = false → r ≠ DF.OutRef l k) →
        DF.deref (Inc.base s') r = DF.deref (Inc.base s) r) ∧
  (∀ k, k ∈ ks → skipped su v k = false →
        DF.outOf c' (Inc.base s') l k
        = DF.outOf c (Inc.base s) l k ∪ DF.inOf c (Inc.base s) l k).
Proof.
  induction 1 as [|k ks Hk Hnd IH]; intros ch c s b c' s' Hwf Hv Hd; simpl.
  { intros [= <- <- <-]. split_and!; try done. by intros k ?%elem_of_nil. }
  fold (skipped su v k).
  destruct (skipped su v k) eqn:Hsk.
  - intros Hu. apply IH in Hu as (Hp & Hwf' & Hv' & Hoth & Hpts); try done.
    2:{ intros k' Hk'. apply Hd. by right. }
    split_and!; try done.
    + intros r Hr. apply Hoth. intros k' Hk'. apply Hr. by right.
    + intros k' [->|Hk']%elem_of_cons Hs'; [congruence|]. by apply Hpts.
  - destruct (Inc.updateDFOutFromIn c s l k l k) as [[r1 c1] s1] eqn:E.
    pose proof (inc_updateDFOutFromIn_dirty _ _ _ _ _ _ _ _ _ E) as Hdirty.
    assert (Hg : inc_guard s (DF.UpdateDFOutFromIn l k l k) = true).
    { apply varHasNewDFInPts_true, Hd. by left. }
    destruct (inc_runUpdate_shape c s (DF.UpdateDFOutFromIn l k l k) Hg)
      as (Hbase & _).
    change (Inc.runUpdate c s (DF.UpdateDFOutFromIn l k l k))
      with (Inc.updateDFOutFromIn c s l k l k) in Hbase.
    rewrite E in Hbase. cbn [fst snd] in Hbase. symmetry in Hbase.
    apply updateDFOutFromIn_spec in Hbase
      as (Hp1 & Hwf1 & Hv1 & Hpts1 & Hoth1 & _); try done.
    intros Hu. apply IH in Hu as (Hp & Hwf' & Hv' & Hoth & Hpts); try done.
    2:{ intros k' Hk'. apply Hdirty. split; [apply Hd; by right|].
        intros [= ->]. done. }
    assert (Hkeep : DF.deref (Inc.base s') (DF.OutRef l k)
                    = DF.deref (Inc.base s1) (DF.OutRef l k)).
    { apply Hoth. intros k' Hk' _ [= ->]. done. }
    split_and!; try done.
    + by etrans.
    + intros r Hr. rewrite Hoth.
      * apply Hoth1. apply Hr; [by left|done].
      * intros k' Hk'. apply Hr. by right.
    + intros k' [->|Hk']%elem_of_cons Hs'.
      * rewrite <-Hpts1. unfold DF.outOf. rewrite Hkeep.
        apply getActualPts_prefix; [done|apply Hv1].
      * rewrite Hpts by done. assert (k' ≠ k) by (by intros ->).
        unfold DF.outOf, DF.inOf.
        rewrite !Hoth1 by congruence.
        rewrite !(getActualPts_prefix c c1) by (done || apply Hv). done.
Qed.

End inc_sets.

(** X25. [updateAllDFOutFromIn(l, v, su)] of the incremental store joins IN
    into OUT for the variables flagged in IN at [l] only (but for [v] under
    strong updates): each of them gets [dfOut[l][k] := dfOut[l][k] ∪
    dfIn[l][k]], and every slot that is not the OUT slot of a flagged
    variable keeps its ID, whether or not its IN set is within its OUT
    set. *)
Theorem X25_incremental_out_from_in_flagged_only `{Countable K} (c : Cache.t)
    (s : Inc.t K) (l : nat) (v : K) (su : bool) :
  Cache.wf c → inc_valid c s →
  let r := Inc.updateAllDFOutFromIn c s l v su in
  (Inc.hasDFInSet s l = true →
   ∀ k, Inc.varHasNewDFInPts s l k = true → ¬ (su = true ∧ k = v) →
        DF.outOf r.1.2 (Inc.base r.2) l k
        = DF.outOf c (Inc.base s) l k ∪ DF.inOf c (Inc.base s) l k) ∧
  (∀ ref, (∀ k, Inc.varHasNewDFInPts s l k = true → ref ≠ DF.OutRef l k) →
          DF.deref (Inc.base r.2) ref = DF.deref (Inc.base s) ref) ∧
  Cache.wf r.1.2 ∧ inc_valid r.1.2 r.2.
Proof.
  intros Hwf Hv r. subst r.
  destruct (Inc.updateAllDFOutFromIn c s l v su) as [[b c'] s'] eqn:E.
  cbn [fst snd]. unfold Inc.updateAllDFOutFromIn in E.
  destruct (Inc.hasDFInSet s l) eqn:Hhas.
  - cbn [Inc.getDFInUpdatedVar] in E.
    apply inc_outFromIn_loop_sets in E as (Hp & Hwf' & Hv' & Hoth & Hpts);
      [|apply NoDup_elements|done|done|].
    2:{ intros k Hk%elem_of_elements. unfold Inc.isInDirty.
        cbn [Inc.inUpdatedVarMap]. by rewrite rd_subscript. }
    cbn [Inc.base] in Hoth, Hpts. split_and!; try done.
    + intros _ k Hk%varHasNewDFInPts_true Hns. apply Hpts.
      * by apply elem_of_elements.
      * unfold skipped. destruct su; [|done]. simpl.
        apply bool_decide_eq_false. intros ->. by apply Hns.
    + intros ref Href. apply Hoth. intros k Hk%elem_of_elements _.
      apply Href. by apply varHasNewDFInPts_true.
  - injection E as <- <- <-. by split_and!.
Qed.

Lemma X25_incremental_out_from_in_flagged_only_witness :
  let c := sample_inc.1 in
  let s := sample_inc.2 in
  let r := Inc.updateAllDFOutFromIn c s 9 10 true in
  (Cache.wf c ∧ inc_valid c s ∧ Inc.hasDFInSet s 9 = true ∧
   Inc.varHasNewDFInPts s 9 11 = true) ∧
  DF.outOf r.1.2 (Inc.base r.2) 9 11
    = DF.outOf c (Inc.base s) 9 11 ∪ DF.inOf c (Inc.base s) 9 11 ∧
  DF.deref (Inc.base r.2) (DF.OutRef 8 10)
    = DF.deref (Inc.base s) (DF.OutRef 8 10).
Proof.
  intros c s r.
  destruct (sample_inc_inv) as [Hwf Hv].
  destruct (X25_incremental_out_from_in_flagged_only c s 9 10 true Hwf Hv)
    as (H1 & H2 & _).
  split; [split_and!; (done || reflexivity)|]. split.
  - apply (H1 eq_refl 11 eq_refl). intros [_ Heq]. discriminate Heq.
  - apply H2. intros k _ Heq. discriminate Heq.
Defined.
